(** * blobstore: content-addressed blob upload pipeline

    A shallow embedding of the Go package [blobstore] (blob.go,
    blobstore.go, tar.go) together with the properties its specification
    states about it.

    Layout:
    - [Go]        : the pieces of the Go runtime and standard library the
                    package relies on (errors, fixed-width integers,
                    [fmt]'s [%x] verb, [crypto/sha256]);
    - [Model]     : the world the package runs in (temporary storage,
                    source tree, remote store) and the package itself,
                    written in a state-and-panic monad;
    - [Untar]     : [Untargz], over a file system of its own;
    - the theorems, after all definitions: first the properties the
      specification states, then further properties of the package. *)

From Stdlib Require Import ZArith List String Ascii Lia Bool.
From Stdlib.Strings Require Import Byte.
From stdpp Require Import base option list gmap strings pretty.

Local Open Scope string_scope.
Local Open Scope list_scope.
Local Open Scope Z_scope.

(* ===================================================================== *)
(** * The Go side                                                         *)
(* ===================================================================== *)

Module Go.

(** A Go [[]byte]. *)
Abbreviation bytes := (list Byte.byte).

Definition byte_to_Z (b : Byte.byte) : Z := Z.of_N (Byte.to_N b).

Definition byte_of_Z (z : Z) : Byte.byte :=
  match Byte.of_N (Z.to_N (z mod 256)) with
  | Some b => b
  | None => Byte.x00
  end.

(** [len(p)] as a Go [int]. *)
Definition len {A} (p : list A) : Z := Z.of_nat (length p).

(** ** Errors

    A Go [error] is a message; [errors.Wrap] (github.com/pkg/errors)
    keeps the cause and prefixes a context message. *)
Inductive error :=
| ErrNew (msg : string)
| ErrWrap (cause : error) (msg : string).

Definition Wrap (err : error) (msg : string) : error := ErrWrap err msg.

Fixpoint Cause (e : error) : error :=
  match e with
  | ErrNew _ => e
  | ErrWrap c _ => Cause c
  end.

Fixpoint Error (e : error) : string :=
  match e with
  | ErrNew m => m
  | ErrWrap c m => (m ++ ": " ++ Error c)%string
  end.

(** [err == other] on the error values the package meets. *)
Fixpoint error_eqb (a b : error) : bool :=
  match a, b with
  | ErrNew m, ErrNew m' => String.eqb m m'
  | ErrWrap c m, ErrWrap c' m' => error_eqb c c' && String.eqb m m'
  | _, _ => false
  end.

(** [io.ErrShortWrite], [io.EOF], [os.ErrClosed], [syscall.ENOSPC]. *)
Definition ErrShortWrite : error := ErrNew "short write".
Definition EOF : error := ErrNew "EOF".
Definition ErrClosed : error := ErrNew "file already closed".
Definition ENOSPC : error := ErrNew "no space left on device".

(** ** Fixed-width integers *)

Definition uint64 (z : Z) : Z := z mod 2 ^ 64.

(** The conversion [int64(x)] of a [uint64] value: same bits, read as
    two's complement. *)
Definition int64 (z : Z) : Z :=
  let u := z mod 2 ^ 64 in
  if u <? 2 ^ 63 then u else u - 2 ^ 64.

(** [atomic.AddUint64(&c, uint64(n))]. *)
Definition AddUint64 (c n : Z) : Z := uint64 (c + n).

(** ** [fmt.Sprintf("%x", []byte)]: two lowercase hexadecimal digits per
    byte, most significant nibble first. *)

Definition ldigits : string := "0123456789abcdef".

Definition hexdigit (n : Z) : ascii :=
  match String.get (Z.to_nat n) ldigits with
  | Some c => c
  | None => "0"%char
  end.

Fixpoint fmt_x (p : bytes) : string :=
  match p with
  | [] => EmptyString
  | b :: p' =>
      String (hexdigit (Z.shiftr (byte_to_Z b) 4))
        (String (hexdigit (Z.land (byte_to_Z b) 15)) (fmt_x p'))
  end.

(** [strings.HasPrefix], [strings.TrimPrefix]. *)
Fixpoint HasPrefix (s prefix : string) : bool :=
  match prefix, s with
  | EmptyString, _ => true
  | String c p', String d s' => Ascii.eqb c d && HasPrefix s' p'
  | String _ _, EmptyString => false
  end.

Fixpoint drop_string (n : nat) (s : string) : string :=
  match n, s with
  | S n', String _ s' => drop_string n' s'
  | _, _ => s
  end.

Definition TrimPrefix (s prefix : string) : string :=
  if HasPrefix s prefix then drop_string (String.length prefix) s else s.

(** [strings.Replace(s, old, "", -1)]: every non-overlapping occurrence
    of [old] is cut out, leftmost first; an empty [old] cuts nothing.
    [skip] counts the characters of an occurrence still to be dropped. *)
Fixpoint cut_all (old : string) (skip : nat) (s : string) : string :=
  match s with
  | EmptyString => EmptyString
  | String c s' =>
      match skip with
      | S k => cut_all old k s'
      | O =>
          if HasPrefix s old
          then match String.length old with
               | O => String c (cut_all old O s')
               | S k => cut_all old k s'
               end
          else String c (cut_all old O s')
      end
  end.

Definition Replace_with_empty (s old : string) : string := cut_all old O s.

(** [path.Base]: the last element of a slash-separated path, trailing
    slashes put aside; ["."] for the empty path and ["/"] for a path of
    slashes only. *)
Definition is_slash (c : ascii) : bool := Ascii.eqb c "/".

Fixpoint trim_slashes (s : string) : string :=
  match s with
  | EmptyString => EmptyString
  | String c s' =>
      match trim_slashes s' with
      | EmptyString => if is_slash c then EmptyString else String c EmptyString
      | t => String c t
      end
  end.

Fixpoint last_element (s : string) : string :=
  match s with
  | EmptyString => EmptyString
  | String c s' =>
      if existsb is_slash (list_ascii_of_string s') then last_element s'
      else if is_slash c then s' else s
  end.

Definition path_Base (path : string) : string :=
  match path with
  | EmptyString => "."
  | _ =>
      match last_element (trim_slashes path) with
      | EmptyString => "/"
      | e => e
      end
  end.

(** [filepath.Clean] and [filepath.Join] (unix).  [elements] cuts a
    path at its slashes; [clean_step] keeps the elements that survive,
    last first. *)
Fixpoint elements (s : string) : list string :=
  match s with
  | EmptyString => [EmptyString]
  | String c s' =>
      if is_slash c then EmptyString :: elements s'
      else
        match elements s' with
        | e :: es => String c e :: es
        | [] => [String c EmptyString]
        end
  end.

Definition clean_step (rooted : bool) (kept : list string) (e : string)
  : list string :=
  if String.eqb e "" || String.eqb e "." then kept
  else if String.eqb e ".." then
    match kept with
    | top :: rest => if String.eqb top ".." then e :: kept else rest
    | [] => if rooted then [] else [e]
    end
  else e :: kept.

Definition join_elements (es : list string) : string :=
  match es with
  | [] => ""
  | e :: es' => fold_left (fun acc x => acc ++ "/" ++ x)%string es' e
  end.

Definition Clean (path : string) : string :=
  let rooted := HasPrefix path "/" in
  match rev (fold_left (clean_step rooted) (elements path) []), rooted with
  | [], false => "."
  | kept, true => ("/" ++ join_elements kept)%string
  | kept, false => join_elements kept
  end.

Definition filepath_Join (a b : string) : string :=
  match a, b with
  | EmptyString, EmptyString => ""
  | EmptyString, _ => Clean b
  | _, _ => Clean (a ++ "/" ++ b)
  end.

(** [os.O_RDWR], [os.O_CREATE], [os.O_TRUNC] (linux), and the
    conversion [os.FileMode(m)] of an [int64]. *)
Definition O_RDWR : Z := 0x2.
Definition O_CREATE : Z := 0x40.
Definition O_TRUNC : Z := 0x200.
Definition FileMode (m : Z) : Z := m mod 2 ^ 32.

(** The permission bits [0755]. *)
Definition rwxr_xr_x : Z := 7 * 64 + 5 * 8 + 5.

(** [strconv.FormatInt(n, 10)] and [strconv.FormatBool]. *)
Definition FormatInt (n : Z) : string := pretty n.
Definition FormatBool (b : bool) : string := if b then "true" else "false".

(** ** [crypto/sha256]

    The block function follows [blockGeneric] of the Go standard
    library; [Sum256] pads the message as [digest.checkSum] does. *)
Module sha256.

(** [uint32(z)]: the low 32 bits. *)
Definition u32 (z : Z) : Z := Z.land z 0xffffffff.

(** [bits.RotateLeft32(x, -k)]. *)
Definition rotr (k x : Z) : Z :=
  Z.lor (Z.shiftr x k) (u32 (Z.shiftl x (32 - k))).

(** [^x] on a [uint32]. *)
Definition not32 (x : Z) : Z := 0xffffffff - x.

(** The constants, as FIPS 180-4 defines them: the first 32 bits of the
    fractional parts of the cube roots of the first 64 primes ([_K]) and
    of the square roots of the first 8 primes ([init]). *)
Definition is_prime (p : Z) : bool :=
  forallb (fun d => negb (p mod d =? 0))
          (map Z.of_nat (seq 2 (Z.to_nat p - 2))).

Definition primes (n : nat) : list Z :=
  firstn n (List.filter is_prime (map Z.of_nat (seq 2 310))).

(** The largest [r] below [2 ^ k] with [r ^ e <= n], one bit at a time. *)
Fixpoint root_bits (k : nat) (e n r : Z) : Z :=
  match k with
  | O => r
  | S k' =>
      let r' := r + 2 ^ Z.of_nat k' in
      root_bits k' e n (if r' ^ e <=? n then r' else r)
  end.

Definition frac_root (e p : Z) : Z :=
  u32 (root_bits 36 e (p * 2 ^ (32 * e)) 0).

Definition _K : list Z := Eval vm_compute in map (frac_root 3) (primes 64).

Definition init : list Z := Eval vm_compute in map (frac_root 2) (primes 8).

(** Big-endian words of a block. *)
Fixpoint be_words (p : list Z) : list Z :=
  match p with
  | a :: b :: c :: d :: p' =>
      (Z.lor (Z.lor (Z.lor (Z.shiftl a 24) (Z.shiftl b 16)) (Z.shiftl c 8)) d)
        :: be_words p'
  | _ => []
  end.

Definition at_ (l : list Z) (i : nat) : Z := nth i l 0.

(** The message schedule [w[16..63]], one word at a time. *)
Fixpoint schedule (n : nat) (w : list Z) : list Z :=
  match n with
  | O => w
  | S n' =>
      let i := length w in
      let v1 := at_ w (i - 2) in
      let t1 := Z.lxor (Z.lxor (rotr 17 v1) (rotr 19 v1)) (Z.shiftr v1 10) in
      let v2 := at_ w (i - 15) in
      let t2 := Z.lxor (Z.lxor (rotr 7 v2) (rotr 18 v2)) (Z.shiftr v2 3) in
      schedule n' (w ++ [u32 (t1 + at_ w (i - 7) + t2 + at_ w (i - 16))])
  end.

Record regs := Regs { ra : Z; rb : Z; rc : Z; rd : Z;
                      re : Z; rf : Z; rg : Z; rh : Z }.

Definition round (r : regs) (kw : Z * Z) : regs :=
  let '(Regs a b c d e f g h) := r in
  let t1 := h + Z.lxor (Z.lxor (rotr 6 e) (rotr 11 e)) (rotr 25 e)
              + Z.lxor (Z.land e f) (Z.land (not32 e) g)
              + fst kw + snd kw in
  let t2 := Z.lxor (Z.lxor (rotr 2 a) (rotr 13 a)) (rotr 22 a)
            + Z.lxor (Z.lxor (Z.land a b) (Z.land a c)) (Z.land b c) in
  Regs (u32 (t1 + t2)) a b c (u32 (d + t1)) e f g.

Definition block1 (h : list Z) (p : list Z) : list Z :=
  let w := schedule 48 (be_words p) in
  let r0 := Regs (at_ h 0) (at_ h 1) (at_ h 2) (at_ h 3)
                 (at_ h 4) (at_ h 5) (at_ h 6) (at_ h 7) in
  let '(Regs a b c d e f g hh) := fold_left round (combine _K w) r0 in
  [ u32 (at_ h 0 + a); u32 (at_ h 1 + b); u32 (at_ h 2 + c);
    u32 (at_ h 3 + d); u32 (at_ h 4 + e); u32 (at_ h 5 + f);
    u32 (at_ h 6 + g); u32 (at_ h 7 + hh) ].

(** [block]: consume the message 64 bytes at a time. *)
Fixpoint block (fuel : nat) (h : list Z) (p : list Z) : list Z :=
  match fuel with
  | O => h
  | S fuel' =>
      match p with
      | [] => h
      | _ => block fuel' (block1 h (firstn 64 p)) (skipn 64 p)
      end
  end.

Definition be_bytes (nbytes : nat) (z : Z) : list Z :=
  map (fun i => Z.land (Z.shiftr z (8 * Z.of_nat i)) 255)
      (rev (seq 0 nbytes)).

(** Padding: 0x80, zeros up to 56 mod 64, the bit length on 8 bytes. *)
Definition pad (p : list Z) : list Z :=
  let n := Z.of_nat (length p) in
  let k := (55 - n) mod 64 in
  p ++ [128] ++ repeat 0 (Z.to_nat k) ++ be_bytes 8 (8 * n).

Definition Sum256 (data : bytes) : bytes :=
  let p := pad (map byte_to_Z data) in
  let h := block (S (length p / 64)) init p in
  map byte_of_Z (flat_map (be_bytes 4) h).

(** [sha256.Size]. *)
Definition Size : nat := 32.

End sha256.

End Go.

Import Go.

(* ===================================================================== *)
(** * The external collaborators                                          *)
(* ===================================================================== *)

(** ** The compressor (github.com/klauspost/pgzip)

    The package only relies on the compressor being a streaming writer:
    each chunk it is given may make it emit compressed bytes to the
    writer underneath, and closing it emits whatever it still holds.
    Nothing is assumed about what the emitted bytes are. *)
Class Compressor := {
  gz_state : Type;
  gz_init : Z -> gz_state;
  gz_write : gz_state -> bytes -> gz_state * bytes;
  gz_close : gz_state -> bytes;
}.

(** [pgzip.BestCompression], [pgzip.ConstantCompression]. *)
Definition BestCompression : Z := 9.
Definition ConstantCompression : Z := -2.

(** ** The remote store client (github.com/minio/minio-go) *)

Record ObjectInfo := { oi_Key : string; oi_Size : Z }.

Record PutObjectOptions := {
  ContentType : string;
  UserMetadata : list (string * string);
}.

(** The client is used through four calls.  The store behind it is a
    state machine of any shape: every call may answer anything and move
    the store anywhere. *)
Class Minio := {
  client : Type;
  remote : Type;
  minio_New : string -> string -> string -> bool -> error + client;
  mc_GetObject : client -> remote -> string -> string -> remote * option error;
  mc_Stat : client -> remote -> string -> string -> remote * (error + ObjectInfo);
  mc_FPutObject : client -> remote -> string -> string -> option bytes ->
                  PutObjectOptions -> remote * (Z * option error);
  mc_RemoveObject : client -> remote -> string -> string -> remote * option error;
}.

(** ** The tar block format (archive/tar)

    How a header is rendered into blocks (USTAR, PAX or GNU, chosen by
    the writer) is left open; [None] stands for a header no format can
    hold. *)
Inductive Typeflag :=
| TypeReg | TypeDir | TypeSymlink | TypeChar | TypeBlock | TypeFifo.

Inductive Format := FormatUnknown | FormatUSTAR | FormatPAX | FormatGNU.

(** [time.Time], as nanoseconds from the zero instant [time.Time{}]. *)
Definition Time := Z.
Definition zeroTime : Time := 0.

Record Header := {
  h_Typeflag : Typeflag;
  h_Name : string;
  h_Linkname : string;
  h_Size : Z;
  h_Mode : Z;
  h_Uid : Z;
  h_Gid : Z;
  h_Uname : string;
  h_Gname : string;
  h_ModTime : Time;
  h_AccessTime : Time;
  h_ChangeTime : Time;
  h_Devmajor : Z;
  h_Devminor : Z;
  h_Format : Format;
}.

Class TarFormat := {
  tar_encode : Header -> error + bytes;
}.

(* ===================================================================== *)
(** * The world                                                           *)
(* ===================================================================== *)

(** ** Local temporary storage

    [d_files] maps the path of every file in the temporary directory to
    its content.  The environment decides three things: how many more
    bytes the device accepts ([d_free]), which name the next
    [ioutil.TempFile] picks ([d_temp], [None] when it cannot create
    one), and what closing a file reports ([d_close_err]). *)
Record Disk := {
  d_files : gmap string bytes;
  d_free : nat;
  d_temp : option string;
  d_close_err : option error;
}.

Definition set_files (f : gmap string bytes -> gmap string bytes) (d : Disk) : Disk :=
  {| d_files := f (d_files d); d_free := d_free d;
     d_temp := d_temp d; d_close_err := d_close_err d |}.

Definition use_free (k : nat) (d : Disk) : Disk :=
  {| d_files := d_files d; d_free := (d_free d - k)%nat;
     d_temp := d_temp d; d_close_err := d_close_err d |}.

(** ** The source tree *)

Inductive Kind :=
| Regular | Directory | Symlink | CharDevice | BlockDevice | NamedPipe
| Socket | Irregular.

(** [os.FileInfo] with the [syscall.Stat_t] behind [Sys()]. *)
Record FileInfo := {
  fi_Name : string;
  fi_Size : Z;
  fi_Kind : Kind;
  fi_Perm : Z;
  fi_ModTime : Time;
  fi_Uid : Z;
  fi_Gid : Z;
  fi_Uname : string;
  fi_Gname : string;
  fi_Atime : Time;
  fi_Ctime : Time;
  fi_Rdevmajor : Z;
  fi_Rdevminor : Z;
}.

(** A node of the source tree: what [Lstat] says about it, what opening
    and reading it gives (used when it is a regular file), and what
    listing it gives (used when it is a directory; the names come in the
    order [readDirNames] returns them).  [Broken] is a path [Lstat]
    fails on. *)
Inductive Node :=
| Entry (fi : FileInfo) (data : error + bytes)
        (dirErr : option error) (children : Children)
| Broken (err : error)
with Children :=
| NoChild
| Child (name : string) (n : Node) (rest : Children).

Scheme Node_mut := Induction for Node Sort Prop
  with Children_mut := Induction for Children Sort Prop.

(** ** The trace

    Every primitive effect appends one event at the moment it happens;
    the trace is what ordering and frame properties are stated on. *)
Inductive Event :=
| EvUcw (n : Z)
| EvCcw (n : Z)
| EvHash (p : bytes)
| EvProgress (n : Z)
| EvGzip (p : bytes)
| EvGzipClose
| EvSpool (name : string) (p : bytes)
| EvFileClose (name : string)
| EvTempFile (name : string)
| EvRemove (name : string)
| EvGet (bucket key : string)
| EvStat (bucket key : string)
| EvPut (bucket key path : string) (opts : PutObjectOptions)
| EvDel (bucket key : string).

(** ** blob.go: the data *)

Record OsFile := { f_name : string; f_closed : bool }.

Record ProgressBar := { pb_current : Z; pb_finished : bool }.

(** The outcome of a call: it returns, or it panics. *)
Inductive Res (A : Type) :=
| Ret (a : A)
| Panic (msg : string).
Arguments Ret {A} a.
Arguments Panic {A} msg.

Section WithCollaborators.

Context {compressor : Compressor} {minio : Minio} {tarfmt : TarFormat}.

(** A [*pgzip.Writer]: the compressor's state, the error it has run
    into (sticky), and whether it has been closed. *)
Record GzWriter := {
  z_st : gz_state;
  z_err : option error;
  z_closed : bool;
}.

(** [pgzip.NewWriterLevel]. *)
Definition NewWriterLevel (level : Z) : option GzWriter * option error :=
  if (level <? ConstantCompression) || (BestCompression <? level)
  then (None, Some (ErrNew "gzip: invalid compression level"))
  else (Some {| z_st := gz_init level; z_err := None; z_closed := false |}, None).

(** [LocalBlob].  [hw], the running hash, is the data it has absorbed;
    [ccw] and [ucw] are the two counters' [count] fields; the writers
    those counters wrap are fixed by [NewLocalBlob] ([ccw] wraps [File],
    [ucw] wraps [gw]), and [mw] is [MultiWriter] below. *)
Record LocalBlob := {
  IsDir : bool;
  Reference : string;
  File : OsFile;
  pw : ProgressBar;
  gw : option GzWriter;
  hw : bytes;
  ccw : Z;
  ucw : Z;
}.

Definition set_IsDir (v : bool) (b : LocalBlob) : LocalBlob :=
  {| IsDir := v; Reference := Reference b; File := File b; pw := pw b;
     gw := gw b; hw := hw b; ccw := ccw b; ucw := ucw b |}.
Definition set_File (v : OsFile) (b : LocalBlob) : LocalBlob :=
  {| IsDir := IsDir b; Reference := Reference b; File := v; pw := pw b;
     gw := gw b; hw := hw b; ccw := ccw b; ucw := ucw b |}.
Definition set_pw (v : ProgressBar) (b : LocalBlob) : LocalBlob :=
  {| IsDir := IsDir b; Reference := Reference b; File := File b; pw := v;
     gw := gw b; hw := hw b; ccw := ccw b; ucw := ucw b |}.
Definition set_gw (v : option GzWriter) (b : LocalBlob) : LocalBlob :=
  {| IsDir := IsDir b; Reference := Reference b; File := File b; pw := pw b;
     gw := v; hw := hw b; ccw := ccw b; ucw := ucw b |}.
Definition set_hw (v : bytes) (b : LocalBlob) : LocalBlob :=
  {| IsDir := IsDir b; Reference := Reference b; File := File b; pw := pw b;
     gw := gw b; hw := v; ccw := ccw b; ucw := ucw b |}.
Definition set_ccw (v : Z) (b : LocalBlob) : LocalBlob :=
  {| IsDir := IsDir b; Reference := Reference b; File := File b; pw := pw b;
     gw := gw b; hw := hw b; ccw := v; ucw := ucw b |}.
Definition set_ucw (v : Z) (b : LocalBlob) : LocalBlob :=
  {| IsDir := IsDir b; Reference := Reference b; File := File b; pw := pw b;
     gw := gw b; hw := hw b; ccw := ccw b; ucw := v |}.

(** ** blobstore.go: the data *)

Record S3Config := {
  Key : string;
  Secret : string;
  Location : string;
  Bucket : string;
  Endpoint : string;
  SSL : bool;
}.

Record S3 := {
  config : S3Config;
  s3_client : option client;
}.

(** ** tar.go: the data

    A [*tar.Writer] over the blob: the bytes the current entry still
    expects ([tw_nb]), the padding owed after it ([tw_pad]), and the
    sticky error. *)
Record TarWriter := {
  tw_nb : Z;
  tw_pad : Z;
  tw_err : option error;
}.

(** ** The world a call runs in

    [w_blob] is the cell a [*LocalBlob] points to ([None]: the pointer is
    nil); [w_tw] is the cell [tw] of [TarDir] points to; [w_s3] is the
    receiver [s3]. *)
Record World := {
  w_blob : option LocalBlob;
  w_tw : TarWriter;
  w_disk : Disk;
  w_tree : gmap string Node;
  w_s3 : S3;
  w_remote : remote;
  w_trace : list Event;
}.

Definition with_blob (v : option LocalBlob) (w : World) : World :=
  {| w_blob := v;
     w_tw := w_tw w;
     w_disk := w_disk w;
     w_tree := w_tree w;
     w_s3 := w_s3 w;
     w_remote := w_remote w;
     w_trace := w_trace w |}.
Definition with_tw (v : TarWriter) (w : World) : World :=
  {| w_blob := w_blob w;
     w_tw := v;
     w_disk := w_disk w;
     w_tree := w_tree w;
     w_s3 := w_s3 w;
     w_remote := w_remote w;
     w_trace := w_trace w |}.
Definition with_disk (v : Disk) (w : World) : World :=
  {| w_blob := w_blob w;
     w_tw := w_tw w;
     w_disk := v;
     w_tree := w_tree w;
     w_s3 := w_s3 w;
     w_remote := w_remote w;
     w_trace := w_trace w |}.
Definition with_tree (v : gmap string Node) (w : World) : World :=
  {| w_blob := w_blob w;
     w_tw := w_tw w;
     w_disk := w_disk w;
     w_tree := v;
     w_s3 := w_s3 w;
     w_remote := w_remote w;
     w_trace := w_trace w |}.
Definition with_s3 (v : S3) (w : World) : World :=
  {| w_blob := w_blob w;
     w_tw := w_tw w;
     w_disk := w_disk w;
     w_tree := w_tree w;
     w_s3 := v;
     w_remote := w_remote w;
     w_trace := w_trace w |}.
Definition with_remote (v : remote) (w : World) : World :=
  {| w_blob := w_blob w;
     w_tw := w_tw w;
     w_disk := w_disk w;
     w_tree := w_tree w;
     w_s3 := w_s3 w;
     w_remote := v;
     w_trace := w_trace w |}.
Definition with_trace (v : list Event) (w : World) : World :=
  {| w_blob := w_blob w;
     w_tw := w_tw w;
     w_disk := w_disk w;
     w_tree := w_tree w;
     w_s3 := w_s3 w;
     w_remote := w_remote w;
     w_trace := v |}.

(** ** The monad: state, and a panic that unwinds *)

Definition M (A : Type) : Type := World -> Res A * World.

Definition ret {A} (a : A) : M A := fun w => (Ret a, w).

Definition bind {A B} (m : M A) (k : A -> M B) : M B :=
  fun w =>
    match m w with
    | (Ret a, w') => k a w'
    | (Panic msg, w') => (Panic msg, w')
    end.

Definition panic {A} (msg : string) : M A := fun w => (Panic msg, w).

Definition gets {A} (f : World -> A) : M A := fun w => (Ret (f w), w).

Definition modify (f : World -> World) : M unit := fun w => (Ret tt, f w).

Definition log (e : Event) : M unit :=
  modify (fun w => with_trace (w_trace w ++ [e]) w).

(** [defer d; body]: [d] runs when [body] returns and also when it
    panics; a panic of [d] itself replaces the outcome. *)
Definition defer {A B} (d : M B) (body : M A) : M A :=
  fun w =>
    match body w with
    | (r, w') =>
        match d w' with
        | (Ret _, w'') => (r, w'')
        | (Panic msg, w'') => (Panic msg, w'')
        end
    end.


#[global] Instance M_ret : MRet M := @ret.
#[global] Instance M_bind : MBind M := fun A B k m => bind m k.

Definition nil_deref : string :=
  "runtime error: invalid memory address or nil pointer dereference".

(** [*blob]: reading through a nil pointer panics. *)
Definition deref : M LocalBlob :=
  fun w =>
    match w_blob w with
    | Some b => (Ret b, w)
    | None => (Panic nil_deref, w)
    end.

(** An assignment to a field of [*blob]. *)
Definition update (f : LocalBlob -> LocalBlob) : M unit :=
  b ← deref; modify (with_blob (Some (f b))).

(** ** [os] and [io/ioutil] *)

(** [ioutil.TempFile("", "blob")]: the new file is created empty, under
    a name that is not taken; the answer is the open file or the
    error. *)
Definition TempFile : M (error + OsFile) :=
  d ← gets w_disk;
  match d_temp d with
  | None => ret (inl (ErrNew "cannot create temporary file"))
  | Some name =>
      match d_files d !! name with
      | Some _ => ret (inl (ErrNew "file exists"))
      | None =>
          modify (fun w => with_disk (set_files (insert name []) (w_disk w)) w);;
          log (EvTempFile name);;
          ret (inr {| f_name := name; f_closed := false |})
      end
  end.

(** [blob.File.Write(p)]: appends what the device still accepts.  A
    path that has been unlinked no longer shows the bytes. *)
Definition File_Write (p : bytes) : M (Z * option error) :=
  b ← deref;
  if f_closed (File b) then ret (0, Some ErrClosed)
  else
    d ← gets w_disk;
    let k := Nat.min (length p) (d_free d) in
    let q := take k p in
    modify (fun w =>
      with_disk (use_free k
        (set_files (alter (fun c => c ++ q) (f_name (File b))) (w_disk w))) w);;
    log (EvSpool (f_name (File b)) q);;
    ret (Z.of_nat k, if (k <? length p)%nat then Some ENOSPC else None).

(** [blob.File.Close()]. *)
Definition File_Close : M (option error) :=
  b ← deref;
  if f_closed (File b) then ret (Some ErrClosed)
  else
    update (fun b => set_File {| f_name := f_name (File b);
                                 f_closed := true |} b);;
    log (EvFileClose (f_name (File b)));;
    d ← gets w_disk;
    ret (d_close_err d).

(** [blob.File.Name()]. *)
Definition File_Name : M string :=
  b ← deref; ret (f_name (File b)).

(** [os.Remove(name)]. *)
Definition os_Remove (name : string) : M (option error) :=
  d ← gets w_disk;
  match d_files d !! name with
  | None => ret (Some (ErrNew "no such file or directory"))
  | Some _ =>
      modify (fun w => with_disk (set_files (delete name) (w_disk w)) w);;
      log (EvRemove name);;
      ret None
  end.

(** ** The stages of the pipeline *)

(** [blob.ccw.Write]: [datacounter.WriterCounter.Write] over [blob.File]:
    write underneath, then add what was written to the count. *)
Definition ccw_Write (p : bytes) : M (Z * option error) :=
  '(n, err) ← File_Write p;
  update (fun b => set_ccw (AddUint64 (ccw b) n) b);;
  log (EvCcw n);;
  ret (n, err).

Definition set_gz (f : GzWriter -> GzWriter) : M unit :=
  update (fun b => set_gw (f <$> gw b) b).

Definition gz_fail (e : error) (z : GzWriter) : GzWriter :=
  {| z_st := z_st z; z_err := Some e; z_closed := z_closed z |}.

(** What [blob.gw.Write(p)] does once it holds the writer [z]: the
    chunk goes through the compressor and what the compressor emits goes
    to [blob.ccw].  An error from underneath sticks.  Writing to a closed
    compressor is outside what the package does and what pgzip
    defines. *)
Definition gw_compress (z : GzWriter) (p : bytes) : M (Z * option error) :=
  match z_err z with
  | Some e => ret (0, Some e)
  | None =>
      if z_closed z then panic "pgzip: write on closed writer"
      else
        let '(st', out) := gz_write (z_st z) p in
        set_gz (fun z => {| z_st := st'; z_err := z_err z;
                            z_closed := z_closed z |});;
        match out with
        | [] => ret (len p, None)
        | _ =>
            '(_, err) ← ccw_Write out;
            match err with
            | Some e => set_gz (gz_fail e);; ret (0, Some e)
            | None => ret (len p, None)
            end
        end
  end.

(** [blob.gw.Write(p)]: the chunk reaches the compression stage. *)
Definition gw_Write (p : bytes) : M (Z * option error) :=
  b ← deref;
  match gw b with
  | None => panic nil_deref
  | Some z => log (EvGzip p);; gw_compress z p
  end.

(** [blob.gw.Close()]: the compressor's remaining output goes to
    [blob.ccw]; closing twice is a no-op. *)
Definition gw_Close : M (option error) :=
  b ← deref;
  match gw b with
  | None => panic nil_deref
  | Some z =>
      match z_err z with
      | Some e => ret (Some e)
      | None =>
          if z_closed z then ret None
          else
            log EvGzipClose;;
            set_gz (fun z => {| z_st := z_st z; z_err := z_err z;
                                z_closed := true |});;
            '(_, err) ← ccw_Write (gz_close (z_st z));
            match err with
            | Some e => set_gz (gz_fail e);; ret (Some e)
            | None => ret None
            end
      end
  end.

(** [blob.ucw.Write]: [datacounter.WriterCounter.Write] over [blob.gw]. *)
Definition ucw_Write (p : bytes) : M (Z * option error) :=
  '(n, err) ← gw_Write p;
  update (fun b => set_ucw (AddUint64 (ucw b) n) b);;
  log (EvUcw n);;
  ret (n, err).

(** [blob.hw.Write]: a hash never fails. *)
Definition hw_Write (p : bytes) : M (Z * option error) :=
  update (fun b => set_hw (hw b ++ p) b);;
  log (EvHash p);;
  ret (len p, None).

(** [blob.pw.Write]: the progress bar advances by [len(p)]. *)
Definition pw_Write (p : bytes) : M (Z * option error) :=
  update (fun b => set_pw {| pb_current := pb_current (pw b) + len p;
                             pb_finished := pb_finished (pw b) |} b);;
  log (EvProgress (len p));;
  ret (len p, None).

Definition pw_Finish : M unit :=
  update (fun b => set_pw {| pb_current := pb_current (pw b);
                             pb_finished := true |} b).

(** [io.MultiWriter(writers...)]: each writer in turn; the first error
    or short write stops the round. *)
Fixpoint MultiWriter (writers : list (bytes -> M (Z * option error)))
    (p : bytes) : M (Z * option error) :=
  match writers with
  | [] => ret (len p, None)
  | w :: ws =>
      '(n, err) ← w p;
      match err with
      | Some e => ret (n, Some e)
      | None =>
          if n =? len p then MultiWriter ws p
          else ret (n, Some ErrShortWrite)
      end
  end.

(** ** blob.go *)

(** [blob.mw], as wired by [NewLocalBlob]. *)
Definition mw : bytes -> M (Z * option error) :=
  MultiWriter [ucw_Write; hw_Write; pw_Write].

(** [NewLocalBlob]: on success the blob is allocated (the cell is
    filled) and the error is nil; on failure the result is nil and the
    cell is left alone. *)
Definition NewLocalBlob : M (option error) :=
  res ← TempFile;
  match res with
  | inl err => ret (Some (Wrap err "Blob: could not create temporary file"))
  | inr file =>
      modify (with_blob (Some
        {| IsDir := false;
           Reference := "";
           File := file;
           pw := {| pb_current := 0; pb_finished := false |};
           ccw := 0;
           gw := fst (NewWriterLevel BestCompression);
           ucw := 0;
           hw := [] |}));;
      ret None
  end.

(** [LocalBlob.Close]. *)
Definition Close : M (option error) :=
  pw_Finish;;
  gw_Close;;
  File_Close.

(** [LocalBlob.Size], [UncompressedSize], [Hash]. *)
Definition Size_of (b : LocalBlob) : Z := int64 (ccw b).
Definition UncompressedSize_of (b : LocalBlob) : Z := int64 (ucw b).
Definition Hash_of (b : LocalBlob) : bytes := sha256.Sum256 (hw b).

Definition Size : M Z := b ← deref; ret (Size_of b).
Definition UncompressedSize : M Z := b ← deref; ret (UncompressedSize_of b).
Definition Hash : M bytes := b ← deref; ret (Hash_of b).

(** [LocalBlob.Write]. *)
Definition Write (p : bytes) : M (Z * option error) := mw p.

(** An [io.Reader], by what its successive [Read] calls answer: the
    bytes delivered and the error reported with them.  Once the list is
    used up the reader answers [io.EOF]. *)
Definition Reader : Type := list (bytes * option error).

(** [io.Copy(blob, fr)], for a reader that has no [WriteTo]: every
    piece read goes to [blob.Write]; a write error or a short write
    ends the copy, and so does the first error of the reader, which is
    reported unless it is [io.EOF]. *)
Fixpoint Copy (fr : Reader) (written : Z) : M (Z * option error) :=
  match fr with
  | [] => ret (written, None)
  | (p, er) :: fr' =>
      '(written, stop) ←
        (if 0 <? len p then
           '(nw, ew) ← Write p;
           let written := if 0 <? nw then written + nw else written in
           match ew with
           | Some e => ret (written, Some e)
           | None =>
               if nw =? len p then ret (written, None)
               else ret (written, Some ErrShortWrite)
           end
         else ret (written, None));
      match stop with
      | Some e => ret (written, Some e)
      | None =>
          match er with
          | Some e => ret (written, if error_eqb e EOF then None else Some e)
          | None => Copy fr' written
          end
      end
  end.

(** [ReaderToBlob(fr)].  The first component of the result tells
    whether the pointer returned is the blob ([true]) or nil.  When
    [NewLocalBlob] fails, [blob] is nil. *)
Definition ReaderToBlob (fr : Reader) : M (bool * option error) :=
  err ← NewLocalBlob;
  match err with
  | Some e =>
      modify (with_blob None);;
      Close;;
      name ← File_Name;
      os_Remove name;;
      ret (false, Some (Wrap e "Could not create blob"))
  | None =>
      defer Close
        ('(_, err) ← Copy fr 0;
         match err with
         | Some e =>
             name ← File_Name;
             os_Remove name;;
             ret (false, Some (Wrap e "Error while processing"))
         | None =>
             Close;;
             ret (true, None)
         end)
  end.


(** ** archive/tar, path/filepath, io: what tar.go calls *)

Definition ErrWriteTooLong : error := ErrNew "archive/tar: write too long".
Definition ErrWriteAfterClose : error := ErrNew "archive/tar: write after close".

Definition zeroBlock (n : Z) : bytes := repeat Byte.x00 (Z.to_nat n).

(** [blockPadding]: what is missing to the next multiple of 512. *)
Definition blockPadding (size : Z) : Z := (- size) mod 512.

Definition IsDir_fi (fi : FileInfo) : bool :=
  match fi_Kind fi with Directory => true | _ => false end.

Definition IsRegular (fi : FileInfo) : bool :=
  match fi_Kind fi with Regular => true | _ => false end.

(** [tar.FileInfoHeader(fi, link)], with the fields the unix [sysStat]
    hook adds. *)
Definition FileInfoHeader (fi : FileInfo) (link : string)
  : option Header * option error :=
  let mk (flag : Typeflag) (name linkname : string) (size : Z) (dev : bool) :=
    (Some {| h_Typeflag := flag;
             h_Name := name;
             h_Linkname := linkname;
             h_Size := size;
             h_Mode := fi_Perm fi;
             h_Uid := fi_Uid fi;
             h_Gid := fi_Gid fi;
             h_Uname := fi_Uname fi;
             h_Gname := fi_Gname fi;
             h_ModTime := fi_ModTime fi;
             h_AccessTime := fi_Atime fi;
             h_ChangeTime := fi_Ctime fi;
             h_Devmajor := if dev then fi_Rdevmajor fi else 0;
             h_Devminor := if dev then fi_Rdevminor fi else 0;
             h_Format := FormatUnknown |}, None) in
  match fi_Kind fi with
  | Regular => mk TypeReg (fi_Name fi) "" (fi_Size fi) false
  | Directory => mk TypeDir (fi_Name fi ++ "/")%string "" 0 false
  | Symlink => mk TypeSymlink (fi_Name fi) link 0 false
  | CharDevice => mk TypeChar (fi_Name fi) "" 0 true
  | BlockDevice => mk TypeBlock (fi_Name fi) "" 0 true
  | NamedPipe => mk TypeFifo (fi_Name fi) "" 0 false
  | Socket => (None, Some (ErrNew "archive/tar: sockets not supported"))
  | Irregular => (None, Some (ErrNew "archive/tar: unknown file mode"))
  end.

Definition set_ModTime (t : Time) (h : Header) : Header :=
  {| h_Typeflag := h_Typeflag h; h_Name := h_Name h;
     h_Linkname := h_Linkname h; h_Size := h_Size h; h_Mode := h_Mode h;
     h_Uid := h_Uid h; h_Gid := h_Gid h; h_Uname := h_Uname h;
     h_Gname := h_Gname h; h_ModTime := t;
     h_AccessTime := h_AccessTime h; h_ChangeTime := h_ChangeTime h;
     h_Devmajor := h_Devmajor h; h_Devminor := h_Devminor h;
     h_Format := h_Format h |}.

Definition set_Name (n : string) (h : Header) : Header :=
  {| h_Typeflag := h_Typeflag h; h_Name := n;
     h_Linkname := h_Linkname h; h_Size := h_Size h; h_Mode := h_Mode h;
     h_Uid := h_Uid h; h_Gid := h_Gid h; h_Uname := h_Uname h;
     h_Gname := h_Gname h; h_ModTime := h_ModTime h;
     h_AccessTime := h_AccessTime h; h_ChangeTime := h_ChangeTime h;
     h_Devmajor := h_Devmajor h; h_Devminor := h_Devminor h;
     h_Format := h_Format h |}.

(** [t.Round(time.Second)]. *)
Definition Round_Second (t : Time) : Time :=
  (t + 500000000) / 1000000000 * 1000000000.

(** What [WriteHeader] does to its copy of the header when no format
    was asked for: the modification time is rounded to the second, the
    access and change times are dropped. *)
Definition normalise (h : Header) : Header :=
  match h_Format h with
  | FormatUnknown =>
      {| h_Typeflag := h_Typeflag h; h_Name := h_Name h;
         h_Linkname := h_Linkname h; h_Size := h_Size h; h_Mode := h_Mode h;
         h_Uid := h_Uid h; h_Gid := h_Gid h; h_Uname := h_Uname h;
         h_Gname := h_Gname h; h_ModTime := Round_Second (h_ModTime h);
         h_AccessTime := zeroTime; h_ChangeTime := zeroTime;
         h_Devmajor := h_Devmajor h; h_Devminor := h_Devminor h;
         h_Format := h_Format h |}
  | _ => h
  end.

Definition isHeaderOnlyType (flag : Typeflag) : bool :=
  match flag with TypeReg => false | _ => true end.

Definition set_tw (f : TarWriter -> TarWriter) : M unit :=
  modify (fun w => with_tw (f (w_tw w)) w).

Definition tw_fail (e : error) (tw : TarWriter) : TarWriter :=
  {| tw_nb := tw_nb tw; tw_pad := tw_pad tw; tw_err := Some e |}.

(** [tar.NewWriter(writer)]. *)
Definition tar_NewWriter : M unit :=
  set_tw (fun _ => {| tw_nb := 0; tw_pad := 0; tw_err := None |}).

(** [tw.Flush()]: the entry must be complete; its padding is written. *)
Definition tw_Flush : M (option error) :=
  tw ← gets w_tw;
  match tw_err tw with
  | Some e => ret (Some e)
  | None =>
      if 0 <? tw_nb tw
      then ret (Some (ErrNew "archive/tar: missed writing bytes"))
      else
        '(_, err) ← Write (zeroBlock (tw_pad tw));
        match err with
        | Some e => set_tw (tw_fail e);; ret (Some e)
        | None =>
            set_tw (fun tw => {| tw_nb := tw_nb tw; tw_pad := 0;
                                 tw_err := tw_err tw |});;
            ret None
        end
  end.

(** [tw.WriteHeader(hdr)]. *)
Definition tw_WriteHeader (hdr : Header) : M (option error) :=
  err ← tw_Flush;
  match err with
  | Some e => ret (Some e)
  | None =>
      let hdr := normalise hdr in
      match tar_encode hdr with
      | inl e => ret (Some e)
      | inr blk =>
          err ← tw_Flush;
          match err with
          | Some e => set_tw (tw_fail e);; ret (Some e)
          | None =>
              '(_, err) ← Write blk;
              match err with
              | Some e => set_tw (tw_fail e);; ret (Some e)
              | None =>
                  let size :=
                    if isHeaderOnlyType (h_Typeflag hdr) then 0 else h_Size hdr in
                  set_tw (fun tw => {| tw_nb := size;
                                       tw_pad := blockPadding size;
                                       tw_err := None |});;
                  ret None
              end
          end
      end
  end.

(** [tw.Write(b)]: at most what the entry still expects. *)
Definition tw_Write (b : bytes) : M (Z * option error) :=
  tw ← gets w_tw;
  match tw_err tw with
  | Some e => ret (0, Some e)
  | None =>
      let overwrite := tw_nb tw <? len b in
      let b := if overwrite then take (Z.to_nat (tw_nb tw)) b else b in
      '(n, err) ← (if 0 <? len b then Write b else ret (0, None));
      set_tw (fun tw => {| tw_nb := tw_nb tw - n; tw_pad := tw_pad tw;
                           tw_err := tw_err tw |});;
      match err with
      | Some e =>
          (if error_eqb e ErrWriteTooLong then ret tt else set_tw (tw_fail e));;
          ret (n, Some e)
      | None =>
          if overwrite then ret (n, Some ErrWriteTooLong) else ret (n, None)
      end
  end.

(** [tw.Close()]: flush, then the two zero blocks of the trailer. *)
Definition tw_Close : M (option error) :=
  tw ← gets w_tw;
  match tw_err tw with
  | Some e =>
      if error_eqb e ErrWriteAfterClose then ret None else ret (Some e)
  | None =>
      err ← tw_Flush;
      err ← match err with
            | Some e => ret (Some e)
            | None =>
                '(_, err) ← Write (zeroBlock 512);
                match err with
                | Some e => ret (Some e)
                | None => '(_, err) ← Write (zeroBlock 512); ret err
                end
            end;
      set_tw (tw_fail ErrWriteAfterClose);;
      ret err
  end.

(** [io.CopyBuffer(tw, f, copyBuffer)] on a file holding [data]: the
    file is read 32 KiB at a time and each piece is written to [tw]. *)
Definition copyBufferSize : nat := Z.to_nat (32 * 1024).

Fixpoint copyLoop (fuel : nat) (data : bytes) (written : Z)
  : M (Z * option error) :=
  match fuel with
  | O => ret (written, None)
  | S fuel' =>
      match data with
      | [] => ret (written, None)
      | _ =>
          let chunk := take copyBufferSize data in
          '(nw, ew) ← tw_Write chunk;
          let written' := if 0 <? nw then written + nw else written in
          match ew with
          | Some e => ret (written', Some e)
          | None =>
              if nw =? len chunk
              then copyLoop fuel' (drop copyBufferSize data) written'
              else ret (written', Some ErrShortWrite)
          end
      end
  end.

Definition CopyBuffer (data : bytes) : M (Z * option error) :=
  copyLoop (length data) data 0.

(** [filepath.Separator], and [filepath.Join(path, name)] as
    [filepath.Walk] uses it to name the entries of a directory: the
    joined path is cleaned. *)
Definition Separator : string := "/".

Definition Join (path name : string) : string := filepath_Join path name.

(** ** tar.go *)

(** The function literal [TarDir] hands to [filepath.Walk].  [opened] is
    what [os.Open(file)] and reading it to the end give. *)
Definition walkFn (src : string) (file : string) (fi : option FileInfo)
    (opened : error + bytes) (err : option error) : M (option error) :=
  match err, fi with
  | Some e, _ => ret (Some e)
  | None, None => panic nil_deref
  | None, Some fi =>
      match FileInfoHeader fi (fi_Name fi) with
      | (_, Some e) => ret (Some e)
      | (None, None) => panic nil_deref
      | (Some header, None) =>
          let header := set_ModTime zeroTime header in
          let header :=
            set_Name (TrimPrefix (Replace_with_empty file src) Separator) header in
          err ← tw_WriteHeader header;
          match err with
          | Some e => ret (Some e)
          | None =>
              if negb (IsRegular fi) then ret None
              else
                match opened with
                | inl e => ret (Some e)
                | inr data =>
                    '(_, err) ← CopyBuffer data;
                    match err with
                    | Some e => ret (Some e)
                    | None => ret None
                    end
                end
          end
      end
  end.

(** [filepath.Walk]'s [walk], specialised to [walkFn] (which never
    answers [SkipDir]). *)
Fixpoint walk (src path : string) (n : Node) : M (option error) :=
  match n with
  | Broken e => walkFn src path None (inl e) (Some e)
  | Entry fi data dirErr children =>
      if negb (IsDir_fi fi) then walkFn src path (Some fi) data None
      else
        err1 ← walkFn src path (Some fi) data dirErr;
        match dirErr, err1 with
        | None, None => walk_children src path children
        | _, _ => ret err1
        end
  end
with walk_children (src path : string) (cs : Children) : M (option error) :=
  match cs with
  | NoChild => ret None
  | Child name n rest =>
      err ← walk src (Join path name) n;
      match err with
      | Some e => ret (Some e)
      | None => walk_children src path rest
      end
  end.

(** [TarDir(src, blob)]. *)
Definition TarDir (src : string) : M (option error) :=
  root ← gets (fun w => w_tree w !! src);
  match root with
  | None =>
      ret (Some (ErrNew "Unable to tar files - no such file or directory"))
  | Some (Broken e) =>
      ret (Some (ErrNew ("Unable to tar files - " ++ Error e)))
  | Some n =>
      tar_NewWriter;;
      defer tw_Close (walk src src n)
  end.

(** A [*zip.File] of the archive [zip.NewReader] has opened: the name,
    size, mode and time of its header, and what [Open()] and reading to
    the end give. *)
Record ZipFile := {
  zf_Name : string;
  zf_Size : Z;
  zf_Kind : Kind;
  zf_Perm : Z;
  zf_Modified : Time;
  zf_Open : error + bytes;
}.

(** [f.FileInfo()]: the name is the last element of the path; there is
    no [syscall.Stat_t] behind [Sys()], so owner, device and the other
    times stay zero. *)
Definition zf_FileInfo (f : ZipFile) : FileInfo :=
  {| fi_Name := path_Base (zf_Name f);
     fi_Size := zf_Size f;
     fi_Kind := zf_Kind f;
     fi_Perm := zf_Perm f;
     fi_ModTime := zf_Modified f;
     fi_Uid := 0; fi_Gid := 0; fi_Uname := ""; fi_Gname := "";
     fi_Atime := zeroTime; fi_Ctime := zeroTime;
     fi_Rdevmajor := 0; fi_Rdevminor := 0 |}.

(** The header [TarZip] writes for [f]. *)
Definition TarZip_header (f : ZipFile) : option Header * option error :=
  let fi := zf_FileInfo f in
  match FileInfoHeader fi (fi_Name fi) with
  | (Some header, None) =>
      let header := set_ModTime zeroTime header in
      (Some (set_Name (TrimPrefix (fi_Name fi) Separator) header), None)
  | r => r
  end.

(** One round of the loop of [TarZip]: [Some r] when the round ends in
    [return r], [None] when the loop goes on. *)
Definition TarZip_round (f : ZipFile) : M (option (option error)) :=
  match TarZip_header f with
  | (_, Some e) => ret (Some (Some e))
  | (None, None) => panic nil_deref
  | (Some header, None) =>
      err ← tw_WriteHeader header;
      match err with
      | Some e => ret (Some (Some e))
      | None =>
          if negb (IsRegular (zf_FileInfo f)) then ret (Some None)
          else
            match zf_Open f with
            | inl e => ret (Some (Some e))
            | inr data =>
                '(_, err) ← CopyBuffer data;
                match err with
                | Some e => ret (Some (Some e))
                | None => ret None
                end
            end
      end
  end.

Fixpoint TarZip_range (files : list ZipFile) : M (option (option error)) :=
  match files with
  | [] => ret None
  | f :: files' =>
      r ← TarZip_round f;
      match r with
      | Some e => ret (Some e)
      | None => TarZip_range files'
      end
  end.

(** [TarZip(reader, size, blob)]; [zr] is what [zip.NewReader(reader,
    size)] gives. *)
Definition TarZip (zr : error + list ZipFile) : M (option error) :=
  match zr with
  | inl err => ret (Some (Wrap err "Could not open zip reader"))
  | inr files =>
      tar_NewWriter;;
      defer tw_Close
        (r ← TarZip_range files;
         match r with
         | Some e => ret e
         | None => tw_Close
         end)
  end.

(** ** blobstore.go *)

(** [NewS3(config)]. *)
Definition NewS3 (cfg : S3Config) : S3 :=
  {| config := cfg; s3_client := None |}.

(** [fmt.Sprintf("blob/%x.gz", h)]. *)
Definition Sprintf_blob_x_gz (h : bytes) : string :=
  ("blob/" ++ fmt_x h ++ ".gz")%string.

(** [s3.getClient()]. *)
Definition getClient : M client :=
  s3 ← gets w_s3;
  match s3_client s3 with
  | Some c => ret c
  | None =>
      match minio_New (Endpoint (config s3)) (Key (config s3))
                      (Secret (config s3)) (SSL (config s3)) with
      | inl err => panic (Error err)
      | inr c =>
          modify (fun w => with_s3 {| config := config (w_s3 w);
                                      s3_client := Some c |} w);;
          ret c
      end
  end.

Definition Bucket_of : M string := gets (fun w => Bucket (config (w_s3 w))).

(** The four calls on the client, each leaving its mark on the trace. *)
Definition client_GetObject (c : client) (bucket key : string) : M (option error) :=
  log (EvGet bucket key);;
  r ← gets w_remote;
  let '(r', err) := mc_GetObject c r bucket key in
  modify (with_remote r');;
  ret err.

Definition object_Stat (c : client) (bucket key : string) : M (error + ObjectInfo) :=
  log (EvStat bucket key);;
  r ← gets w_remote;
  let '(r', res) := mc_Stat c r bucket key in
  modify (with_remote r');;
  ret res.

Definition client_FPutObject (c : client) (bucket key path : string)
    (opts : PutObjectOptions) : M (Z * option error) :=
  log (EvPut bucket key path opts);;
  r ← gets w_remote;
  content ← gets (fun w => d_files (w_disk w) !! path);
  let '(r', res) := mc_FPutObject c r bucket key content opts in
  modify (with_remote r');;
  ret res.

Definition client_RemoveObject (c : client) (bucket key : string) : M (option error) :=
  log (EvDel bucket key);;
  r ← gets w_remote;
  let '(r', err) := mc_RemoveObject c r bucket key in
  modify (with_remote r');;
  ret err.

(** [s3.CheckDuplicate(blob)]. *)
Definition CheckDuplicate : M bool :=
  h ← Hash;
  let remoteFilename := Sprintf_blob_x_gz h in
  client ← getClient;
  bucket ← Bucket_of;
  err ← client_GetObject client bucket remoteFilename;
  match err with
  | Some _ => ret false
  | None =>
      res ← object_Stat client bucket remoteFilename;
      match res with
      | inl _ => ret false
      | inr info =>
          size ← Size;
          if negb (size =? oi_Size info) then ret false
          else ret true
      end
  end.

(** [s3.UploadBlob(blob)].  The progress bar of the upload is local to
    the call and leaves nothing behind; it is not modelled. *)
Definition UploadBlob : M (option error) :=
  h ← Hash;
  let remoteFilename := Sprintf_blob_x_gz h in
  _ ← Size;
  client ← getClient;
  bucket ← Bucket_of;
  name ← File_Name;
  usize ← UncompressedSize;
  b ← deref;
  '(_, err) ← client_FPutObject client bucket remoteFilename name
      {| ContentType := "application/gzip";
         UserMetadata :=
           [ ("Uncompressed-Size", FormatInt usize);
             ("Reference-Name", Reference b);
             ("Is-Dir", FormatBool (IsDir b)) ] |};
  match err with
  | Some e =>
      client_RemoveObject client bucket remoteFilename;;
      ret (Some (Wrap e "Error while uploading blob"))
  | None => ret None
  end.

(** The part of [UploadDir] that runs once both deferred calls are in
    place. *)
Definition UploadDir_body (src : string) : M (option bytes * option error) :=
  err ← TarDir src;
  match err with
  | Some e => ret (None, Some (Wrap e "Failed to tar dir"))
  | None =>
      err ← Close;
      match err with
      | Some e => ret (None, Some (Wrap e "Failed to flush blob dir"))
      | None =>
          dup ← CheckDuplicate;
          if (dup : bool) then h ← Hash; ret (Some h, None)
          else
            err ← UploadBlob;
            match err with
            | Some e => h ← Hash; ret (Some h, Some (Wrap e "Failed to upload dir"))
            | None => h ← Hash; ret (Some h, None)
            end
      end
  end.

(** [s3.UploadDir(src)]. *)
Definition UploadDir (src : string) : M (option bytes * option error) :=
  err ← NewLocalBlob;
  match err with
  | Some e => ret (None, Some (Wrap e "Failed to prepare dir blob"))
  | None =>
      update (set_IsDir true);;
      name ← File_Name;
      defer (os_Remove name) (defer Close (UploadDir_body src))
  end.

End WithCollaborators.


(* ===================================================================== *)
(** * tar.go: [Untargz]

    [Untargz] shares nothing with the blob pipeline: it reads an archive
    and asks the file system to create what the archive lists.  What the
    file system answers is left open; every call is recorded. *)
(* ===================================================================== *)

Class FileSystem := {
  fs_state : Type;
  handle : Type;
  os_Stat : fs_state -> string -> option error;
  os_MkdirAll : fs_state -> string -> Z -> fs_state * option error;
  os_OpenFile : fs_state -> string -> Z -> Z -> fs_state * (error + handle);
  f_Write : fs_state -> handle -> bytes -> fs_state * (Z * option error);
  f_Close : fs_state -> handle -> fs_state * option error;
  os_Symlink : fs_state -> string -> string -> fs_state * option error;
}.

Inductive Call :=
| CallStat (name : string)
| CallMkdirAll (name : string) (perm : Z)
| CallOpenFile (name : string) (flag perm : Z)
| CallWrite (name : string) (p : bytes)
| CallClose (name : string)
| CallSymlink (oldname newname : string)
| CallLogPrint (msg : string).

(** What [tr.Next()] answers, one item per call, [io.EOF] once the list
    is used up: an error, a nil header, or a header together with what
    reading the entry delivers (its content, and the error the reading
    ends with, if any). *)
Inductive TarItem :=
| NextFails (e : error)
| NextNil
| NextEntry (h : Header) (content : bytes) (rerr : option error).

Section Untar.

Context {filesystem : FileSystem}.

Record Dest := { x_fs : fs_state; x_calls : list Call }.

Definition called (c : Call) (x : Dest) : Dest :=
  {| x_fs := x_fs x; x_calls := x_calls x ++ [c] |}.

Definition moved (s : fs_state) (x : Dest) : Dest :=
  {| x_fs := s; x_calls := x_calls x |}.

(** [io.CopyBuffer(f, tr, copyBuffer)]: the content goes to [f] 32 KiB
    at a time; when every write went through, the error the reading
    ends with is the result, unless it is [io.EOF]. *)
Fixpoint copyOut (fuel : nat) (f : handle) (name : string) (content : bytes)
    (rerr : option error) (x : Dest) : option error * Dest :=
  match fuel, content with
  | S fuel', _ :: _ =>
      let chunk := take copyBufferSize content in
      let x := called (CallWrite name chunk) x in
      let '(s, (nw, ew)) := f_Write (x_fs x) f chunk in
      let x := moved s x in
      match ew with
      | Some e => (Some e, x)
      | None =>
          if nw =? len chunk
          then copyOut fuel' f name (drop copyBufferSize content) rerr x
          else (Some ErrShortWrite, x)
      end
  | _, _ =>
      (match rerr with
       | Some e => if error_eqb e EOF then None else Some e
       | None => None
       end, x)
  end.

(** The body of the loop once the header is there: [Some e] when it
    ends in [return e], [None] when the loop goes on. *)
Definition extract (dst : string) (h : Header) (content : bytes)
    (rerr : option error) (x : Dest) : option error * Dest :=
  let target := filepath_Join dst (h_Name h) in
  match h_Typeflag h with
  | TypeDir =>
      let x := called (CallStat target) x in
      match os_Stat (x_fs x) target with
      | None => (None, x)
      | Some _ =>
          let x := called (CallMkdirAll target rwxr_xr_x) x in
          let '(s, err) := os_MkdirAll (x_fs x) target rwxr_xr_x in
          (err, moved s x)
      end
  | TypeReg =>
      let flag := Z.lor O_CREATE O_RDWR in
      let x := called (CallOpenFile target flag (FileMode (h_Mode h))) x in
      let '(s, res) := os_OpenFile (x_fs x) target flag (FileMode (h_Mode h)) in
      let x := moved s x in
      match res with
      | inl e => (Some e, x)
      | inr f =>
          match copyOut (length content) f target content rerr x with
          | (Some e, x) => (Some e, x)
          | (None, x) =>
              let x := called (CallClose target) x in
              (None, moved (fst (f_Close (x_fs x) f)) x)
          end
      end
  | TypeSymlink =>
      let x := called (CallSymlink (h_Linkname h) target) x in
      let '(s, err) := os_Symlink (x_fs x) (h_Linkname h) target in
      (err, moved s x)
  | _ => (None, called (CallLogPrint "Tar: ignoring unknown tar header") x)
  end.

(** The loop of [Untargz]: [Some r] when it ends in [return r], [None]
    when the items are used up. *)
Fixpoint Untargz_loop (dst : string) (items : list TarItem) (x : Dest)
  : option (option error) * Dest :=
  match items with
  | [] => (None, x)
  | NextFails e :: _ =>
      (Some (if error_eqb e EOF then None else Some e), x)
  | NextNil :: items' => Untargz_loop dst items' x
  | NextEntry h content rerr :: items' =>
      match extract dst h content rerr x with
      | (Some e, x) => (Some (Some e), x)
      | (None, x) => Untargz_loop dst items' x
      end
  end.

(** [Untargz(dst, r)]; [archive] is what [pgzip.NewReader(r)] gives and,
    behind it, what the tar reader answers. *)
Definition Untargz (dst : string) (archive : error + list TarItem) (x : Dest)
  : option error * Dest :=
  match archive with
  | inl err => (Some err, x)
  | inr items =>
      match Untargz_loop dst items x with
      | (Some r, x) => (r, x)
      | (None, x) => (None, x)
      end
  end.

End Untar.

(* ===================================================================== *)
(** * Concrete collaborators

    One instance of each collaborator, small enough to run: a compressor
    that buffers and frames its input, an in-memory object store that
    can be told to fail, and a one-block tar header. *)
(* ===================================================================== *)

Module Sample.

(** A framing compressor: a two-byte magic before the first output,
    input held back until four bytes are there, and on close the rest
    followed by a one-byte length. Level 0 holds nothing back. *)
Record FrameState := {
  fs_level : Z;
  fs_header : bool;
  fs_held : bytes;
  fs_total : Z;
}.

Definition frame_magic : bytes := [Byte.x1f; Byte.x8b].

Definition frame_write (st : FrameState) (p : bytes) : FrameState * bytes :=
  let held := fs_held st ++ p in
  let total := fs_total st + len p in
  if (fs_level st =? 0) || (4 <=? len held)
  then ({| fs_level := fs_level st; fs_header := true; fs_held := [];
           fs_total := total |},
        (if fs_header st then [] else frame_magic) ++ held)
  else ({| fs_level := fs_level st; fs_header := fs_header st; fs_held := held;
           fs_total := total |}, []).

Definition frame_close (st : FrameState) : bytes :=
  (if fs_header st then [] else frame_magic) ++ fs_held st
    ++ [byte_of_Z (fs_total st)].

#[global] Instance frame : Compressor := {|
  gz_state := FrameState;
  gz_init := fun level => {| fs_level := level; fs_header := false;
                             fs_held := []; fs_total := 0 |};
  gz_write := frame_write;
  gz_close := frame_close;
|}.

(** An object store in memory.  [ms_put_fails] makes an upload stop half
    way, leaving a partial object; [ms_stat_fails] and [ms_del_fails]
    make the other calls fail. *)
Record MemStore := {
  ms_objects : gmap string bytes;
  ms_put_fails : bool;
  ms_stat_fails : bool;
  ms_del_fails : bool;
}.

Definition ms_with (f : gmap string bytes -> gmap string bytes) (m : MemStore)
  : MemStore :=
  {| ms_objects := f (ms_objects m); ms_put_fails := ms_put_fails m;
     ms_stat_fails := ms_stat_fails m; ms_del_fails := ms_del_fails m |}.

Definition ms_path (bucket key : string) : string :=
  (bucket ++ "/" ++ key)%string.

#[global] Instance memstore : Minio := {|
  client := string;
  remote := MemStore;
  minio_New := fun endpoint _ _ _ =>
    if String.eqb endpoint "" then inl (ErrNew "Endpoint:  does not follow ip address or domain name standards.")
    else inr endpoint;
  mc_GetObject := fun _ m bucket key =>
    if String.eqb bucket "" then (m, Some (ErrNew "Bucket name cannot be empty"))
    else (m, None);
  mc_Stat := fun _ m bucket key =>
    if ms_stat_fails m then (m, inl (ErrNew "connection reset by peer"))
    else match ms_objects m !! ms_path bucket key with
         | Some c => (m, inr {| oi_Key := key; oi_Size := len c |})
         | None => (m, inl (ErrNew "The specified key does not exist."))
         end;
  mc_FPutObject := fun _ m bucket key content _ =>
    match content with
    | None => (m, (0, Some (ErrNew "no such file or directory")))
    | Some c =>
        if ms_put_fails m
        then let part := take (length c / 2) c in
             (ms_with (insert (ms_path bucket key) part) m,
              (len part, Some (ErrNew "connection reset by peer")))
        else (ms_with (insert (ms_path bucket key) c) m, (len c, None))
    end;
  mc_RemoveObject := fun _ m bucket key =>
    if ms_del_fails m then (m, Some (ErrNew "connection reset by peer"))
    else (ms_with (delete (ms_path bucket key)) m, None);
|}.

(** A one-block header: the name, the type, the size and the three
    times, zero-filled to 512 bytes. Names over 100 bytes do not fit. *)
Definition flag_byte (f : Typeflag) : Byte.byte :=
  match f with
  | TypeReg => Byte.x30 | TypeDir => Byte.x35 | TypeSymlink => Byte.x32
  | TypeChar => Byte.x33 | TypeBlock => Byte.x34 | TypeFifo => Byte.x36
  end.

Definition block_encode (h : Header) : error + bytes :=
  let name := list_byte_of_string (h_Name h) in
  if (100 <? length name)%nat then inl (ErrNew "archive/tar: cannot encode header")
  else
    let fields :=
      name ++ [Byte.x00; flag_byte (h_Typeflag h);
               byte_of_Z (h_Size h); byte_of_Z (h_Mode h);
               byte_of_Z (h_ModTime h); byte_of_Z (h_AccessTime h);
               byte_of_Z (h_ChangeTime h)] in
    inr (fields ++ repeat Byte.x00 (512 - length fields)).

#[global] Instance oneblock : TarFormat := {| tar_encode := block_encode |}.

(** The source tree [d/] holding the ten-byte file [a.txt]. *)
Definition info (name : string) (kind : Kind) (size : Z) (mtime atime : Time)
  : FileInfo :=
  {| fi_Name := name; fi_Size := size; fi_Kind := kind; fi_Perm := 420;
     fi_ModTime := mtime; fi_Uid := 1000; fi_Gid := 1000;
     fi_Uname := "user"; fi_Gname := "user";
     fi_Atime := atime; fi_Ctime := mtime;
     fi_Rdevmajor := 0; fi_Rdevminor := 0 |}.

Definition helloworld : bytes := list_byte_of_string "helloworld".

Definition tree_d (mtime atime : Time) : Node :=
  Entry (info "d" Directory 4096 mtime atime) (inl (ErrNew "is a directory")) None
    (Child "a.txt"
       (Entry (info "a.txt" Regular 10 mtime atime) (inr helloworld) None NoChild)
       NoChild).

Definition cfg : S3Config :=
  {| Key := "key"; Secret := "secret"; Location := "us-east-1";
     Bucket := "bucket"; Endpoint := "s3.example.org"; SSL := true |}.

Definition store0 : MemStore :=
  {| ms_objects := ∅; ms_put_fails := false; ms_stat_fails := false;
     ms_del_fails := false |}.

Definition disk0 (free : nat) : Disk :=
  {| d_files := ∅; d_free := free; d_temp := Some "/tmp/blob042";
     d_close_err := None |}.

(** A world with [free] bytes of temporary storage, the tree [d/] and
    the store [m]. *)
Definition world (free : nat) (mtime atime : Time) (m : MemStore) : World :=
  {| w_blob := None;
     w_tw := {| tw_nb := 0; tw_pad := 0; tw_err := None |};
     w_disk := disk0 free;
     w_tree := {[ "d" := tree_d mtime atime ]};
     w_s3 := {| config := cfg; s3_client := None |};
     w_remote := m;
     w_trace := [] |}.

(** Sample runs. *)
Definition hello : bytes := list_byte_of_string "hello".
Definition gopher : bytes := list_byte_of_string "gopher".

(** A fresh blob in a world with room for 100 bytes. *)
Definition fresh : World := snd (NewLocalBlob (world 100 0 0 store0)).

(** [UploadDir "d"] up to the duplicate check: blob created, [d/]
    packed, blob closed. *)
Definition before_Close (w0 : World) : World :=
  snd (TarDir "d" (snd (update (set_IsDir true) (snd (NewLocalBlob w0))))).

Definition packed (w0 : World) : World := snd (Close (before_Close w0)).

(** The store once [d/] has been uploaded. *)
Definition uploaded : MemStore :=
  w_remote (snd (UploadDir "d" (world 5000 7 9 store0))).

Definition flaky : MemStore :=
  {| ms_objects := ∅; ms_put_fails := true; ms_stat_fails := false;
     ms_del_fails := true |}.

Definition no_blob : LocalBlob :=
  {| IsDir := false; Reference := ""; File := {| f_name := ""; f_closed := true |};
     pw := {| pb_current := 0; pb_finished := true |}; gw := None; hw := [];
     ccw := 0; ucw := 0 |}.

Definition blob_of (w : World) : LocalBlob :=
  match w_blob w with
  | Some b => b
  | None => no_blob
  end.

(** A sealed blob, written out: ["hello"] has gone through the framing
    compressor into the spool file and the blob has been closed. *)
Definition sealed_blob : LocalBlob :=
  {| IsDir := false;
     Reference := "";
     File := {| f_name := "/tmp/blob042"; f_closed := true |};
     pw := {| pb_current := 5; pb_finished := true |};
     gw := Some {| z_st := {| fs_level := 9; fs_header := true;
                              fs_held := []; fs_total := 5 |};
                   z_err := None; z_closed := true |};
     hw := hello;
     ccw := 8;
     ucw := 5 |}.

Definition sealed_spool : bytes := frame_magic ++ hello ++ [Byte.x05].

(** The store holding the sealed blob's object. *)
Definition holding : MemStore :=
  {| ms_objects :=
       {[ ms_path "bucket" (Sprintf_blob_x_gz (Hash_of sealed_blob))
            := sealed_spool ]};
     ms_put_fails := false; ms_stat_fails := false; ms_del_fails := false |}.

(** The world of the sealed blob, facing the store [m]. *)
Definition sealed (m : MemStore) : World :=
  {| w_blob := Some sealed_blob;
     w_tw := {| tw_nb := 0; tw_pad := 0; tw_err := None |};
     w_disk := {| d_files := {[ "/tmp/blob042" := sealed_spool ]};
                  d_free := 92; d_temp := Some "/tmp/blob042";
                  d_close_err := None |};
     w_tree := ∅;
     w_s3 := {| config := cfg; s3_client := None |};
     w_remote := m;
     w_trace := [] |}.

(** A blob that has just been created for a directory, in a world with
    [free] bytes of temporary storage. *)
Definition open_dir_blob : LocalBlob :=
  {| IsDir := true;
     Reference := "";
     File := {| f_name := "/tmp/blob042"; f_closed := false |};
     pw := {| pb_current := 0; pb_finished := false |};
     gw := Some {| z_st := {| fs_level := 9; fs_header := false;
                              fs_held := []; fs_total := 0 |};
                   z_err := None; z_closed := false |};
     hw := [];
     ccw := 0;
     ucw := 0 |}.

Definition opened (free : nat) : World :=
  {| w_blob := Some open_dir_blob;
     w_tw := {| tw_nb := 0; tw_pad := 0; tw_err := None |};
     w_disk := {| d_files := {[ "/tmp/blob042" := [] ]};
                  d_free := free; d_temp := Some "/tmp/blob042";
                  d_close_err := None |};
     w_tree := {[ "d" := tree_d 0 0 ]};
     w_s3 := {| config := cfg; s3_client := None |};
     w_remote := store0;
     w_trace := [EvTempFile "/tmp/blob042"] |}.

(** A world where no temporary file can be created. *)
Definition no_temp : World :=
  {| w_blob := None;
     w_tw := {| tw_nb := 0; tw_pad := 0; tw_err := None |};
     w_disk := {| d_files := ∅; d_free := 100; d_temp := None;
                  d_close_err := None |};
     w_tree := {[ "d" := tree_d 0 0 ]};
     w_s3 := {| config := cfg; s3_client := None |};
     w_remote := store0;
     w_trace := [] |}.

(** A world whose store has no usable endpoint. *)
Definition cfg_offline : S3Config :=
  {| Key := "key"; Secret := "secret"; Location := "us-east-1";
     Bucket := "bucket"; Endpoint := ""; SSL := true |}.

Definition offline : World :=
  {| w_blob := None;
     w_tw := {| tw_nb := 0; tw_pad := 0; tw_err := None |};
     w_disk := disk0 5000;
     w_tree := {[ "d" := tree_d 0 0 ]};
     w_s3 := {| config := cfg_offline; s3_client := None |};
     w_remote := store0;
     w_trace := [] |}.

(** Two readers: one that ends well, one that breaks off. *)
Definition two_reads : Reader := [(hello, None); (gopher, Some EOF)].

Definition broken_read : Reader :=
  [(hello, None); ([], Some (ErrNew "unexpected EOF"))].

(** A zip archive: a file, a directory, and a file inside it. *)
Definition zip_file (name : string) (kind : Kind) (content : bytes) : ZipFile :=
  {| zf_Name := name; zf_Size := len content; zf_Kind := kind;
     zf_Perm := 420; zf_Modified := 1000000000; zf_Open := inr content |}.

Definition zip_readme : ZipFile := zip_file "readme.txt" Regular hello.
Definition zip_docs : ZipFile := zip_file "docs/" Directory [].
Definition zip_guide : ZipFile := zip_file "docs/guide.txt" Regular gopher.

(** The header [TarZip] writes for [zip_guide]. *)
Definition guide_header : Header :=
  {| h_Typeflag := TypeReg; h_Name := "guide.txt"; h_Linkname := "";
     h_Size := 6; h_Mode := 420; h_Uid := 0; h_Gid := 0;
     h_Uname := ""; h_Gname := ""; h_ModTime := zeroTime;
     h_AccessTime := zeroTime; h_ChangeTime := zeroTime;
     h_Devmajor := 0; h_Devminor := 0; h_Format := FormatUnknown |}.

(** A file system in memory: files with their content, directories,
    links, and the offset of the file being written.  A write goes over
    what is there at the offset; opening truncates only when asked
    to. *)
Record MemFs := {
  mf_files : gmap string bytes;
  mf_dirs : list string;
  mf_links : gmap string string;
  mf_at : nat;
}.

Definition mf_exists (s : MemFs) (name : string) : bool :=
  bool_decide (is_Some (mf_files s !! name))
  || existsb (String.eqb name) (mf_dirs s)
  || bool_decide (is_Some (mf_links s !! name)).

Definition mf_put (name : string) (c : bytes) (at_ : nat) (s : MemFs) : MemFs :=
  {| mf_files := <[name := c]> (mf_files s); mf_dirs := mf_dirs s;
     mf_links := mf_links s; mf_at := at_ |}.

#[global] Instance memfs : FileSystem := {|
  fs_state := MemFs;
  handle := string;
  os_Stat := fun s name =>
    if mf_exists s name then None
    else Some (ErrNew "no such file or directory");
  os_MkdirAll := fun s name _ =>
    match mf_files s !! name with
    | Some _ => (s, Some (ErrNew "not a directory"))
    | None =>
        ({| mf_files := mf_files s; mf_dirs := name :: mf_dirs s;
            mf_links := mf_links s; mf_at := mf_at s |}, None)
    end;
  os_OpenFile := fun s name flag _ =>
    if existsb (String.eqb name) (mf_dirs s)
    then (s, inl (ErrNew "is a directory"))
    else
      match mf_files s !! name with
      | Some c =>
          (mf_put name (if Z.land flag O_TRUNC =? 0 then c else []) 0 s,
           inr name)
      | None =>
          if Z.land flag O_CREATE =? 0
          then (s, inl (ErrNew "no such file or directory"))
          else (mf_put name [] 0 s, inr name)
      end;
  f_Write := fun s name p =>
    let c := default [] (mf_files s !! name) in
    (mf_put name (take (mf_at s) c ++ p ++ drop (mf_at s + length p) c)
            (mf_at s + length p) s,
     (len p, None));
  f_Close := fun s _ => (s, None);
  os_Symlink := fun s oldname newname =>
    if mf_exists s newname then (s, Some (ErrNew "file exists"))
    else ({| mf_files := mf_files s; mf_dirs := mf_dirs s;
             mf_links := <[newname := oldname]> (mf_links s);
             mf_at := mf_at s |}, None);
|}.

(** A directory [out/] holding an older, longer [a.txt], and an archive
    with a directory, a shorter [a.txt], a device and an entry that
    points above [out/]. *)
Definition header (flag : Typeflag) (name : string) : Header :=
  {| h_Typeflag := flag; h_Name := name; h_Linkname := "";
     h_Size := 0; h_Mode := 420; h_Uid := 0; h_Gid := 0;
     h_Uname := ""; h_Gname := ""; h_ModTime := zeroTime;
     h_AccessTime := zeroTime; h_ChangeTime := zeroTime;
     h_Devmajor := 0; h_Devminor := 0; h_Format := FormatUnknown |}.

Definition out0 : Dest :=
  {| x_fs := {| mf_files := {[ "out/a.txt" := hello ]}; mf_dirs := ["out"];
                mf_links := ∅; mf_at := 0 |};
     x_calls := [] |}.

Definition archive : list TarItem :=
  [ NextEntry (header TypeDir "docs/") [] None;
    NextEntry (header TypeReg "a.txt") (list_byte_of_string "HI") None;
    NextEntry (header TypeChar "tty") [] None;
    NextEntry (header TypeReg "../up.txt") gopher None ].

End Sample.


(* ===================================================================== *)
(** * Vocabulary of the properties                                        *)
(* ===================================================================== *)

Section Vocabulary.

Context {compressor : Compressor} {minio : Minio} {tarfmt : TarFormat}.

(** [m] takes every world to one related to it by [R], whatever its
    outcome. *)
Definition preserves {A} (R : World -> World -> Prop) (m : M A) : Prop :=
  forall w, R w (snd (m w)).

(** Running [m] does not look at the source tree. *)
Definition tree_blind {A} (m : M A) : Prop :=
  forall t w, m (with_tree t w) = (fst (m w), with_tree t (snd (m w))).

(** ** Kinds of events *)

Definition is_remote (e : Event) : bool :=
  match e with
  | EvGet _ _ | EvStat _ _ | EvPut _ _ _ _ | EvDel _ _ => true
  | _ => false
  end.

Definition is_local (e : Event) : bool := negb (is_remote e).

Definition is_lookup (e : Event) : bool :=
  match e with
  | EvGet _ _ | EvStat _ _ => true
  | _ => false
  end.

Definition is_put (e : Event) : bool :=
  match e with EvPut _ _ _ _ => true | _ => false end.

Definition is_del (e : Event) : bool :=
  match e with EvDel _ _ => true | _ => false end.

(** What the compression stage does underneath: bytes into the spool
    file, and the compressed-byte counter. *)
Definition is_spool (e : Event) : bool :=
  match e with
  | EvSpool _ _ | EvCcw _ => true
  | _ => false
  end.

Definition is_ucw (e : Event) : bool :=
  match e with EvUcw _ => true | _ => false end.

Definition is_hash (e : Event) : bool :=
  match e with EvHash _ => true | _ => false end.

Definition is_gzip (e : Event) : bool :=
  match e with EvGzip _ => true | _ => false end.

(** The key a remote event names. *)
Definition event_key (e : Event) : option string :=
  match e with
  | EvGet _ k | EvStat _ k | EvPut _ k _ _ | EvDel _ k => Some k
  | _ => None
  end.

(** The trace of [w'] continues the trace of [w] with events of kind
    [P]. *)
Definition extends (P : Event -> bool) (w w' : World) : Prop :=
  exists evs, w_trace w' = w_trace w ++ evs /\ forallb P evs = true.

(** The events between [w] and a later [w']. *)
Definition new_events (w w' : World) : list Event :=
  drop (length (w_trace w)) (w_trace w').

(** The blob cell keeps its projection [f]. *)
Definition keeps {X} (f : LocalBlob -> X) (w w' : World) : Prop :=
  f <$> w_blob w' = f <$> w_blob w.

(** What the caller's bytes determine in a blob: the data hashed and
    the uncompressed count. *)
Definition payload (b : LocalBlob) : bytes * Z := (hw b, ucw b).

(** What [NewLocalBlob] fixes for good: the spool file's name and the
    presence of a compressor. *)
Definition wiring (b : LocalBlob) : string * bool :=
  (f_name (File b), match gw b with Some _ => true | None => false end).

(** The compressed-byte counter agrees with the spool file. *)
Definition coherent (w : World) : Prop :=
  exists b c, w_blob w = Some b /\
              d_files (w_disk w) !! f_name (File b) = Some c /\
              ccw b = uint64 (len c).

Definition keeps_coherent (w w' : World) : Prop := coherent w -> coherent w'.

(** What closing a file will report stays the same. *)
Definition same_verdict (w w' : World) : Prop :=
  d_close_err (w_disk w') = d_close_err (w_disk w).

(** Nothing but the trace and the blob cell, the tar writer and the
    temporary storage moves: the store, the receiver and the source tree
    stay. *)
Definition local_frame (w w' : World) : Prop :=
  w_s3 w' = w_s3 w /\ w_remote w' = w_remote w /\ w_tree w' = w_tree w.

(** Nothing on this side moves: the blob, the tar writer, the temporary
    storage and the source tree stay. *)
Definition remote_frame (w w' : World) : Prop :=
  w_blob w' = w_blob w /\ w_tw w' = w_tw w /\ w_disk w' = w_disk w /\
  w_tree w' = w_tree w.

(** The bytes handed to the blob, in order, as the trace shows them. *)
Fixpoint written (tr : list Event) : bytes :=
  match tr with
  | [] => []
  | EvGzip p :: tr' => p ++ written tr'
  | _ :: tr' => written tr'
  end.


(** ** The order the specification gives for the effects of one write:
    the uncompressed counter, then the hash, then the compressor. *)
Fixpoint index_of (P : Event -> bool) (evs : list Event) : option nat :=
  match evs with
  | [] => None
  | e :: evs' => if P e then Some O else S <$> index_of P evs'
  end.

Definition counter_hash_compressor (evs : list Event) : bool :=
  match index_of is_ucw evs, index_of is_hash evs, index_of is_gzip evs with
  | Some i, Some j, Some k => (i <? j)%nat && (j <? k)%nat
  | _, _, _ => false
  end.

(** ** Source trees up to their timestamps *)

Definition strip_times (fi : FileInfo) : FileInfo :=
  {| fi_Name := fi_Name fi; fi_Size := fi_Size fi; fi_Kind := fi_Kind fi;
     fi_Perm := fi_Perm fi; fi_ModTime := zeroTime;
     fi_Uid := fi_Uid fi; fi_Gid := fi_Gid fi;
     fi_Uname := fi_Uname fi; fi_Gname := fi_Gname fi;
     fi_Atime := zeroTime; fi_Ctime := zeroTime;
     fi_Rdevmajor := fi_Rdevmajor fi; fi_Rdevminor := fi_Rdevminor fi |}.

Fixpoint strip_node (n : Node) : Node :=
  match n with
  | Entry fi data dirErr children =>
      Entry (strip_times fi) data dirErr (strip_children children)
  | Broken e => Broken e
  end
with strip_children (cs : Children) : Children :=
  match cs with
  | NoChild => NoChild
  | Child name n rest => Child name (strip_node n) (strip_children rest)
  end.

(** Two source trees with the same names, kinds, modes, owners, sizes,
    contents and entry order; only timestamps may differ. *)
Definition same_up_to_times (t1 t2 : gmap string Node) : Prop :=
  strip_node <$> t1 = strip_node <$> t2.

(** [UploadDir src] started in [w0] gets as far as the duplicate check,
    which it runs in [w3]: the blob was created, the directory packed
    and the blob closed, all without error. *)
Definition reaches_check (src : string) (w0 w3 : World) : Prop :=
  exists w1 w2,
    NewLocalBlob w0 = (Ret None, w1) /\
    TarDir src (snd (update (set_IsDir true) w1)) = (Ret None, w2) /\
    Close w2 = (Ret None, w3).

(** A client is at hand: cached in [s3], or [minio.New] makes one. *)
Definition client_of (s3 : S3) : option client :=
  match s3_client s3 with
  | Some c => Some c
  | None =>
      match minio_New (Endpoint (config s3)) (Key (config s3))
                      (Secret (config s3)) (SSL (config s3)) with
      | inl _ => None
      | inr c => Some c
      end
  end.

(** The world once [getClient] has cached the client it made. *)
Definition cached (c : client) (w : World) : World :=
  with_s3 {| config := config (w_s3 w); s3_client := Some c |} w.

(** What the store reports about [key]: the size of the object there,
    or nothing when either lookup call fails. *)
Definition reported_size (c : client) (r : remote) (bucket key : string)
  : option Z :=
  match mc_GetObject c r bucket key with
  | (_, Some _) => None
  | (r1, None) =>
      match mc_Stat c r1 bucket key with
      | (_, inl _) => None
      | (_, inr info) => Some (oi_Size info)
      end
  end.

(** The metadata [UploadBlob] attaches. *)
Definition upload_options (b : LocalBlob) : PutObjectOptions :=
  {| ContentType := "application/gzip";
     UserMetadata :=
       [ ("Uncompressed-Size", FormatInt (UncompressedSize_of b));
         ("Reference-Name", Reference b);
         ("Is-Dir", FormatBool (IsDir b)) ] |}.


(** Once [P] holds it keeps holding. *)
Definition stays (P : World -> Prop) (w w' : World) : Prop := P w -> P w'.

(** From a world where [P] holds, [m] returns (it does not panic) and
    [P] holds again. *)
Definition safe {A} (P : World -> Prop) (m : M A) : Prop :=
  forall w, P w -> exists a, fst (m w) = Ret a /\ P (snd (m w)).

(** The blob is there and its compressor has not been closed. *)
Definition open_blob (w : World) : Prop :=
  exists b z, w_blob w = Some b /\ gw b = Some z /\ z_closed z = false.

(** The blob has been through [Close]: the progress bar is finished, the
    compressor is closed or stuck on an error, the file is closed. *)
Definition shut (w : World) : Prop :=
  exists b z, w_blob w = Some b /\ gw b = Some z /\
    pb_finished (pw b) = true /\ f_closed (File b) = true /\
    (z_closed z = true \/ z_err z <> None).

(** From [w] to [w'] nothing happened but on this side: the store, the
    receiver and the source tree are as they were and the trace grew by
    local events only. *)
Definition stayed_local (w w' : World) : Prop :=
  local_frame w w' /\ extends is_local w w'.

(** What [io.Copy] takes from a reader when nothing fails: every piece
    up to the first that comes with an error. *)
Fixpoint consumed (fr : Reader) : bytes :=
  match fr with
  | [] => []
  | (p, Some _) :: _ => p
  | (p, None) :: fr' => p ++ consumed fr'
  end.

(** No file of that name in the temporary storage. *)
Definition absent (name : string) (w : World) : Prop :=
  d_files (w_disk w) !! name = None.

End Vocabulary.

(** ** The object key, in the specification's words

    ["blob/" + lowercase-hex(digest) + ".gz"], with the hexadecimal
    digits computed rather than looked up. *)
Definition lower_hex_digit (d : Z) : ascii :=
  if d <? 10 then ascii_of_nat (Z.to_nat (48 + d))
  else ascii_of_nat (Z.to_nat (87 + d)).

Fixpoint lowercase_hex (p : bytes) : string :=
  match p with
  | [] => EmptyString
  | b :: p' =>
      String (lower_hex_digit (byte_to_Z b / 16))
        (String (lower_hex_digit (byte_to_Z b mod 16)) (lowercase_hex p'))
  end.

Definition RemoteObjectKey (digest : bytes) : string :=
  ("blob/" ++ lowercase_hex digest ++ ".gz")%string.

(** No slash in [s]. *)
Definition slashless (s : string) : bool :=
  forallb (fun c => negb (is_slash c)) (list_ascii_of_string s).

(** Reading lowercase hexadecimal back: the value of a digit, and the
    bytes two digits at a time. *)
Definition hex_value (c : ascii) : Z :=
  let n := Z.of_nat (nat_of_ascii c) in
  if n <? 58 then n - 48 else n - 87.

Fixpoint parse_hex (s : string) : bytes :=
  match s with
  | String c1 (String c2 s') =>
      byte_of_Z (16 * hex_value c1 + hex_value c2) :: parse_hex s'
  | _ => []
  end.

(** The name [walkFn] gives the entry at [file] when walking [src]. *)
Definition entry_name (src file : string) : string :=
  TrimPrefix (Replace_with_empty file src) Separator.

(** A plain path element: not empty, no slash, neither ["."] nor
    [".."]. *)
Definition plain (s : string) : bool :=
  negb (String.eqb s "") && slashless s
  && negb (String.eqb s ".") && negb (String.eqb s "..").

(** The path made of the elements [es], absolute when [rooted]. *)
Definition path_of (rooted : bool) (es : list string) : string :=
  ((if rooted then "/" else "") ++ join_elements es)%string.

(** A path made of plain elements, one at least: [filepath.Join]
    leaves it as it is. *)
Definition tidy (q : string) : Prop :=
  exists rooted es,
    es <> [] /\ forallb plain es = true /\ q = path_of rooted es.

(** Below the root, every name is a plain element and no path of the
    tree has [src] in it: cutting [src] out of [prefix/name] changes
    nothing. *)
Fixpoint names_clear (src prefix : string) (n : Node) : bool :=
  match n with
  | Entry _ _ _ children => kids_clear src prefix children
  | Broken _ => true
  end
with kids_clear (src prefix : string) (cs : Children) : bool :=
  match cs with
  | NoChild => true
  | Child name n rest =>
      let p := (prefix ++ Separator ++ name)%string in
      plain name
      && String.eqb (Replace_with_empty p src) p
      && names_clear src p n && kids_clear src prefix rest
  end.

Definition is_write (c : Call) : bool :=
  match c with CallWrite _ _ => true | _ => false end.

(** ** Vocabulary of [Untargz] *)

Section UntarVocabulary.

Context {filesystem : FileSystem}.

(** The calls made between [x] and a later [x']. *)
Definition new_calls (x x' : Dest) : list Call :=
  drop (length (x_calls x)) (x_calls x').

Definition is_print (c : Call) : bool :=
  match c with CallLogPrint _ => true | _ => false end.

(** The calls that reach the file system. *)
Definition fs_calls (x : Dest) : list Call :=
  List.filter (fun c => negb (is_print c)) (x_calls x).

(** The items [Untargz] acts on: errors, and entries that are a
    directory, a regular file or a symbolic link. *)
Definition extractable (it : TarItem) : bool :=
  match it with
  | NextNil => false
  | NextFails _ => true
  | NextEntry h _ _ =>
      match h_Typeflag h with
      | TypeDir | TypeReg | TypeSymlink => true
      | _ => false
      end
  end.

(** [h] is the header of an entry of type [flag] among [items]. *)
Definition entry_of (items : list TarItem) (flag : Typeflag) (h : Header)
  : Prop :=
  h_Typeflag h = flag /\
  exists content rerr, In (NextEntry h content rerr) items.

(** What a call of [Untargz dst] on [items] may look like. *)
Definition asked_for (dst : string) (items : list TarItem) (c : Call) : Prop :=
  match c with
  | CallStat name =>
      exists h, entry_of items TypeDir h /\
                name = filepath_Join dst (h_Name h)
  | CallMkdirAll name perm =>
      perm = rwxr_xr_x /\
      exists h, entry_of items TypeDir h /\
                name = filepath_Join dst (h_Name h)
  | CallOpenFile name flag perm =>
      flag = Z.lor O_CREATE O_RDWR /\
      exists h, entry_of items TypeReg h /\
                name = filepath_Join dst (h_Name h) /\
                perm = FileMode (h_Mode h)
  | CallWrite name _ | CallClose name =>
      exists h, entry_of items TypeReg h /\
                name = filepath_Join dst (h_Name h)
  | CallSymlink oldname newname =>
      exists h, entry_of items TypeSymlink h /\
                oldname = h_Linkname h /\
                newname = filepath_Join dst (h_Name h)
  | CallLogPrint _ => True
  end.

(** Two destinations the file system cannot tell apart. *)
Definition same_fs (x y : Dest) : Prop :=
  x_fs x = x_fs y /\ fs_calls x = fs_calls y.

End UntarVocabulary.

(* ===================================================================== *)
(** * Reasoning about runs                                                *)
(* ===================================================================== *)

Section Runs.

Context {compressor : Compressor} {minio : Minio} {tarfmt : TarFormat}.

Lemma run_bind {A B} (m : M A) (k : A -> M B) (w : World) :
  (m ≫= k) w =
  match m w with
  | (Ret a, w') => k a w'
  | (Panic msg, w') => (Panic msg, w')
  end.
Proof. reflexivity. Qed.

Lemma bind_inv {A B} (m : M A) (k : A -> M B) w r w' :
  (m ≫= k) w = (r, w') ->
  (exists a w1, m w = (Ret a, w1) /\ k a w1 = (r, w')) \/
  (exists msg, m w = (Panic msg, w') /\ r = Panic msg).
Proof.
  rewrite run_bind. destruct (m w) as [[a|msg] w1]; intros H.
  - left. eauto.
  - right. inversion H; subst. eauto.
Qed.

Lemma deref_some w b : w_blob w = Some b -> deref w = (Ret b, w).
Proof. unfold deref. intros ->. reflexivity. Qed.

Lemma deref_none w : w_blob w = None -> deref w = (Panic nil_deref, w).
Proof. unfold deref. intros ->. reflexivity. Qed.

Lemma update_some f w b :
  w_blob w = Some b -> update f w = (Ret tt, with_blob (Some (f b)) w).
Proof. intros H. unfold update. rewrite run_bind, (deref_some _ _ H). reflexivity. Qed.

Lemma update_none f w :
  w_blob w = None -> update f w = (Panic nil_deref, w).
Proof. intros H. unfold update. rewrite run_bind, (deref_none _ H). reflexivity. Qed.

(** ** [preserves] is closed under the monad's operations *)

Section Preserves.

Context (R : World -> World -> Prop) `{!PreOrder R}.

Lemma preserves_ret {A} (a : A) : preserves R (ret a).
Proof. intros w. simpl. reflexivity. Qed.

Lemma preserves_panic {A} msg : preserves R (panic msg : M A).
Proof. intros w. simpl. reflexivity. Qed.

Lemma preserves_gets {A} (f : World -> A) : preserves R (gets f).
Proof. intros w. simpl. reflexivity. Qed.

Lemma preserves_bind {A B} (m : M A) (k : A -> M B) :
  preserves R m -> (forall a, preserves R (k a)) -> preserves R (m ≫= k).
Proof.
  intros Hm Hk w. rewrite run_bind. specialize (Hm w).
  destruct (m w) as [[a|msg] w1]; simpl in *; [|exact Hm].
  etransitivity; [exact Hm|apply Hk].
Qed.

Lemma preserves_modify (f : World -> World) :
  (forall w, R w (f w)) -> preserves R (modify f).
Proof. intros H w. apply H. Qed.

Lemma preserves_update (f : LocalBlob -> LocalBlob) :
  (forall w b, w_blob w = Some b -> R w (with_blob (Some (f b)) w)) ->
  preserves R (update f).
Proof.
  intros H w. destruct (w_blob w) as [b|] eqn:E.
  - rewrite (update_some _ _ _ E). simpl. auto.
  - rewrite (update_none _ _ E). simpl. reflexivity.
Qed.

Lemma preserves_defer {A B} (d : M B) (body : M A) :
  preserves R body -> preserves R d -> preserves R (defer d body).
Proof.
  intros Hb Hd w. unfold defer. specialize (Hb w).
  destruct (body w) as [r w1]. specialize (Hd w1).
  destruct (d w1) as [[x|msg] w2]; simpl in *; etransitivity; eauto.
Qed.

End Preserves.


(** ** The relations are preorders *)

#[global] Instance extends_preorder P : PreOrder (extends P).
Proof.
  split.
  - intros w. exists []. rewrite app_nil_r. auto.
  - intros w1 w2 w3 (e1 & H1 & F1) (e2 & H2 & F2). exists (e1 ++ e2).
    rewrite H2, H1, app_assoc, forallb_app, F1, F2. auto.
Qed.

#[global] Instance keeps_preorder {X} (f : LocalBlob -> X) : PreOrder (keeps f).
Proof.
  split.
  - intros w. reflexivity.
  - intros w1 w2 w3 H1 H2. unfold keeps in *. congruence.
Qed.

#[global] Instance keeps_coherent_preorder : PreOrder keeps_coherent.
Proof. split; unfold keeps_coherent; [intros w|intros w1 w2 w3]; auto. Qed.

#[global] Instance local_frame_preorder : PreOrder local_frame.
Proof.
  split.
  - intros w. repeat split.
  - intros w1 w2 w3 (?&?&?) (?&?&?). unfold local_frame. repeat split; congruence.
Qed.

#[global] Instance remote_frame_preorder : PreOrder remote_frame.
Proof.
  split.
  - intros w. repeat split.
  - intros w1 w2 w3 (?&?&?&?) (?&?&?&?). unfold remote_frame.
    repeat split; congruence.
Qed.

Lemma preserves_deref R `{!PreOrder R} : preserves R deref.
Proof. intros w. unfold deref. destruct (w_blob w); simpl; reflexivity. Qed.

(** ** Leaves: what a single assignment does to each relation *)

Lemma extends_log P e : P e = true -> preserves (extends P) (log e).
Proof. intros H w. exists [e]. simpl. rewrite H. auto. Qed.

Lemma extends_quiet P (f : World -> World) :
  (forall w, w_trace (f w) = w_trace w) -> preserves (extends P) (modify f).
Proof. intros H w. exists []. simpl. rewrite H, app_nil_r. auto. Qed.

Lemma extends_update P f : preserves (extends P) (update f).
Proof.
  apply preserves_update; [apply _|]. intros w b _. exists [].
  simpl. rewrite app_nil_r. auto.
Qed.

Lemma extends_mono (P Q : Event -> bool) {A} (m : M A) :
  (forall e, P e = true -> Q e = true) ->
  preserves (extends P) m -> preserves (extends Q) m.
Proof.
  intros HPQ H w. destruct (H w) as (evs & E & F). exists evs. split; [exact E|].
  rewrite forallb_forall in *. auto.
Qed.

Lemma keeps_still {X} (g : LocalBlob -> X) (f : World -> World) :
  (forall w, w_blob (f w) = w_blob w) -> preserves (keeps g) (modify f).
Proof. intros H w. unfold keeps. simpl. rewrite H. reflexivity. Qed.

Lemma keeps_log {X} (g : LocalBlob -> X) e : preserves (keeps g) (log e).
Proof. apply keeps_still. reflexivity. Qed.

Lemma keeps_update {X} (g : LocalBlob -> X) f :
  (forall b, g (f b) = g b) -> preserves (keeps g) (update f).
Proof.
  intros H. apply preserves_update; [apply _|]. intros w b E.
  unfold keeps. simpl. rewrite E. simpl. rewrite H. reflexivity.
Qed.

Lemma local_frame_modify (f : World -> World) :
  (forall w, w_s3 (f w) = w_s3 w /\ w_remote (f w) = w_remote w /\
             w_tree (f w) = w_tree w) ->
  preserves local_frame (modify f).
Proof. intros H w. apply H. Qed.

Lemma remote_frame_modify (f : World -> World) :
  (forall w, remote_frame w (f w)) -> preserves remote_frame (modify f).
Proof. intros H w. apply H. Qed.

Lemma local_frame_update f : preserves local_frame (update f).
Proof. apply preserves_update; [apply _|]. intros w b _. repeat split. Qed.

End Runs.

Create HintDb ext.
Create HintDb kept.
Create HintDb framed.

(** One step of a proof that a computation preserves a relation: split
    a bind, decide a match, or close a leaf with [leaf]. *)
Tactic Notation "pres_step" tactic3(leaf) :=
  first
    [ apply preserves_ret; apply _
    | apply preserves_panic; apply _
    | apply preserves_gets; apply _
    | apply preserves_deref; apply _
    | leaf
    | apply preserves_bind; [ apply _ | | intros ? ]
    | apply preserves_defer; [ apply _ | | ]
    | match goal with
      | |- preserves _ (match ?x with _ => _ end) => destruct x
      end ].

Tactic Notation "pres" tactic3(leaf) := repeat (pres_step leaf).

Ltac extends_leaf :=
  first [ apply extends_log; reflexivity
        | apply extends_update
        | apply extends_quiet; reflexivity
        | solve [ eauto with ext ] ].

Ltac keeps_leaf :=
  first [ apply keeps_log
        | apply keeps_update; intros [? ? ? ? [?|] ? ? ?]; reflexivity
        | apply keeps_still; reflexivity
        | solve [ eauto with kept ] ].

Ltac frame_leaf :=
  first [ apply local_frame_update
        | apply local_frame_modify; intros; repeat split
        | solve [ eauto with framed ] ].

Section Pipeline.

Context {compressor : Compressor} {minio : Minio} {tarfmt : TarFormat}.

(** ** The trace of the pipeline *)

Lemma spool_is_local e : is_spool e = true -> is_local e = true.
Proof. destruct e; simpl; auto; discriminate. Qed.

Lemma File_Write_spool p : preserves (extends is_spool) (File_Write p).
Proof. unfold File_Write. pres extends_leaf. Qed.
Hint Resolve File_Write_spool : ext.

Lemma ccw_Write_spool p : preserves (extends is_spool) (ccw_Write p).
Proof. unfold ccw_Write. pres extends_leaf. Qed.

Lemma ccw_Write_local p : preserves (extends is_local) (ccw_Write p).
Proof. eapply extends_mono; [apply spool_is_local|apply ccw_Write_spool]. Qed.
Hint Resolve ccw_Write_local : ext.

Lemma gw_Write_local p : preserves (extends is_local) (gw_Write p).
Proof. unfold gw_Write, gw_compress, set_gz. pres extends_leaf. Qed.
Hint Resolve gw_Write_local : ext.

Lemma gw_Close_local : preserves (extends is_local) gw_Close.
Proof. unfold gw_Close, set_gz. pres extends_leaf. Qed.
Hint Resolve gw_Close_local : ext.

Lemma File_Close_local : preserves (extends is_local) File_Close.
Proof. unfold File_Close. pres extends_leaf. Qed.
Hint Resolve File_Close_local : ext.

Lemma Write_local p : preserves (extends is_local) (Write p).
Proof.
  unfold Write, mw, MultiWriter, ucw_Write, hw_Write, pw_Write.
  pres extends_leaf.
Qed.
Hint Resolve Write_local : ext.

Lemma Close_local : preserves (extends is_local) Close.
Proof. unfold Close, pw_Finish. pres extends_leaf. Qed.
Hint Resolve Close_local : ext.

Lemma os_Remove_local name : preserves (extends is_local) (os_Remove name).
Proof. unfold os_Remove. pres extends_leaf. Qed.
Hint Resolve os_Remove_local : ext.

Lemma NewLocalBlob_local : preserves (extends is_local) NewLocalBlob.
Proof. unfold NewLocalBlob, TempFile. pres extends_leaf. Qed.
Hint Resolve NewLocalBlob_local : ext.

Lemma tw_Flush_local : preserves (extends is_local) tw_Flush.
Proof. unfold tw_Flush, set_tw. pres extends_leaf. Qed.
Hint Resolve tw_Flush_local : ext.

Lemma tw_WriteHeader_local h : preserves (extends is_local) (tw_WriteHeader h).
Proof. unfold tw_WriteHeader, set_tw. pres extends_leaf. Qed.
Hint Resolve tw_WriteHeader_local : ext.

Lemma tw_Write_local p : preserves (extends is_local) (tw_Write p).
Proof. unfold tw_Write, set_tw. pres extends_leaf. Qed.
Hint Resolve tw_Write_local : ext.

Lemma tw_Close_local : preserves (extends is_local) tw_Close.
Proof. unfold tw_Close, set_tw. pres extends_leaf. Qed.
Hint Resolve tw_Close_local : ext.

Lemma copyLoop_local fuel : forall data written,
  preserves (extends is_local) (copyLoop fuel data written).
Proof.
  induction fuel as [|fuel IH]; intros data written; simpl; pres extends_leaf.
Qed.
Hint Resolve copyLoop_local : ext.

Lemma walkFn_local src file fi opened err :
  preserves (extends is_local) (walkFn src file fi opened err).
Proof. unfold walkFn, CopyBuffer. pres extends_leaf. Qed.
Hint Resolve walkFn_local : ext.

Lemma walk_local src n : forall path,
  preserves (extends is_local) (walk src path n).
Proof.
  induction n using Node_mut with
    (P0 := fun cs => forall path,
             preserves (extends is_local) (walk_children src path cs));
    intros path; simpl; pres extends_leaf.
Qed.
Hint Resolve walk_local : ext.

Lemma TarDir_local src : preserves (extends is_local) (TarDir src).
Proof. unfold TarDir, tar_NewWriter, set_tw. pres extends_leaf. Qed.
Hint Resolve TarDir_local : ext.


(** ** What the compression side leaves alone *)

Lemma ccw_Write_payload p : preserves (keeps payload) (ccw_Write p).
Proof. unfold ccw_Write, File_Write. pres keeps_leaf. Qed.
Hint Resolve ccw_Write_payload : kept.

Lemma gw_Write_payload p : preserves (keeps payload) (gw_Write p).
Proof. unfold gw_Write, gw_compress, set_gz. pres keeps_leaf. Qed.

Lemma gw_Close_payload : preserves (keeps payload) gw_Close.
Proof. unfold gw_Close, set_gz. pres keeps_leaf. Qed.
Hint Resolve gw_Close_payload : kept.

Lemma Close_payload : preserves (keeps payload) Close.
Proof. unfold Close, pw_Finish, File_Close. pres keeps_leaf. Qed.

Lemma ccw_Write_wiring p : preserves (keeps wiring) (ccw_Write p).
Proof. unfold ccw_Write, File_Write. pres keeps_leaf. Qed.
Hint Resolve ccw_Write_wiring : kept.

Lemma gw_Close_wiring : preserves (keeps wiring) gw_Close.
Proof. unfold gw_Close, set_gz. pres keeps_leaf. Qed.
Hint Resolve gw_Close_wiring : kept.

Lemma Close_wiring : preserves (keeps wiring) Close.
Proof. unfold Close, pw_Finish, File_Close. pres keeps_leaf. Qed.

(** ** The spool file and its counter *)

Lemma File_Write_open p w b :
  w_blob w = Some b -> f_closed (File b) = false ->
  let k := Nat.min (length p) (d_free (w_disk w)) in
  File_Write p w =
  (Ret (Z.of_nat k, if (k <? length p)%nat then Some ENOSPC else None),
   with_trace (w_trace w ++ [EvSpool (f_name (File b)) (take k p)])
     (with_disk (use_free k
        (set_files (alter (fun c => c ++ take k p) (f_name (File b)))
                   (w_disk w))) w)).
Proof.
  intros Hb Hc. unfold File_Write. rewrite run_bind, (deref_some _ _ Hb), Hc.
  reflexivity.
Qed.

Lemma File_Write_closed p w b :
  w_blob w = Some b -> f_closed (File b) = true ->
  File_Write p w = (Ret (0, Some ErrClosed), w).
Proof.
  intros Hb Hc. unfold File_Write. rewrite run_bind, (deref_some _ _ Hb), Hc.
  reflexivity.
Qed.

Lemma uint64_add_l a b : uint64 (uint64 a + b) = uint64 (a + b).
Proof. unfold uint64. apply Z.add_mod_idemp_l. lia. Qed.

Lemma ccw_Write_coherent p : preserves keeps_coherent (ccw_Write p).
Proof.
  intros w (b & c & Hb & Hc & Hn). unfold ccw_Write. rewrite run_bind.
  destruct (f_closed (File b)) eqn:Ecl.
  - rewrite (File_Write_closed _ _ _ Hb Ecl). rewrite run_bind.
    rewrite (update_some _ _ _ Hb). simpl.
    exists (set_ccw (AddUint64 (ccw b) 0) b), c. simpl. repeat split; auto.
    unfold AddUint64. rewrite Hn, uint64_add_l. f_equal. lia.
  - rewrite (File_Write_open _ _ _ Hb Ecl). cbv zeta.
    set (k := Nat.min (length p) (d_free (w_disk w))).
    rewrite run_bind. erewrite update_some by (simpl; exact Hb). simpl.
    eexists _, (c ++ take k p). simpl. split; [reflexivity|]. split.
    + change (File (set_ccw _ b)) with (File b).
      rewrite lookup_alter_eq, Hc. reflexivity.
    + unfold AddUint64. rewrite Hn, uint64_add_l. simpl. f_equal. unfold len.
      rewrite length_app, length_take. subst k. lia.
Qed.

Lemma coherent_update f :
  (forall b, ccw (f b) = ccw b /\ f_name (File (f b)) = f_name (File b)) ->
  preserves keeps_coherent (update f).
Proof.
  intros H. apply preserves_update; [apply _|].
  intros w b0 Hb0 (b & c & Hb & Hc & Hn). destruct (H b0) as [H1 H2].
  exists (f b0), c. simpl. split; [reflexivity|].
  assert (b0 = b) by congruence. subst b0. rewrite H1, H2. auto.
Qed.

Lemma coherent_still (f : World -> World) :
  (forall w, w_blob (f w) = w_blob w /\ w_disk (f w) = w_disk w) ->
  preserves keeps_coherent (modify f).
Proof.
  intros H w (b & c & Hb & Hc & Hn). destruct (H w) as [H1 H2].
  exists b, c. simpl. rewrite H1, H2. auto.
Qed.

End Pipeline.

Create HintDb coh.

Ltac coh_leaf :=
  first [ apply coherent_update; intros [? ? ? ? ? ? ? ?]; split; reflexivity
        | apply coherent_still; intros; split; reflexivity
        | solve [ eauto with coh ] ].

Section Sealing.

Context {compressor : Compressor} {minio : Minio} {tarfmt : TarFormat}.

Hint Resolve ccw_Write_coherent : coh.

Lemma gw_Write_coherent p : preserves keeps_coherent (gw_Write p).
Proof. unfold gw_Write, gw_compress, set_gz, log. pres coh_leaf. Qed.
Hint Resolve gw_Write_coherent : coh.

Lemma gw_Close_coherent : preserves keeps_coherent gw_Close.
Proof. unfold gw_Close, set_gz, log. pres coh_leaf. Qed.
Hint Resolve gw_Close_coherent : coh.

Lemma Write_coherent p : preserves keeps_coherent (Write p).
Proof.
  unfold Write, mw, MultiWriter, ucw_Write, hw_Write, pw_Write, log.
  pres coh_leaf.
Qed.
Hint Resolve Write_coherent : coh.

Lemma Close_coherent : preserves keeps_coherent Close.
Proof. unfold Close, pw_Finish, File_Close, log. pres coh_leaf. Qed.


End Sealing.

(* ===================================================================== *)
(** * Hash and size coherence                                             *)
(* ===================================================================== *)

Section Coherence.

Context {compressor : Compressor} {minio : Minio} {tarfmt : TarFormat}.

Lemma NewLocalBlob_ok w0 w1 :
  NewLocalBlob w0 = (Ret None, w1) ->
  exists name b,
    d_temp (w_disk w0) = Some name /\
    d_files (w_disk w0) !! name = None /\
    w_blob w1 = Some b /\
    payload b = ([], 0) /\ wiring b = (name, true) /\ ccw b = 0 /\
    d_files (w_disk w1) = <[name := []]> (d_files (w_disk w0)) /\
    w_trace w1 = w_trace w0 ++ [EvTempFile name].
Proof.
  unfold NewLocalBlob, TempFile. rewrite !run_bind. simpl.
  destruct (d_temp (w_disk w0)) as [name|] eqn:Et; simpl; [|discriminate].
  destruct (d_files (w_disk w0) !! name) eqn:Ef; simpl; [discriminate|].
  intros H. inversion H; subst; clear H. simpl.
  exists name. eexists. repeat split; eauto.
Qed.

Lemma keeps_some {X} (f : LocalBlob -> X) w w' b :
  keeps f w w' -> w_blob w = Some b ->
  exists b', w_blob w' = Some b' /\ f b' = f b.
Proof.
  unfold keeps. intros H Hb. rewrite Hb in H. simpl in H.
  destruct (w_blob w') as [b'|]; simpl in H; [|discriminate].
  exists b'. split; [reflexivity|congruence].
Qed.

Lemma ucw_Write_payload p w n err w' b :
  w_blob w = Some b ->
  ucw_Write p w = (Ret (n, err), w') ->
  exists b', w_blob w' = Some b' /\ hw b' = hw b /\
             ucw b' = AddUint64 (ucw b) n.
Proof.
  intros Hb. unfold ucw_Write. rewrite run_bind.
  pose proof (gw_Write_payload p w) as K.
  destruct (gw_Write p w) as [[[n0 e0]|msg] w0]; [|discriminate].
  simpl in K. destruct (keeps_some _ _ _ _ K Hb) as (b0 & Hb0 & E).
  rewrite run_bind, (update_some _ _ _ Hb0). simpl.
  intros H. inversion H; subst; clear H. simpl.
  eexists. split; [reflexivity|]. unfold payload in E. simpl.
  split; congruence.
Qed.

Lemma hw_Write_some p w b :
  w_blob w = Some b ->
  hw_Write p w =
  (Ret (len p, None),
   with_trace (w_trace w ++ [EvHash p])
     (with_blob (Some (set_hw (hw b ++ p) b)) w)).
Proof.
  intros Hb. unfold hw_Write. rewrite run_bind, (update_some _ _ _ Hb).
  reflexivity.
Qed.

Lemma pw_Write_some p w b :
  w_blob w = Some b ->
  pw_Write p w =
  (Ret (len p, None),
   with_trace (w_trace w ++ [EvProgress (len p)])
     (with_blob (Some (set_pw {| pb_current := pb_current (pw b) + len p;
                                 pb_finished := pb_finished (pw b) |} b)) w)).
Proof.
  intros Hb. unfold pw_Write. rewrite run_bind, (update_some _ _ _ Hb).
  reflexivity.
Qed.

(** A write that reports no error has taken the whole chunk: the hash
    has absorbed it and the uncompressed counter has moved by its
    length. *)
Lemma Write_success p w n w' b :
  w_blob w = Some b ->
  Write p w = (Ret (n, None), w') ->
  n = len p /\
  exists b', w_blob w' = Some b' /\
             payload b' = (hw b ++ p, AddUint64 (ucw b) (len p)).
Proof.
  intros Hb. unfold Write, mw, MultiWriter. rewrite run_bind.
  destruct (ucw_Write p w) as [[[n1 e1]|msg] w1] eqn:E1; [|discriminate].
  destruct (ucw_Write_payload _ _ _ _ _ _ Hb E1) as (b1 & Hb1 & Hh & Hu).
  destruct e1 as [e|]; [discriminate|].
  destruct (n1 =? len p) eqn:En; [|discriminate].
  apply Z.eqb_eq in En. subst n1.
  rewrite run_bind, (hw_Write_some _ _ _ Hb1), Z.eqb_refl.
  erewrite run_bind, pw_Write_some by reflexivity.
  rewrite Z.eqb_refl.
  intros H. inversion H; subst; clear H.
  split; [reflexivity|]. simpl. eexists. split; [reflexivity|].
  unfold payload. simpl. congruence.
Qed.

Lemma len_app {A} (l1 l2 : list A) : len (l1 ++ l2) = len l1 + len l2.
Proof. unfold len. rewrite length_app. lia. Qed.


Lemma int64_of_small x y :
  0 <= x < 2 ^ 63 -> uint64 y = uint64 x -> int64 y = x.
Proof.
  intros Hx E. unfold int64, uint64 in *. rewrite E.
  rewrite (Z.mod_small x) by lia.
  destruct (x <? 2 ^ 63) eqn:L; [reflexivity|]. apply Z.ltb_ge in L. lia.
Qed.

Lemma uint64_idem x : uint64 (uint64 x) = uint64 x.
Proof. unfold uint64. apply Z.mod_mod. lia. Qed.

Lemma len_nonneg {A} (l : list A) : 0 <= len l.
Proof. unfold len. lia. Qed.


End Coherence.

(* ===================================================================== *)
(** * The order of the effects of one write                               *)
(* ===================================================================== *)

Section Order.

Context {compressor : Compressor} {minio : Minio} {tarfmt : TarFormat}.

Lemma gw_compress_spool z p : preserves (extends is_spool) (gw_compress z p).
Proof.
  unfold gw_compress, set_gz.
  pres (first [ apply ccw_Write_spool | extends_leaf ]).
Qed.

Lemma gw_Write_trace p w r w' :
  gw_Write p w = (Ret r, w') ->
  exists spool,
    w_trace w' = w_trace w ++ EvGzip p :: spool /\
    forallb is_spool spool = true.
Proof.
  unfold gw_Write. rewrite run_bind. unfold deref.
  destruct (w_blob w) as [b|]; [|discriminate].
  destruct (gw b) as [z|]; [|discriminate].
  rewrite run_bind. simpl. intros H.
  pose proof (gw_compress_spool z p (with_trace (w_trace w ++ [EvGzip p]) w)) as K.
  rewrite H in K. destruct K as (spool & E & F). simpl in E.
  exists spool. split; [|exact F]. rewrite E, <- app_assoc. reflexivity.
Qed.

Lemma ucw_Write_trace p w n err w' :
  ucw_Write p w = (Ret (n, err), w') ->
  exists spool,
    w_trace w' = w_trace w ++ EvGzip p :: spool ++ [EvUcw n] /\
    forallb is_spool spool = true.
Proof.
  unfold ucw_Write. rewrite run_bind.
  destruct (gw_Write p w) as [[[n0 e0]|msg] w0] eqn:E0; [|discriminate].
  destruct (gw_Write_trace _ _ _ _ E0) as (spool & Et & F).
  rewrite run_bind. unfold update. rewrite run_bind. unfold deref.
  destruct (w_blob w0) as [b0|]; [|discriminate]. simpl.
  intros H. inversion H; subst; clear H. simpl.
  exists spool. split; [|exact F]. rewrite Et, <- app_assoc. reflexivity.
Qed.

(** C6 (amended). Whenever [Write] returns, the chunk has first been
    handed to the compression stage, which has written what it emitted
    to the spool file and counted it; then the uncompressed-byte counter
    has moved by what the compression stage accepted; and only then, if
    the compression stage accepted the whole chunk without error, the
    running hash has absorbed the chunk (and the progress bar has
    advanced).  When the compression stage fails the hash is left as it
    was. *)
Theorem write_effects_in_order p w n err w' :
  Write p w = (Ret (n, err), w') ->
  exists spool,
    forallb is_spool spool = true /\
    w_trace w' =
      w_trace w ++ EvGzip p :: spool ++ EvUcw n ::
        match err with
        | None => [EvHash p; EvProgress (len p)]
        | Some _ => []
        end.
Proof.
  unfold Write, mw, MultiWriter. rewrite run_bind.
  destruct (ucw_Write p w) as [[[n1 e1]|msg] w1] eqn:E1; [|discriminate].
  destruct (ucw_Write_trace _ _ _ _ _ E1) as (spool & Et & F).
  intros H. exists spool. split; [exact F|]. revert H.
  destruct e1 as [e|].
  { intros H. inversion H; subst. exact Et. }
  destruct (n1 =? len p) eqn:En.
  2:{ intros H. inversion H; subst. exact Et. }
  apply Z.eqb_eq in En. subst n1.
  rewrite run_bind. unfold hw_Write, update.
  rewrite !run_bind. unfold deref.
  destruct (w_blob w1) as [b1|] eqn:Hb1; [|discriminate].
  simpl. rewrite Z.eqb_refl.
  erewrite run_bind, pw_Write_some by reflexivity. rewrite Z.eqb_refl.
  intros H. inversion H; subst; clear H. simpl.
  rewrite Et, <- !app_assoc. simpl. rewrite <- app_assoc. reflexivity.
Qed.

End Order.

(* ===================================================================== *)
(** * The remote side: duplicate check and upload                         *)
(* ===================================================================== *)

Ltac rframe_leaf :=
  idtac;
  match goal with
  | |- preserves _ (modify _) =>
      apply remote_frame_modify; intros; repeat split
  end.

Ltac run_monad :=
  unfold mbind, M_bind, bind, ret, gets, modify, log, panic; simpl.

Section Remote.

Context {compressor : Compressor} {minio : Minio} {tarfmt : TarFormat}.


Lemma Hash_some w b : w_blob w = Some b -> Hash w = (Ret (Hash_of b), w).
Proof. intros H. unfold Hash. rewrite run_bind, (deref_some _ _ H). reflexivity. Qed.

Lemma Size_some w b : w_blob w = Some b -> Size w = (Ret (Size_of b), w).
Proof. intros H. unfold Size. rewrite run_bind, (deref_some _ _ H). reflexivity. Qed.

Lemma UncompressedSize_some w b :
  w_blob w = Some b -> UncompressedSize w = (Ret (UncompressedSize_of b), w).
Proof.
  intros H. unfold UncompressedSize.
  rewrite run_bind, (deref_some _ _ H). reflexivity.
Qed.

Lemma File_Name_some w b :
  w_blob w = Some b -> File_Name w = (Ret (f_name (File b)), w).
Proof. intros H. unfold File_Name. rewrite run_bind, (deref_some _ _ H). reflexivity. Qed.

(** [getClient] with a client at hand: the world is as before, or as
    before with the client now cached. *)
Lemma getClient_some w c :
  client_of (w_s3 w) = Some c ->
  getClient w = (Ret c, w) \/ getClient w = (Ret c, cached c w).
Proof.
  unfold client_of, getClient. rewrite run_bind. simpl.
  destruct (s3_client (w_s3 w)) as [c0|].
  - intros H. inversion H. left. reflexivity.
  - destruct (minio_New _ _ _ _) as [e|c0]; [discriminate|].
    intros H. inversion H. right. reflexivity.
Qed.

Lemma getClient_none w :
  client_of (w_s3 w) = None ->
  exists e,
    minio_New (Endpoint (config (w_s3 w))) (Key (config (w_s3 w)))
              (Secret (config (w_s3 w))) (SSL (config (w_s3 w))) = inl e /\
    s3_client (w_s3 w) = None /\
    getClient w = (Panic (Error e), w).
Proof.
  unfold client_of, getClient. rewrite run_bind. simpl.
  destruct (s3_client (w_s3 w)) as [c0|]; [discriminate|].
  destruct (minio_New _ _ _ _) as [e|c0]; [|discriminate].
  intros _. exists e. auto.
Qed.

Lemma client_GetObject_run c bucket key w :
  client_GetObject c bucket key w =
  (Ret (snd (mc_GetObject c (w_remote w) bucket key)),
   with_remote (fst (mc_GetObject c (w_remote w) bucket key))
     (with_trace (w_trace w ++ [EvGet bucket key]) w)).
Proof.
  unfold client_GetObject. run_monad.
  destruct (mc_GetObject c (w_remote w) bucket key). reflexivity.
Qed.

Lemma object_Stat_run c bucket key w :
  object_Stat c bucket key w =
  (Ret (snd (mc_Stat c (w_remote w) bucket key)),
   with_remote (fst (mc_Stat c (w_remote w) bucket key))
     (with_trace (w_trace w ++ [EvStat bucket key]) w)).
Proof.
  unfold object_Stat. run_monad.
  destruct (mc_Stat c (w_remote w) bucket key). reflexivity.
Qed.

Lemma client_FPutObject_run c bucket key path opts w :
  let res := mc_FPutObject c (w_remote w) bucket key
               (d_files (w_disk w) !! path) opts in
  client_FPutObject c bucket key path opts w =
  (Ret (snd res),
   with_remote (fst res)
     (with_trace (w_trace w ++ [EvPut bucket key path opts]) w)).
Proof.
  unfold client_FPutObject. run_monad.
  destruct (mc_FPutObject c (w_remote w) bucket key _ opts). reflexivity.
Qed.

Lemma client_RemoveObject_run c bucket key w :
  client_RemoveObject c bucket key w =
  (Ret (snd (mc_RemoveObject c (w_remote w) bucket key)),
   with_remote (fst (mc_RemoveObject c (w_remote w) bucket key))
     (with_trace (w_trace w ++ [EvDel bucket key]) w)).
Proof.
  unfold client_RemoveObject. run_monad.
  destruct (mc_RemoveObject c (w_remote w) bucket key). reflexivity.
Qed.


Lemma CheckDuplicate_run w b c :
  w_blob w = Some b -> client_of (w_s3 w) = Some c ->
  let bucket := Bucket (config (w_s3 w)) in
  let key := Sprintf_blob_x_gz (Hash_of b) in
  exists w',
    CheckDuplicate w =
      (Ret (match reported_size c (w_remote w) bucket key with
            | Some sz => Size_of b =? sz
            | None => false
            end), w') /\
    w_trace w' =
      w_trace w ++ EvGet bucket key ::
        match snd (mc_GetObject c (w_remote w) bucket key) with
        | Some _ => []
        | None => [EvStat bucket key]
        end.
Proof.
  intros Hb Hc bucket key. unfold CheckDuplicate, reported_size.
  rewrite run_bind, (Hash_some _ _ Hb). rewrite run_bind.
  destruct (getClient_some _ _ Hc) as [E|E]; rewrite E; clear E.
  all: rewrite run_bind; unfold Bucket_of at 1; unfold gets at 1.
  all: rewrite run_bind, client_GetObject_run; simpl.
  all: fold bucket; fold key.
  all: destruct (mc_GetObject c (w_remote w) bucket key) as [r1 [e|]]; simpl.
  all: try (eexists; split; reflexivity).
  all: rewrite run_bind, object_Stat_run; simpl.
  all: destruct (mc_Stat c r1 bucket key) as [r2 [e|info]]; simpl.
  all: try (eexists; split; [reflexivity|]; simpl; rewrite <- app_assoc; reflexivity).
  all: erewrite run_bind, Size_some by (simpl; exact Hb).
  all: destruct (Size_of b =? oi_Size info); simpl.
  all: eexists; split; [reflexivity|]; simpl; rewrite <- app_assoc; reflexivity.
Qed.

Lemma CheckDuplicate_no_client w b :
  w_blob w = Some b -> client_of (w_s3 w) = None ->
  exists e,
    minio_New (Endpoint (config (w_s3 w))) (Key (config (w_s3 w)))
              (Secret (config (w_s3 w))) (SSL (config (w_s3 w))) = inl e /\
    s3_client (w_s3 w) = None /\
    CheckDuplicate w = (Panic (Error e), w).
Proof.
  intros Hb Hc. unfold CheckDuplicate.
  rewrite run_bind, (Hash_some _ _ Hb). rewrite run_bind.
  destruct (getClient_none _ Hc) as (e & E1 & E2 & E). rewrite E. eauto.
Qed.

Lemma UploadBlob_no_client w b :
  w_blob w = Some b -> client_of (w_s3 w) = None ->
  exists msg, UploadBlob w = (Panic msg, w).
Proof.
  intros Hb Hc. unfold UploadBlob.
  rewrite run_bind, (Hash_some _ _ Hb).
  rewrite run_bind, (Size_some _ _ Hb). rewrite run_bind.
  destruct (getClient_none _ Hc) as (e & E1 & E2 & E). rewrite E. eauto.
Qed.

Lemma CheckDuplicate_nil w :
  w_blob w = None -> CheckDuplicate w = (Panic nil_deref, w).
Proof.
  intros Hb. unfold CheckDuplicate, Hash.
  rewrite !run_bind, (deref_none _ Hb). reflexivity.
Qed.

Lemma UploadBlob_run w b c :
  w_blob w = Some b -> client_of (w_s3 w) = Some c ->
  let bucket := Bucket (config (w_s3 w)) in
  let key := Sprintf_blob_x_gz (Hash_of b) in
  let path := f_name (File b) in
  let opts := upload_options b in
  let put := mc_FPutObject c (w_remote w) bucket key
               (d_files (w_disk w) !! path) opts in
  exists w',
    UploadBlob w =
      (Ret (match snd (snd put) with
            | Some e => Some (Wrap e "Error while uploading blob")
            | None => None
            end), w') /\
    w_trace w' =
      w_trace w ++ EvPut bucket key path opts ::
        match snd (snd put) with
        | Some _ => [EvDel bucket key]
        | None => []
        end /\
    w_remote w' =
      match snd (snd put) with
      | Some _ => fst (mc_RemoveObject c (fst put) bucket key)
      | None => fst put
      end.
Proof.
  intros Hb Hc bucket key path opts put. unfold UploadBlob.
  rewrite run_bind, (Hash_some _ _ Hb).
  rewrite run_bind, (Size_some _ _ Hb). rewrite run_bind.
  destruct (getClient_some _ _ Hc) as [E|E]; rewrite E; clear E.
  all: rewrite run_bind; unfold Bucket_of at 1; unfold gets at 1.
  all: erewrite run_bind, File_Name_some by (simpl; exact Hb).
  all: erewrite run_bind, UncompressedSize_some by (simpl; exact Hb).
  all: erewrite run_bind, deref_some by (simpl; exact Hb).
  all: rewrite run_bind, client_FPutObject_run; simpl.
  all: fold bucket; fold key; fold path; fold (upload_options b); fold opts.
  all: fold put; destruct put as [r1 [n [e|]]]; simpl.
  all: try (eexists; split; [reflexivity|]; split; reflexivity).
  all: rewrite run_bind, client_RemoveObject_run; simpl.
  all: eexists; split; [reflexivity|]; simpl.
  all: rewrite <- app_assoc; split; reflexivity.
Qed.


Lemma new_events_app w w' evs :
  w_trace w' = w_trace w ++ evs -> new_events w w' = evs.
Proof. intros E. unfold new_events. rewrite E. apply drop_app_length. Qed.

Lemma new_events_same w w' :
  w_trace w' = w_trace w -> new_events w w' = [].
Proof. intros E. unfold new_events. rewrite E. apply drop_all. Qed.

(** ** The key *)

Lemma hexdigit_high b :
  hexdigit (Z.shiftr (byte_to_Z b) 4) = lower_hex_digit (byte_to_Z b / 16).
Proof. destruct b; reflexivity. Qed.

Lemma hexdigit_low b :
  hexdigit (Z.land (byte_to_Z b) 15) = lower_hex_digit (byte_to_Z b mod 16).
Proof. destruct b; reflexivity. Qed.

Lemma fmt_x_lowercase_hex p : fmt_x p = lowercase_hex p.
Proof.
  induction p as [|b p IH]; simpl; [reflexivity|].
  rewrite hexdigit_high, hexdigit_low, IH. reflexivity.
Qed.

Lemma Sprintf_is_key digest : Sprintf_blob_x_gz digest = RemoteObjectKey digest.
Proof. unfold Sprintf_blob_x_gz, RemoteObjectKey. rewrite fmt_x_lowercase_hex. reflexivity. Qed.

(** C2. With a blob and a client at hand, [CheckDuplicate] returns (it
    does not abort), and it returns [true] exactly when the store
    reports, at the blob's key, an object whose size is [blob.Size()].
    When either lookup call fails -- the object is not found, the stat
    fails -- nothing is reported and the answer is [false]. *)
Theorem check_duplicate_iff w b c :
  w_blob w = Some b -> client_of (w_s3 w) = Some c ->
  let bucket := Bucket (config (w_s3 w)) in
  let key := RemoteObjectKey (Hash_of b) in
  exists dup,
    fst (CheckDuplicate w) = Ret dup /\
    (dup = true <->
     reported_size c (w_remote w) bucket key = Some (Size_of b)) /\
    (reported_size c (w_remote w) bucket key = None -> dup = false).
Proof.
  intros Hb Hc bucket key.
  destruct (CheckDuplicate_run _ _ _ Hb Hc) as (w' & E & _).
  rewrite E. simpl. rewrite Sprintf_is_key. fold bucket. fold key.
  eexists. split; [reflexivity|].
  destruct (reported_size c (w_remote w) bucket key) as [sz|].
  - split; [|discriminate]. rewrite Z.eqb_eq. split.
    + intros ->. reflexivity.
    + intros H. inversion H. reflexivity.
  - split; [|reflexivity]. split; discriminate.
Qed.

Lemma remote_calls_name_key w b c :
  w_blob w = Some b -> client_of (w_s3 w) = Some c ->
  let bucket := Bucket (config (w_s3 w)) in
  let key := RemoteObjectKey (Hash_of b) in
  let path := f_name (File b) in
  let opts := upload_options b in
  new_events w (snd (CheckDuplicate w)) =
    EvGet bucket key ::
      match snd (mc_GetObject c (w_remote w) bucket key) with
      | Some _ => []
      | None => [EvStat bucket key]
      end /\
  new_events w (snd (UploadBlob w)) =
    EvPut bucket key path opts ::
      match snd (snd (mc_FPutObject c (w_remote w) bucket key
                        (d_files (w_disk w) !! path) opts)) with
      | Some _ => [EvDel bucket key]
      | None => []
      end.
Proof.
  intros Hb Hc bucket key path opts. subst bucket key path opts.
  rewrite <- !Sprintf_is_key. split.
  - destruct (CheckDuplicate_run _ _ _ Hb Hc) as (w' & E & Et).
    rewrite E. simpl. exact (new_events_app _ _ _ Et).
  - destruct (UploadBlob_run _ _ _ Hb Hc) as (w' & E & Et & _).
    rewrite E. simpl. exact (new_events_app _ _ _ Et).
Qed.

(** C3. The key is ["blob/" ++ lowercase-hex(digest) ++ ".gz"]: that is
    what [Sprintf] yields; with a blob and a client at hand, the
    duplicate check calls [GetObject] (and [Stat], when that goes
    through) on that key and the upload calls [FPutObject] (and
    [RemoveObject], when that fails) on that key, and on no other; and
    so for a second blob with the same digest the check and the upload
    name the same key, whatever its [Reference] and [IsDir]. *)
Theorem object_key_format w b c :
  w_blob w = Some b -> client_of (w_s3 w) = Some c ->
  let bucket := Bucket (config (w_s3 w)) in
  let key := RemoteObjectKey (Hash_of b) in
  let path := f_name (File b) in
  let opts := upload_options b in
  Sprintf_blob_x_gz (Hash_of b) = key /\
  new_events w (snd (CheckDuplicate w)) =
    EvGet bucket key ::
      match snd (mc_GetObject c (w_remote w) bucket key) with
      | Some _ => []
      | None => [EvStat bucket key]
      end /\
  new_events w (snd (UploadBlob w)) =
    EvPut bucket key path opts ::
      match snd (snd (mc_FPutObject c (w_remote w) bucket key
                        (d_files (w_disk w) !! path) opts)) with
      | Some _ => [EvDel bucket key]
      | None => []
      end /\
  (forall w' b' c',
     w_blob w' = Some b' -> client_of (w_s3 w') = Some c' ->
     Hash_of b' = Hash_of b ->
     exists rest rest',
       new_events w' (snd (CheckDuplicate w')) =
         EvGet (Bucket (config (w_s3 w'))) key :: rest /\
       new_events w' (snd (UploadBlob w')) =
         EvPut (Bucket (config (w_s3 w'))) key (f_name (File b'))
               (upload_options b') :: rest').
Proof.
  intros Hb Hc bucket key path opts.
  split; [apply Sprintf_is_key|].
  destruct (remote_calls_name_key _ _ _ Hb Hc) as [E1 E2].
  split; [exact E1|]. split; [exact E2|].
  intros w' b' c' Hb' Hc' Hh.
  destruct (remote_calls_name_key _ _ _ Hb' Hc') as [E1' E2'].
  rewrite Hh in E1', E2'. eauto.
Qed.

(** C7. With a blob and a client at hand: when the put fails with [e],
    [UploadBlob] makes exactly one delete call, on the blob's key, and
    returns [e] wrapped -- the delete's answer shows nowhere in the
    result; when the put succeeds there is no delete and no error. *)
Theorem upload_blob_cleanup w b c :
  w_blob w = Some b -> client_of (w_s3 w) = Some c ->
  let bucket := Bucket (config (w_s3 w)) in
  let key := RemoteObjectKey (Hash_of b) in
  let path := f_name (File b) in
  let opts := upload_options b in
  let put := mc_FPutObject c (w_remote w) bucket key
               (d_files (w_disk w) !! path) opts in
  match snd (snd put) with
  | Some e =>
      fst (UploadBlob w) = Ret (Some (Wrap e "Error while uploading blob")) /\
      new_events w (snd (UploadBlob w)) =
        [EvPut bucket key path opts; EvDel bucket key] /\
      w_remote (snd (UploadBlob w)) =
        fst (mc_RemoveObject c (fst put) bucket key)
  | None =>
      fst (UploadBlob w) = Ret None /\
      new_events w (snd (UploadBlob w)) = [EvPut bucket key path opts] /\
      w_remote (snd (UploadBlob w)) = fst put
  end.
Proof.
  intros Hb Hc bucket key path opts put.
  destruct (UploadBlob_run _ _ _ Hb Hc) as (w' & E & Et & Er).
  rewrite E. simpl. apply new_events_app in Et. revert Et Er.
  rewrite Sprintf_is_key. fold bucket key path opts put.
  destruct (snd (snd put)); intros Et Er; repeat split; assumption.
Qed.

(** ** The duplicate check reads only *)

Lemma lookup_not_put e : is_lookup e = true -> is_put e = false /\ is_del e = false.
Proof. destruct e; simpl; auto; discriminate. Qed.

Lemma CheckDuplicate_frame : preserves remote_frame CheckDuplicate.
Proof.
  unfold CheckDuplicate, Hash, getClient, Bucket_of, client_GetObject,
    object_Stat, Size, log.
  pres rframe_leaf.
Qed.

Lemma CheckDuplicate_lookups : preserves (extends is_lookup) CheckDuplicate.
Proof.
  unfold CheckDuplicate, Hash, getClient, Bucket_of, client_GetObject,
    object_Stat, Size.
  pres extends_leaf.
Qed.

(** C10. [CheckDuplicate] is read-only.  Whatever the store answers, the
    blob, the spool storage, the tar writer and the source tree are
    afterwards what they were; the calls it makes on the store are
    lookups, none of them a put or a delete; and its outcome is a
    function of the blob, the client and the state of the store -- with
    the same blob and the same client, two calls can differ only if the
    store differs. *)
Theorem check_duplicate_read_only w1 w2 :
  w_blob w1 = w_blob w2 ->
  config (w_s3 w1) = config (w_s3 w2) ->
  client_of (w_s3 w1) = client_of (w_s3 w2) ->
  w_remote w1 = w_remote w2 ->
  remote_frame w1 (snd (CheckDuplicate w1)) /\
  (exists evs, w_trace (snd (CheckDuplicate w1)) = w_trace w1 ++ evs /\
               forallb is_lookup evs = true /\
               List.filter is_put evs = [] /\ List.filter is_del evs = []) /\
  fst (CheckDuplicate w1) = fst (CheckDuplicate w2).
Proof.
  intros Hb Hcfg Hc Hr. split; [apply CheckDuplicate_frame|]. split.
  - destruct (CheckDuplicate_lookups w1) as (evs & E & F).
    exists evs. split; [exact E|]. split; [exact F|].
    clear E. induction evs as [|e evs IH]; [auto|].
    simpl in F. apply andb_prop in F. destruct F as [Fe F].
    destruct (lookup_not_put _ Fe) as [P D]. simpl. rewrite P, D.
    destruct (IH F). auto.
  - destruct (w_blob w1) as [b|] eqn:Hb1.
    + symmetry in Hb. destruct (client_of (w_s3 w1)) as [c|] eqn:Hc1.
      * symmetry in Hc.
        destruct (CheckDuplicate_run _ _ _ Hb1 Hc1) as (w1' & E1 & _).
        destruct (CheckDuplicate_run _ _ _ Hb Hc) as (w2' & E2 & _).
        rewrite E1, E2. simpl. rewrite Hcfg, Hr. reflexivity.
      * symmetry in Hc.
        destruct (CheckDuplicate_no_client _ _ Hb1 Hc1) as (e1 & M1 & _ & E1).
        destruct (CheckDuplicate_no_client _ _ Hb Hc) as (e2 & M2 & _ & E2).
        rewrite E1, E2. simpl. rewrite Hcfg in M1. congruence.
    + symmetry in Hb.
      rewrite (CheckDuplicate_nil _ Hb1), (CheckDuplicate_nil _ Hb).
      reflexivity.
Qed.

End Remote.

(* ===================================================================== *)
(** * UploadDir: deferred calls, early exit, cleanup                      *)
(* ===================================================================== *)

Section Orchestration.

Context {compressor : Compressor} {minio : Minio} {tarfmt : TarFormat}.

Lemma defer_run {A B} (d : M B) (body : M A) w :
  defer d body w =
  match d (snd (body w)) with
  | (Ret _, w'') => (fst (body w), w'')
  | (Panic msg, w'') => (Panic msg, w'')
  end.
Proof. unfold defer. destruct (body w). reflexivity. Qed.

Lemma defer_last {A B} (d : M B) (body : M A) w :
  snd (defer d body w) = snd (d (snd (body w))).
Proof. rewrite defer_run. destruct (d (snd (body w))) as [[x|msg] w'']; reflexivity. Qed.

Lemma os_Remove_run name w :
  exists e, fst (os_Remove name w) = Ret e.
Proof.
  unfold os_Remove. run_monad.
  destruct (d_files (w_disk w) !! name); simpl; eauto.
Qed.

Lemma os_Remove_gone name w :
  d_files (w_disk (snd (os_Remove name w))) !! name = None.
Proof.
  unfold os_Remove. run_monad.
  destruct (d_files (w_disk w) !! name) eqn:E; simpl.
  - apply lookup_delete_eq.
  - exact E.
Qed.

(** C5. Once [NewLocalBlob] has created the spool file, [UploadDir]
    returns -- or panics -- only after removing it: whatever path the
    call takes (packing fails, the flush fails, the duplicate check says
    yes, the upload fails or succeeds, the client cannot be made), the
    file that existed right after its creation does not exist in the
    world the call leaves. *)
Theorem spool_file_removed src w0 w1 :
  NewLocalBlob w0 = (Ret None, w1) ->
  exists name b,
    w_blob w1 = Some b /\ f_name (File b) = name /\
    d_files (w_disk w1) !! name = Some [] /\
    d_files (w_disk (snd (UploadDir src w0))) !! name = None.
Proof.
  intros Hnew.
  destruct (NewLocalBlob_ok _ _ Hnew)
    as (name & b1 & _ & _ & Hb1 & _ & Hw1 & _ & Hf1 & _).
  unfold wiring in Hw1. injection Hw1 as Hn1 _.
  exists name, b1. split; [exact Hb1|]. split; [exact Hn1|]. split.
  - rewrite Hf1. apply lookup_insert_eq.
  - unfold UploadDir. rewrite run_bind, Hnew.
    rewrite run_bind, (update_some _ _ _ Hb1).
    erewrite run_bind, File_Name_some by reflexivity. simpl.
    rewrite defer_last, Hn1. apply os_Remove_gone.
Qed.


(** ** [Close] returns when the blob is wired, and leaves it wired *)

Lemma ccw_Write_returns p w b :
  w_blob w = Some b ->
  exists r w' b', ccw_Write p w = (Ret r, w') /\ w_blob w' = Some b' /\
                  wiring b' = wiring b.
Proof.
  intros Hb. unfold ccw_Write. rewrite run_bind.
  destruct (f_closed (File b)) eqn:Ec.
  - rewrite (File_Write_closed _ _ _ Hb Ec).
    rewrite run_bind, (update_some _ _ _ Hb). simpl. eauto 6.
  - rewrite (File_Write_open _ _ _ Hb Ec).
    erewrite run_bind, update_some by (simpl; exact Hb). simpl.
    do 3 eexists. split; [reflexivity|]. simpl. split; reflexivity.
Qed.

Lemma gw_Close_returns w b z :
  w_blob w = Some b -> gw b = Some z ->
  exists e w', gw_Close w = (Ret e, w').
Proof.
  intros Hb Hz. unfold gw_Close. rewrite run_bind, (deref_some _ _ Hb), Hz.
  destruct (z_err z); [eauto|]. destruct (z_closed z); [eauto|].
  rewrite run_bind. unfold log at 1, modify at 1.
  unfold set_gz. erewrite run_bind, update_some by (simpl; exact Hb).
  rewrite run_bind.
  edestruct (ccw_Write_returns (gz_close (z_st z))) as ([n e] & w1 & b1 & E & Hb1 & _);
    [|rewrite E]; [reflexivity|].
  destruct e as [e|]; [|eauto].
  rewrite run_bind, (update_some _ _ _ Hb1). eauto.
Qed.

Lemma File_Close_returns w b :
  w_blob w = Some b -> exists e w', File_Close w = (Ret e, w').
Proof.
  intros Hb. unfold File_Close. rewrite run_bind, (deref_some _ _ Hb).
  destruct (f_closed (File b)); [eauto|].
  rewrite run_bind, (update_some _ _ _ Hb). run_monad. eauto.
Qed.

Lemma Close_returns w b z :
  w_blob w = Some b -> gw b = Some z ->
  exists e w', Close w = (Ret e, w').
Proof.
  intros Hb Hz. unfold Close, pw_Finish.
  rewrite run_bind, (update_some _ _ _ Hb). rewrite run_bind.
  edestruct gw_Close_returns as (e1 & w1 & E1); [| |rewrite E1];
    [reflexivity|exact Hz|].
  pose proof (gw_Close_wiring
                (with_blob (Some (set_pw {| pb_current := pb_current (pw b);
                                            pb_finished := true |} b)) w)) as K.
  rewrite E1 in K. simpl in K.
  edestruct (keeps_some wiring) as (b1 & Hb1 & _); [exact K|reflexivity|].
  apply (File_Close_returns _ _ Hb1).
Qed.

Lemma Close_wired w e w' :
  Close w = (Ret e, w') ->
  exists b z, w_blob w' = Some b /\ gw b = Some z.
Proof.
  intros H. pose proof (Close_wiring w) as K. rewrite H in K. simpl in K.
  revert H. unfold Close, pw_Finish. rewrite run_bind.
  destruct (w_blob w) as [b|] eqn:Hb.
  2:{ rewrite (update_none _ _ Hb). discriminate. }
  rewrite (update_some _ _ _ Hb). rewrite run_bind. unfold gw_Close at 1.
  erewrite run_bind, deref_some by reflexivity. simpl.
  destruct (gw b) as [z|] eqn:Hz; [|discriminate]. intros _.
  destruct (keeps_some _ _ _ _ K Hb) as (b' & Hb' & Ew).
  unfold wiring in Ew. rewrite Hz in Ew. injection Ew as _ Eg.
  destruct (gw b') as [z'|] eqn:Hz'; [eauto|discriminate].
Qed.

Lemma UploadBlob_frame : preserves remote_frame UploadBlob.
Proof.
  unfold UploadBlob, Hash, getClient, Bucket_of, client_FPutObject,
    client_RemoveObject, Size, UncompressedSize, File_Name, log.
  pres rframe_leaf.
Qed.

Lemma no_put_filter evs :
  forallb (fun e => negb (is_put e)) evs = true -> List.filter is_put evs = [].
Proof.
  induction evs as [|e evs IH]; simpl; [auto|].
  intros H. apply andb_prop in H. destruct H as [He H].
  destruct (is_put e); [discriminate|]. auto.
Qed.

Lemma local_no_put e : is_local e = true -> negb (is_put e) = true.
Proof. destruct e; simpl; auto. Qed.

Lemma lookup_no_put e : is_lookup e = true -> negb (is_put e) = true.
Proof. destruct e; simpl; auto. Qed.

Lemma extends_weaken (P Q : Event -> bool) w w' :
  (forall e, P e = true -> Q e = true) -> extends P w w' -> extends Q w w'.
Proof.
  intros HPQ (evs & E & F). exists evs. split; [exact E|].
  rewrite forallb_forall in *. auto.
Qed.

(** C4. Take a run of [UploadDir] that gets to the duplicate check (the
    blob was created, the directory packed, the blob closed, without
    error), with [b] the blob at that point.  If the check answers
    [true], the run returns the blob's digest and no error, and no put
    call appears anywhere in its trace.  If the check answers [false]
    and the upload fails with [e], the run returns the digest together
    with [e] wrapped. *)
Theorem upload_dir_after_check src w0 w3 dup w4 :
  reaches_check src w0 w3 ->
  CheckDuplicate w3 = (Ret dup, w4) ->
  exists b,
    w_blob w3 = Some b /\
    (dup = true ->
       fst (UploadDir src w0) = Ret (Some (Hash_of b), None) /\
       List.filter is_put (new_events w0 (snd (UploadDir src w0))) = []) /\
    (dup = false ->
       forall e w5, UploadBlob w4 = (Ret (Some e), w5) ->
         fst (UploadDir src w0) =
           Ret (Some (Hash_of b), Some (Wrap e "Failed to upload dir"))).
Proof.
  intros (w1 & w2 & Hnew & Htar & Hcl) Hcd.
  destruct (NewLocalBlob_ok _ _ Hnew)
    as (name & b1 & _ & _ & Hb1 & _ & _ & _ & _ & _).
  rewrite (update_some _ _ _ Hb1) in Htar. simpl in Htar.
  destruct (Close_wired _ _ _ Hcl) as (b & z & Hb & Hz).
  pose proof (CheckDuplicate_frame w3) as F4. rewrite Hcd in F4.
  destruct F4 as (Hb4 & _). simpl in Hb4. rewrite Hb in Hb4.
  exists b. split; [exact Hb|].
  assert (Hrun : forall r wb,
            UploadDir_body src (with_blob (Some (set_IsDir true b1)) w1)
              = (Ret r, wb) ->
            w_blob wb = Some b ->
            fst (UploadDir src w0) = Ret r /\
            exists wc wd,
              Close wb = (fst (Close wb), wc) /\ extends is_local wb wc /\
              extends is_local wc wd /\ snd (UploadDir src w0) = wd).
  { intros r wb Hbody Hwb. unfold UploadDir.
    rewrite run_bind, Hnew. rewrite run_bind, (update_some _ _ _ Hb1).
    erewrite run_bind, File_Name_some by reflexivity.
    rewrite !defer_run, Hbody. simpl.
    destruct (Close_returns _ _ _ Hwb Hz) as (e5 & w5 & E5).
    pose proof (Close_local wb) as L5. rewrite E5 in *. simpl in L5. simpl.
    destruct (os_Remove_run (f_name (File b1)) w5) as (e6 & E6).
    pose proof (os_Remove_local (f_name (File b1)) w5) as L6.
    destruct (os_Remove (f_name (File b1)) w5) as [r6 w6]. simpl in *. subst r6.
    split; [reflexivity|]. exists w5, w6. auto. }
  assert (L03 : extends is_local w0 w3).
  { pose proof (NewLocalBlob_local w0) as L1. rewrite Hnew in L1.
    pose proof (TarDir_local src (with_blob (Some (set_IsDir true b1)) w1)) as L2.
    rewrite Htar in L2.
    pose proof (Close_local w2) as L3. rewrite Hcl in L3. simpl in *.
    etransitivity; [exact L1|]. etransitivity; [|etransitivity; [exact L2|exact L3]].
    exists []. simpl. rewrite app_nil_r. auto. }
  split.
  - intros ->.
    destruct (Hrun (Some (Hash_of b), None) w4) as (Hr & wc & wd & _ & L5 & L6 & Hw).
    + unfold UploadDir_body. rewrite run_bind, Htar. rewrite run_bind, Hcl.
      rewrite run_bind, Hcd. rewrite run_bind, (Hash_some _ _ Hb4). reflexivity.
    + exact Hb4.
    + split; [exact Hr|]. rewrite Hw.
      pose proof (CheckDuplicate_lookups w3) as L4. rewrite Hcd in L4. simpl in L4.
      assert (L : extends (fun e => negb (is_put e)) w0 wd).
      { etransitivity; [apply (extends_weaken _ _ _ _ local_no_put L03)|].
        etransitivity; [apply (extends_weaken _ _ _ _ lookup_no_put L4)|].
        etransitivity; [apply (extends_weaken _ _ _ _ local_no_put L5)|].
        apply (extends_weaken _ _ _ _ local_no_put L6). }
      destruct L as (evs & E & Fa). rewrite (new_events_app _ _ _ E).
      apply no_put_filter. exact Fa.
  - intros -> e w5 Hup.
    pose proof (UploadBlob_frame w4) as F5. rewrite Hup in F5.
    destruct F5 as (Hb5 & _). simpl in Hb5. rewrite Hb4 in Hb5.
    destruct (Hrun (Some (Hash_of b), Some (Wrap e "Failed to upload dir")) w5)
      as (Hr & _).
    + unfold UploadDir_body. rewrite run_bind, Htar. rewrite run_bind, Hcl.
      rewrite run_bind, Hcd. rewrite run_bind, Hup.
      rewrite run_bind, (Hash_some _ _ Hb5). reflexivity.
    + exact Hb5.
    + exact Hr.
Qed.

End Orchestration.

Section Sealed.

Context {compressor : Compressor} {minio : Minio} {tarfmt : TarFormat}.

#[global] Instance same_verdict_preorder : PreOrder same_verdict.
Proof.
  split; unfold same_verdict; [intros w|intros w1 w2 w3 H1 H2]; congruence.
Qed.

Lemma verdict_modify (f : World -> World) :
  (forall w, d_close_err (w_disk (f w)) = d_close_err (w_disk w)) ->
  preserves same_verdict (modify f).
Proof. intros H w. apply H. Qed.

Lemma verdict_update f : preserves same_verdict (update f).
Proof. apply preserves_update; [apply _|]. intros w b _. reflexivity. Qed.

Lemma verdict_log e : preserves same_verdict (log e).
Proof. apply verdict_modify. reflexivity. Qed.

Lemma gw_Close_verdict : preserves same_verdict gw_Close.
Proof.
  unfold gw_Close, set_gz, ccw_Write, File_Write.
  pres (first [ apply verdict_update | apply verdict_log
              | apply verdict_modify; reflexivity ]).
Qed.

Lemma gw_Close_open :
  preserves (keeps (fun b => f_closed (File b))) gw_Close.
Proof. unfold gw_Close, set_gz, ccw_Write, File_Write. pres keeps_leaf. Qed.

(** What [Close] returns is what closing the file reports, and nothing
    else: whether the compressor could flush does not show. *)
Lemma Close_result w b z :
  w_blob w = Some b -> gw b = Some z -> f_closed (File b) = false ->
  fst (Close w) = Ret (d_close_err (w_disk w)).
Proof.
  intros Hb Hz Hc. unfold Close, pw_Finish.
  rewrite run_bind, (update_some _ _ _ Hb). rewrite run_bind.
  set (w0 := with_blob _ w).
  assert (Hb0 : w_blob w0 = Some (set_pw {| pb_current := pb_current (pw b);
                                            pb_finished := true |} b))
    by reflexivity.
  destruct (gw_Close_returns w0 _ z Hb0 Hz) as (e1 & w1 & E1).
  pose proof (gw_Close_verdict w0) as V. pose proof (gw_Close_open w0) as K.
  rewrite E1 in *. simpl in V, K.
  destruct (keeps_some _ _ _ _ K Hb0) as (b1 & Hb1 & Ec). simpl in Ec.
  unfold File_Close. rewrite run_bind, (deref_some _ _ Hb1), Ec, Hc.
  rewrite run_bind, (update_some _ _ _ Hb1). run_monad. rewrite V. reflexivity.
Qed.

End Sealed.

(* ===================================================================== *)
(** * Packing is deterministic                                            *)
(* ===================================================================== *)

Section Blind.

Context {compressor : Compressor} {minio : Minio} {tarfmt : TarFormat}.

Lemma tree_blind_ret {A} (a : A) : tree_blind (ret a).
Proof. intros t w. reflexivity. Qed.

Lemma tree_blind_panic {A} msg : tree_blind (panic msg : M A).
Proof. intros t w. reflexivity. Qed.

Lemma tree_blind_gets {A} (f : World -> A) :
  (forall t w, f (with_tree t w) = f w) -> tree_blind (gets f).
Proof. intros H t w. unfold gets. simpl. rewrite H. reflexivity. Qed.

Lemma tree_blind_modify (f : World -> World) :
  (forall t w, f (with_tree t w) = with_tree t (f w)) -> tree_blind (modify f).
Proof. intros H t w. unfold modify. simpl. rewrite H. reflexivity. Qed.

Lemma tree_blind_log e : tree_blind (log e).
Proof. apply tree_blind_modify. reflexivity. Qed.

Lemma tree_blind_deref : tree_blind deref.
Proof. intros t w. unfold deref. simpl. destruct (w_blob w); reflexivity. Qed.

Lemma tree_blind_bind {A B} (m : M A) (k : A -> M B) :
  tree_blind m -> (forall a, tree_blind (k a)) -> tree_blind (m ≫= k).
Proof.
  intros Hm Hk t w. rewrite !run_bind, Hm.
  destruct (m w) as [[a|msg] w1]; simpl; [apply Hk|reflexivity].
Qed.

Lemma tree_blind_update f : tree_blind (update f).
Proof.
  unfold update. apply tree_blind_bind; [apply tree_blind_deref|].
  intros b. apply tree_blind_modify. reflexivity.
Qed.

Lemma tree_blind_defer {A B} (d : M B) (body : M A) :
  tree_blind body -> tree_blind d -> tree_blind (defer d body).
Proof.
  intros Hb Hd t w. rewrite !defer_run. rewrite (Hb t w). simpl.
  rewrite (Hd t (snd (body w))).
  destruct (d (snd (body w))) as [[x|msg] w2]; reflexivity.
Qed.

End Blind.

Create HintDb blind.

Ltac blind_step :=
  first
    [ apply tree_blind_ret
    | apply tree_blind_panic
    | apply tree_blind_deref
    | apply tree_blind_update
    | apply tree_blind_log
    | match goal with
      | |- tree_blind (gets _) => apply tree_blind_gets; reflexivity
      | |- tree_blind (modify _) => apply tree_blind_modify; reflexivity
      end
    | solve [ eauto with blind ]
    | apply tree_blind_bind; [ | intros ? ]
    | apply tree_blind_defer
    | match goal with
      | |- tree_blind (match ?x with _ => _ end) => destruct x
      end ].

Ltac blind := repeat blind_step.

Section Packing.

Context {compressor : Compressor} {minio : Minio} {tarfmt : TarFormat}.

Lemma Write_blind p : tree_blind (Write p).
Proof.
  unfold Write, mw, MultiWriter, ucw_Write, hw_Write, pw_Write, gw_Write,
    gw_compress, set_gz, ccw_Write, File_Write.
  blind.
Qed.
Hint Resolve Write_blind : blind.

Lemma tw_Flush_blind : tree_blind tw_Flush.
Proof. unfold tw_Flush, set_tw. blind. Qed.
Hint Resolve tw_Flush_blind : blind.

Lemma tw_WriteHeader_blind h : tree_blind (tw_WriteHeader h).
Proof. unfold tw_WriteHeader, set_tw. blind. Qed.
Hint Resolve tw_WriteHeader_blind : blind.

Lemma tw_Write_blind p : tree_blind (tw_Write p).
Proof. unfold tw_Write, set_tw. blind. Qed.
Hint Resolve tw_Write_blind : blind.

Lemma tw_Close_blind : tree_blind tw_Close.
Proof. unfold tw_Close, set_tw. blind. Qed.
Hint Resolve tw_Close_blind : blind.

Lemma copyLoop_blind fuel : forall data written,
  tree_blind (copyLoop fuel data written).
Proof. induction fuel as [|fuel IH]; intros data written; simpl; blind. Qed.
Hint Resolve copyLoop_blind : blind.

Lemma walkFn_blind src file fi opened err :
  tree_blind (walkFn src file fi opened err).
Proof. unfold walkFn, CopyBuffer. blind. Qed.
Hint Resolve walkFn_blind : blind.

Lemma walk_blind src n : forall path, tree_blind (walk src path n).
Proof.
  induction n using Node_mut with
    (P0 := fun cs => forall path, tree_blind (walk_children src path cs));
    intros path; simpl; blind.
Qed.
Hint Resolve walk_blind : blind.

Lemma pack_blind src n :
  tree_blind (tar_NewWriter ≫= λ _, defer tw_Close (walk src src n)).
Proof. unfold tar_NewWriter, set_tw. blind. Qed.

(** ** Timestamps do not reach the stream *)

Lemma tw_WriteHeader_ext h1 h2 :
  normalise h1 = normalise h2 -> tw_WriteHeader h1 = tw_WriteHeader h2.
Proof. intros E. unfold tw_WriteHeader. cbv zeta. rewrite E. reflexivity. Qed.

Lemma walkFn_strip src file fi opened err :
  walkFn src file (Some (strip_times fi)) opened err =
  walkFn src file (Some fi) opened err.
Proof.
  unfold walkFn. destruct err; [reflexivity|].
  unfold FileInfoHeader, IsRegular. simpl.
  destruct (fi_Kind fi); simpl; try reflexivity;
    (erewrite tw_WriteHeader_ext; [reflexivity|reflexivity]).
Qed.

#[local] Arguments walkFn : simpl never.

Lemma walk_strip src n : forall path w,
  walk src path (strip_node n) w = walk src path n w.
Proof.
  induction n using Node_mut with
    (P0 := fun cs => forall path w,
             walk_children src path (strip_children cs) w =
             walk_children src path cs w);
    intros path w; simpl; try reflexivity.
  - rewrite !walkFn_strip.
    replace (IsDir_fi (strip_times fi)) with (IsDir_fi fi) by reflexivity.
    destruct (IsDir_fi fi); simpl; [|reflexivity].
    rewrite !run_bind.
    destruct (walkFn src path (Some fi) data dirErr w) as [[e1|msg] w1];
      [|reflexivity].
    destruct dirErr, e1; try reflexivity. apply IHn.
  - rewrite !run_bind, IHn.
    destruct (walk src (Join path name) n w) as [[e1|msg] w1]; [|reflexivity].
    destruct e1; [reflexivity|]. apply IHn0.
Qed.

Lemma strip_broken n e : strip_node n = Broken e -> n = Broken e.
Proof. destruct n; simpl; [discriminate|auto]. Qed.

Lemma TarDir_root src w :
  TarDir src w =
  match w_tree w !! src with
  | None =>
      (Ret (Some (ErrNew "Unable to tar files - no such file or directory")), w)
  | Some (Broken e) =>
      (Ret (Some (ErrNew ("Unable to tar files - " ++ Error e))), w)
  | Some n => (tar_NewWriter ≫= λ _, defer tw_Close (walk src src n)) w
  end.
Proof.
  unfold TarDir. rewrite run_bind. unfold gets. simpl.
  destruct (w_tree w !! src) as [[| ]|]; reflexivity.
Qed.

Lemma pack_strip src n w :
  (tar_NewWriter ≫= λ _, defer tw_Close (walk src src (strip_node n))) w =
  (tar_NewWriter ≫= λ _, defer tw_Close (walk src src n)) w.
Proof.
  rewrite !run_bind. destruct (tar_NewWriter w) as [[x|msg] w1]; [|reflexivity].
  rewrite !defer_run, walk_strip. reflexivity.
Qed.

(** C9. Packing is deterministic.  Take one world and two source trees
    that agree on names, kinds, modes, owners, sizes, contents and entry
    order, and differ at most in modification, access and change times.
    Packing either gives the same outcome and leaves the same world but
    for the tree itself: the same calls on the writer, hence the same
    uncompressed stream, and the same digest. *)
Theorem packing_deterministic src t1 t2 w :
  same_up_to_times t1 t2 ->
  let r1 := TarDir src (with_tree t1 w) in
  let r2 := TarDir src (with_tree t2 w) in
  fst r1 = fst r2 /\
  snd r2 = with_tree t2 (snd r1) /\
  written (w_trace (snd r1)) = written (w_trace (snd r2)) /\
  Hash_of <$> w_blob (snd r1) = Hash_of <$> w_blob (snd r2).
Proof.
  intros Hs r1 r2.
  assert (E : fst r1 = fst r2 /\ snd r2 = with_tree t2 (snd r1)).
  { subst r1 r2. rewrite !TarDir_root. simpl.
    assert (Hl : strip_node <$> (t1 !! src) = strip_node <$> (t2 !! src)).
    { rewrite <- !lookup_fmap. unfold same_up_to_times in Hs. rewrite Hs. reflexivity. }
    destruct (t1 !! src) as [n1|], (t2 !! src) as [n2|]; simpl in Hl;
      try discriminate; [|split; reflexivity].
    injection Hl as Hl.
    assert (Hp : forall v,
      (tar_NewWriter ≫= λ _, defer tw_Close (walk src src n1)) v =
      (tar_NewWriter ≫= λ _, defer tw_Close (walk src src n2)) v).
    { intros v. rewrite <- (pack_strip src n1), <- (pack_strip src n2), Hl.
      reflexivity. }
    destruct n1 as [fi1 d1 de1 c1|e1], n2 as [fi2 d2 de2 c2|e2];
      simpl in Hl; try discriminate.
    - rewrite (pack_blind src _ t1 w), (pack_blind src _ t2 w), Hp.
      split; reflexivity.
    - injection Hl as ->. split; reflexivity. }
  destruct E as [E1 E2]. split; [exact E1|]. split; [exact E2|].
  rewrite E2. split; reflexivity.
Qed.

End Packing.

(* ===================================================================== *)
(** * Further properties of the package                                   *)
(* ===================================================================== *)

(** ** A blob that has been closed *)

Section Shut.
Context {compressor : Compressor} {minio : Minio} {tarfmt : TarFormat}.

Lemma with_blob_same w b : w_blob w = Some b -> with_blob (Some b) w = w.
Proof. destruct w; simpl; intros ->; reflexivity. Qed.

Lemma shut_Close w : shut w -> Close w = (Ret (Some ErrClosed), w).
Proof.
  intros (b & z & Hb & Hz & Hp & Hf & Hg).
  assert (E1 : pw_Finish w = (Ret tt, w)).
  { unfold pw_Finish. rewrite (update_some _ _ _ Hb). f_equal.
    rewrite <- (with_blob_same w b Hb) at 2. do 2 f_equal.
    destruct b as [? ? ? [? ?] ? ? ? ?]; simpl in *; subst; reflexivity. }
  assert (E2 : exists e, gw_Close w = (Ret e, w)).
  { unfold gw_Close. rewrite run_bind, (deref_some _ _ Hb), Hz.
    destruct (z_err z) as [e|]; [eexists; reflexivity|].
    destruct Hg as [-> | Hg]; [eexists; reflexivity | congruence]. }
  destruct E2 as [e2 E2].
  unfold Close. rewrite run_bind, E1, run_bind, E2.
  unfold File_Close. rewrite run_bind, (deref_some _ _ Hb), Hf. reflexivity.
Qed.

End Shut.

(** ** [Close], once and again *)

Section Closing.
Context {compressor : Compressor} {minio : Minio} {tarfmt : TarFormat}.

Lemma ccw_Write_keeps {X} (g : LocalBlob -> X) p :
  (forall b v, g (set_ccw v b) = g b) ->
  preserves (keeps g) (ccw_Write p).
Proof.
  intros Hg. unfold ccw_Write, File_Write.
  pres (first [ apply keeps_log
              | apply keeps_update; intros; apply Hg
              | apply keeps_still; reflexivity ]).
Qed.

(** Whatever [gw_Close] answers, the compressor is then closed or stuck
    on an error. *)
Lemma gw_Close_shuts w e w' :
  gw_Close w = (Ret e, w') ->
  exists b z, w_blob w' = Some b /\ gw b = Some z /\
              (z_closed z = true \/ z_err z <> None).
Proof.
  unfold gw_Close. rewrite run_bind.
  destruct (w_blob w) as [b|] eqn:Hb;
    [rewrite (deref_some _ _ Hb) | rewrite (deref_none _ Hb); discriminate].
  destruct (gw b) as [z|] eqn:Hz; [|discriminate].
  destruct (z_err z) as [e0|] eqn:He.
  { intros H; inversion H; subst. exists b, z. repeat split; auto.
    right; congruence. }
  destruct (z_closed z) eqn:Hc.
  { intros H; inversion H; subst. exists b, z. auto. }
  intros H.
  apply bind_inv in H as [(? & w1 & E1 & H)|(? & _ & ?)]; [|discriminate].
  apply bind_inv in H as [(? & w2 & E2 & H)|(? & _ & ?)]; [|discriminate].
  apply bind_inv in H as [([n err] & w3 & E3 & H)|(? & _ & ?)]; [|discriminate].
  assert (Hb1 : w_blob w1 = Some b) by (inversion E1; subst; exact Hb).
  unfold set_gz in E2. rewrite (update_some _ _ _ Hb1) in E2.
  inversion E2; subst w2. clear E2.
  pose proof (ccw_Write_keeps gw (gz_close (z_st z)) (fun b v => eq_refl)
                (with_blob (Some (set_gw
                   ((fun z => {| z_st := z_st z; z_err := z_err z; z_closed := true |})
                      <$> gw b) b)) w1)) as K.
  rewrite E3 in K. unfold keeps in K. simpl in K. rewrite Hz in K. simpl in K.
  destruct (w_blob w3) as [b3|] eqn:Hb3; [|discriminate].
  simpl in K. injection K as K.
  destruct err as [e1|].
  - apply bind_inv in H as [(? & w4 & E4 & H)|(? & _ & ?)]; [|discriminate].
    unfold set_gz in E4. rewrite (update_some _ _ _ Hb3) in E4.
    inversion E4; subst w4. inversion H; subst.
    eexists _, _. simpl. rewrite K. simpl. repeat split. left. reflexivity.
  - inversion H; subst. exists b3, {| z_st := z_st z; z_err := z_err z; z_closed := true |}.
    repeat split; auto.
Qed.

Lemma gw_Close_keeps_bar :
  preserves (keeps (fun b => (pw b, File b))) gw_Close.
Proof.
  unfold gw_Close, set_gz.
  pres (first [ apply keeps_log
              | apply keeps_update; intros [? ? ? ? ? ? ? ?]; reflexivity
              | apply keeps_still; reflexivity
              | apply ccw_Write_keeps; intros [? ? ? ? ? ? ? ?] ?; reflexivity ]).
Qed.

(** A [Close] that returns leaves the blob shut. *)
Lemma Close_shuts w e w' : Close w = (Ret e, w') -> shut w'.
Proof.
  unfold Close. intros H.
  apply bind_inv in H as [([] & w1 & H1 & H)|(? & _ & ?)]; [|discriminate].
  apply bind_inv in H as [(e1 & w2 & H2 & H)|(? & _ & ?)]; [|discriminate].
  unfold pw_Finish in H1.
  destruct (w_blob w) as [b|] eqn:Hb;
    [rewrite (update_some _ _ _ Hb) in H1
    | rewrite (update_none _ _ Hb) in H1; discriminate].
  inversion H1; subst w1. clear H1.
  destruct (gw_Close_shuts _ _ _ H2) as (b2 & z2 & Hb2 & Hz2 & Hs).
  pose proof (gw_Close_keeps_bar
                (with_blob (Some (set_pw {| pb_current := pb_current (pw b);
                                            pb_finished := true |} b)) w)) as K.
  rewrite H2 in K. unfold keeps in K. simpl in K. rewrite Hb2 in K.
  simpl in K. injection K as Kp Kf.
  unfold File_Close in H. rewrite run_bind, (deref_some _ _ Hb2) in H.
  destruct (f_closed (File b2)) eqn:Hc.
  - inversion H; subst. exists b2, z2.
    split; [exact Hb2|]. split; [exact Hz2|].
    split; [rewrite Kp; reflexivity|]. split; [exact Hc|exact Hs].
  - apply bind_inv in H as [(? & w3 & H3 & H)|(? & _ & ?)]; [|discriminate].
    rewrite (update_some _ _ _ Hb2) in H3. inversion H3; subst w3.
    inversion H; subst. eexists _, z2. simpl.
    split; [reflexivity|]. simpl. split; [exact Hz2|].
    split; [rewrite Kp; reflexivity|]. split; [reflexivity|exact Hs].
Qed.

(** X1.  [Close] may be called again: once a [Close] has returned, the
    next one reports that the file is already closed and changes
    nothing, neither the blob nor the spool file nor the trace.
    ([UploadDir] and [ReaderToBlob] both close the blob and then run a
    deferred [Close].) *)
Theorem close_twice w e w' :
  Close w = (Ret e, w') ->
  Close w' = (Ret (Some ErrClosed), w').
Proof. intros H. apply shut_Close. exact (Close_shuts _ _ _ H). Qed.

End Closing.

(** ** The client of the store *)

Section Client.
Context {compressor : Compressor} {minio : Minio} {tarfmt : TarFormat}.

(** X6.  A store made by [NewS3] has no client yet.  The first
    [getClient] makes one from the endpoint, key, secret and SSL flag of
    the configuration and keeps it; the next [getClient] returns the
    same client and changes nothing.  When [minio.New] fails,
    [getClient] panics with its error. *)
Theorem client_built_once cfg w :
  let w0 := with_s3 (NewS3 cfg) w in
  match minio_New (Endpoint cfg) (Key cfg) (Secret cfg) (SSL cfg) with
  | inr c =>
      getClient w0 = (Ret c, cached c w0) /\
      getClient (cached c w0) = (Ret c, cached c w0)
  | inl e => getClient w0 = (Panic (Error e), w0)
  end.
Proof.
  intros w0. unfold getClient. rewrite !run_bind. simpl.
  destruct (minio_New (Endpoint cfg) (Key cfg) (Secret cfg) (SSL cfg));
    split; reflexivity || idtac.
Qed.

End Client.

Ltac lframe_leaf :=
  idtac;
  match goal with
  | |- preserves _ (modify _) =>
      apply local_frame_modify; intros; repeat split
  | |- preserves _ (log _) =>
      apply local_frame_modify; intros; repeat split
  | |- preserves _ (update _) => apply local_frame_update
  | |- preserves _ (set_gz _) => apply local_frame_update
  | |- preserves _ (set_tw _) =>
      apply local_frame_modify; intros; repeat split
  | _ => solve [ eauto with framed ]
  end.

(** ** Packing stays on this side *)

Section LocalFrame.
Context {compressor : Compressor} {minio : Minio} {tarfmt : TarFormat}.

Lemma File_Write_frame p : preserves local_frame (File_Write p).
Proof. unfold File_Write. pres lframe_leaf. Qed.
Hint Resolve File_Write_frame : framed.

Lemma ccw_Write_frame p : preserves local_frame (ccw_Write p).
Proof. unfold ccw_Write. pres lframe_leaf. Qed.
Hint Resolve ccw_Write_frame : framed.

Lemma gw_Write_frame p : preserves local_frame (gw_Write p).
Proof. unfold gw_Write, gw_compress. pres lframe_leaf. Qed.
Hint Resolve gw_Write_frame : framed.

Lemma gw_Close_frame : preserves local_frame gw_Close.
Proof. unfold gw_Close. pres lframe_leaf. Qed.
Hint Resolve gw_Close_frame : framed.

Lemma File_Close_frame : preserves local_frame File_Close.
Proof. unfold File_Close. pres lframe_leaf. Qed.
Hint Resolve File_Close_frame : framed.

Lemma Write_frame p : preserves local_frame (Write p).
Proof.
  unfold Write, mw, MultiWriter, ucw_Write, hw_Write, pw_Write.
  pres lframe_leaf.
Qed.
Hint Resolve Write_frame : framed.

Lemma Close_frame : preserves local_frame Close.
Proof. unfold Close, pw_Finish. pres lframe_leaf. Qed.
Hint Resolve Close_frame : framed.

Lemma os_Remove_frame name : preserves local_frame (os_Remove name).
Proof. unfold os_Remove. pres lframe_leaf. Qed.
Hint Resolve os_Remove_frame : framed.

Lemma NewLocalBlob_frame : preserves local_frame NewLocalBlob.
Proof. unfold NewLocalBlob, TempFile. pres lframe_leaf. Qed.
Hint Resolve NewLocalBlob_frame : framed.

Lemma tw_Flush_frame : preserves local_frame tw_Flush.
Proof. unfold tw_Flush. pres lframe_leaf. Qed.
Hint Resolve tw_Flush_frame : framed.

Lemma tw_WriteHeader_frame h : preserves local_frame (tw_WriteHeader h).
Proof. unfold tw_WriteHeader. pres lframe_leaf. Qed.
Hint Resolve tw_WriteHeader_frame : framed.

Lemma tw_Write_frame p : preserves local_frame (tw_Write p).
Proof. unfold tw_Write. pres lframe_leaf. Qed.
Hint Resolve tw_Write_frame : framed.

Lemma tw_Close_frame : preserves local_frame tw_Close.
Proof. unfold tw_Close. pres lframe_leaf. Qed.
Hint Resolve tw_Close_frame : framed.

Lemma copyLoop_frame fuel : forall data written,
  preserves local_frame (copyLoop fuel data written).
Proof.
  induction fuel as [|fuel IH]; intros data written; simpl; pres lframe_leaf.
Qed.
Hint Resolve copyLoop_frame : framed.

Lemma walkFn_frame src file fi opened err :
  preserves local_frame (walkFn src file fi opened err).
Proof. unfold walkFn, CopyBuffer. pres lframe_leaf. Qed.
Hint Resolve walkFn_frame : framed.

Lemma walk_frame src n : forall path, preserves local_frame (walk src path n).
Proof.
  induction n using Node_mut with
    (P0 := fun cs => forall path, preserves local_frame (walk_children src path cs));
    intros path; simpl; pres lframe_leaf.
Qed.
Hint Resolve walk_frame : framed.

Lemma TarDir_frame src : preserves local_frame (TarDir src).
Proof. unfold TarDir, tar_NewWriter. pres lframe_leaf. Qed.
Hint Resolve TarDir_frame : framed.

Lemma Copy_frame fr : forall written, preserves local_frame (Copy fr written).
Proof.
  induction fr as [|[p er] fr IH]; intros written; simpl; pres lframe_leaf.
Qed.
Hint Resolve Copy_frame : framed.

Lemma Copy_local fr : forall written,
  preserves (extends is_local) (Copy fr written).
Proof.
  induction fr as [|[p er] fr IH]; intros written; simpl;
    pres (first [ apply Write_local | extends_leaf ]).
Qed.

End LocalFrame.

(** ** Calls that return *)

Section Safe.
Context {compressor : Compressor} {minio : Minio} {tarfmt : TarFormat}.

Lemma safe_ret {A} P (a : A) : safe P (ret a).
Proof. intros w H. exists a. split; [reflexivity|exact H]. Qed.

Lemma safe_gets {A} P (f : World -> A) : safe P (gets f).
Proof. intros w H. exists (f w). split; [reflexivity|exact H]. Qed.

Lemma safe_bind {A B} P (m : M A) (k : A -> M B) :
  safe P m -> (forall a, safe P (k a)) -> safe P (m ≫= k).
Proof.
  intros Hm Hk w H. rewrite run_bind.
  destruct (Hm w H) as (a & E & H1).
  destruct (m w) as [r w1]. simpl in E, H1. subst r.
  exact (Hk a w1 H1).
Qed.

Lemma safe_defer {A B} P (d : M B) (body : M A) :
  safe P body -> safe P d -> safe P (defer d body).
Proof.
  intros Hb Hd w H. rewrite defer_run.
  destruct (Hb w H) as (a & E & H1).
  destruct (Hd _ H1) as (x & E' & H2).
  destruct (d (snd (body w))) as [r w2]. simpl in E', H2. subst r.
  exists a. split; [exact E|exact H2].
Qed.

Lemma safe_modify (f : World -> World) :
  (forall w, w_blob (f w) = w_blob w) -> safe open_blob (modify f).
Proof.
  intros Hf w (b & z & Hb & Hz & Hc). exists tt. split; [reflexivity|].
  exists b, z. simpl. rewrite Hf. auto.
Qed.

Lemma safe_log e : safe open_blob (log e).
Proof. apply safe_modify. reflexivity. Qed.

Lemma safe_deref : safe open_blob deref.
Proof.
  intros w H. destruct H as (b & z & Hb & Hz & Hc).
  exists b. rewrite (deref_some _ _ Hb). split; [reflexivity|].
  exists b, z. auto.
Qed.

(** An assignment that leaves the compressor unclosed. *)
Lemma safe_update f :
  (forall b z, gw b = Some z -> z_closed z = false ->
     exists z', gw (f b) = Some z' /\ z_closed z' = false) ->
  safe open_blob (update f).
Proof.
  intros Hf w (b & z & Hb & Hz & Hc). exists tt.
  rewrite (update_some _ _ _ Hb). split; [reflexivity|].
  destruct (Hf b z Hz Hc) as (z' & Hz' & Hc').
  exists (f b), z'. auto.
Qed.

Lemma safe_set_gz f :
  (forall z, z_closed (f z) = z_closed z) -> safe open_blob (set_gz f).
Proof.
  intros Hf. apply safe_update. intros b z Hz Hc.
  exists (f z). simpl. rewrite Hz. simpl. split; [reflexivity|].
  rewrite Hf. exact Hc.
Qed.

End Safe.

Tactic Notation "safe_step" tactic3(leaf) :=
  first
    [ apply safe_ret
    | apply safe_gets
    | apply safe_deref
    | apply safe_log
    | leaf
    | apply safe_bind; [ | intros ? ]
    | apply safe_defer
    | match goal with
      | |- safe _ (match ?x with _ => _ end) => destruct x
      end ].

Tactic Notation "safely" tactic3(leaf) := repeat (safe_step leaf).

Create HintDb safedb.

Ltac safe_leaf :=
  idtac;
  match goal with
  | |- safe _ (modify _) => apply safe_modify; reflexivity
  | |- safe _ (set_tw _) => apply safe_modify; reflexivity
  | |- safe _ (set_gz _) => apply safe_set_gz; reflexivity
  | |- safe _ (update _) =>
      apply safe_update; intros [? ? ? ? ? ? ? ?] ? ? ?; simpl in *; eauto
  | _ => solve [ eauto with safedb ]
  end.

(** ** The pipeline returns on an open blob *)

Section SafePipeline.
Context {compressor : Compressor} {minio : Minio} {tarfmt : TarFormat}.

Lemma File_Write_safe p : safe open_blob (File_Write p).
Proof. unfold File_Write. safely safe_leaf. Qed.
Hint Resolve File_Write_safe : safedb.

Lemma ccw_Write_safe p : safe open_blob (ccw_Write p).
Proof. unfold ccw_Write. safely safe_leaf. Qed.
Hint Resolve ccw_Write_safe : safedb.

Lemma gw_compress_safe z p :
  z_closed z = false -> safe open_blob (gw_compress z p).
Proof. intros Hc. unfold gw_compress. rewrite Hc. safely safe_leaf. Qed.

(** With its compressor unclosed, [gw.Write] returns. *)
Lemma gw_Write_safe p : safe open_blob (gw_Write p).
Proof.
  intros w H. pose proof H as (b & z & Hb & Hz & Hc).
  unfold gw_Write. rewrite run_bind, (deref_some _ _ Hb), Hz.
  apply (safe_bind open_blob (log (EvGzip p)) (fun _ => gw_compress z p));
    [apply safe_log | intros _; apply gw_compress_safe; exact Hc | exact H].
Qed.
Hint Resolve gw_Write_safe : safedb.

Lemma Write_safe p : safe open_blob (Write p).
Proof.
  unfold Write, mw, MultiWriter, ucw_Write, hw_Write, pw_Write.
  safely safe_leaf.
Qed.
Hint Resolve Write_safe : safedb.

Lemma tw_Flush_safe : safe open_blob tw_Flush.
Proof. unfold tw_Flush. safely safe_leaf. Qed.
Hint Resolve tw_Flush_safe : safedb.

Lemma tw_WriteHeader_safe h : safe open_blob (tw_WriteHeader h).
Proof. unfold tw_WriteHeader. safely safe_leaf. Qed.
Hint Resolve tw_WriteHeader_safe : safedb.

Lemma tw_Write_safe p : safe open_blob (tw_Write p).
Proof. unfold tw_Write. safely safe_leaf. Qed.
Hint Resolve tw_Write_safe : safedb.

Lemma tw_Close_safe : safe open_blob tw_Close.
Proof. unfold tw_Close. safely safe_leaf. Qed.
Hint Resolve tw_Close_safe : safedb.

Lemma copyLoop_safe fuel : forall data written,
  safe open_blob (copyLoop fuel data written).
Proof.
  induction fuel as [|fuel IH]; intros data written; simpl; safely safe_leaf.
Qed.
Hint Resolve copyLoop_safe : safedb.

Lemma FileInfoHeader_some fi link :
  FileInfoHeader fi link <> (None, None).
Proof. unfold FileInfoHeader. destruct (fi_Kind fi); discriminate. Qed.

Lemma walkFn_safe src file fi opened err :
  safe open_blob (walkFn src file (Some fi) opened err).
Proof.
  unfold walkFn, CopyBuffer.
  destruct err as [e|]; [apply safe_ret|].
  pose proof (FileInfoHeader_some fi (fi_Name fi)) as N.
  destruct (FileInfoHeader fi (fi_Name fi)) as [[h|] [e|]];
    try apply safe_ret; [|congruence].
  safely safe_leaf.
Qed.
Hint Resolve walkFn_safe : safedb.

#[local] Arguments walkFn : simpl never.

Lemma walk_safe src n : forall path, safe open_blob (walk src path n).
Proof.
  induction n using Node_mut with
    (P0 := fun cs => forall path, safe open_blob (walk_children src path cs));
    intros path; simpl.
  - safely safe_leaf.
  - unfold walkFn. apply safe_ret.
  - apply safe_ret.
  - safely safe_leaf.
Qed.
Hint Resolve walk_safe : safedb.

Lemma TarDir_safe src : safe open_blob (TarDir src).
Proof. unfold TarDir, tar_NewWriter. safely safe_leaf. Qed.

Lemma Copy_safe fr : forall written, safe open_blob (Copy fr written).
Proof.
  induction fr as [|[p er] fr IH]; intros written; simpl; safely safe_leaf.
Qed.

End SafePipeline.

Ltac cohere_leaf :=
  idtac;
  match goal with
  | |- preserves _ (modify _) =>
      apply coherent_still; intros; split; reflexivity
  | |- preserves _ (log _) =>
      apply coherent_still; intros; split; reflexivity
  | |- preserves _ (set_tw _) =>
      apply coherent_still; intros; split; reflexivity
  | |- preserves _ (update _) =>
      apply coherent_update; intros [? ? ? ? ? ? ? ?]; split; reflexivity
  | _ => solve [ eauto with coh ]
  end.

(** ** Size and spool file, through the packing *)

Section Packed.
Context {compressor : Compressor} {minio : Minio} {tarfmt : TarFormat}.

Hint Resolve Write_coherent Close_coherent : coh.

Lemma tw_Flush_coherent : preserves keeps_coherent tw_Flush.
Proof. unfold tw_Flush. pres cohere_leaf. Qed.
Hint Resolve tw_Flush_coherent : coh.

Lemma tw_WriteHeader_coherent h : preserves keeps_coherent (tw_WriteHeader h).
Proof. unfold tw_WriteHeader. pres cohere_leaf. Qed.
Hint Resolve tw_WriteHeader_coherent : coh.

Lemma tw_Write_coherent p : preserves keeps_coherent (tw_Write p).
Proof. unfold tw_Write. pres cohere_leaf. Qed.
Hint Resolve tw_Write_coherent : coh.

Lemma tw_Close_coherent : preserves keeps_coherent tw_Close.
Proof. unfold tw_Close. pres cohere_leaf. Qed.
Hint Resolve tw_Close_coherent : coh.

Lemma copyLoop_coherent fuel : forall data written,
  preserves keeps_coherent (copyLoop fuel data written).
Proof.
  induction fuel as [|fuel IH]; intros data written; simpl; pres cohere_leaf.
Qed.
Hint Resolve copyLoop_coherent : coh.

Lemma walkFn_coherent src file fi opened err :
  preserves keeps_coherent (walkFn src file fi opened err).
Proof. unfold walkFn, CopyBuffer. pres cohere_leaf. Qed.
Hint Resolve walkFn_coherent : coh.

#[local] Arguments walkFn : simpl never.

Lemma walk_coherent src n : forall path,
  preserves keeps_coherent (walk src path n).
Proof.
  induction n using Node_mut with
    (P0 := fun cs => forall path,
             preserves keeps_coherent (walk_children src path cs));
    intros path; simpl; pres cohere_leaf.
Qed.
Hint Resolve walk_coherent : coh.

Lemma TarDir_coherent src : preserves keeps_coherent (TarDir src).
Proof. unfold TarDir, tar_NewWriter. pres cohere_leaf. Qed.

Lemma Copy_coherent fr : forall written,
  preserves keeps_coherent (Copy fr written).
Proof.
  induction fr as [|[p er] fr IH]; intros written; simpl; pres cohere_leaf.
Qed.

(** A new blob is coherent and open. *)
Lemma NewLocalBlob_coherent w0 w1 :
  NewLocalBlob w0 = (Ret None, w1) -> coherent w1.
Proof.
  intros H.
  destruct (NewLocalBlob_ok _ _ H)
    as (name & b & _ & _ & Hb & _ & Hw & Hc & Hf & _).
  unfold wiring in Hw. injection Hw as Hn _.
  exists b, []. split; [exact Hb|]. split.
  - rewrite Hf, Hn. apply lookup_insert_eq.
  - rewrite Hc. reflexivity.
Qed.

Lemma NewLocalBlob_open w0 w1 :
  NewLocalBlob w0 = (Ret None, w1) -> open_blob w1.
Proof.
  unfold NewLocalBlob, TempFile. rewrite !run_bind. simpl.
  destruct (d_temp (w_disk w0)) as [name|]; simpl; [|discriminate].
  destruct (d_files (w_disk w0) !! name); simpl; [discriminate|].
  intros H. inversion H; subst; clear H.
  eexists _, _. simpl. repeat split.
Qed.

Lemma NewLocalBlob_fails w0 e w1 :
  NewLocalBlob w0 = (Ret (Some e), w1) ->
  w1 = w0 /\ exists c, e = Wrap c "Blob: could not create temporary file".
Proof.
  unfold NewLocalBlob, TempFile. rewrite !run_bind. simpl.
  destruct (d_temp (w_disk w0)) as [name|]; simpl.
  - destruct (d_files (w_disk w0) !! name); simpl; [|discriminate].
    intros H. inversion H; subst. eauto.
  - intros H. inversion H; subst. eauto.
Qed.

Lemma open_IsDir w v : open_blob w -> open_blob (snd (update (set_IsDir v) w)).
Proof.
  intros (b & z & Hb & Hz & Hc). rewrite (update_some _ _ _ Hb).
  exists (set_IsDir v b), z. auto.
Qed.

Lemma open_wired w : open_blob w -> exists b z, w_blob w = Some b /\ gw b = Some z.
Proof. intros (b & z & Hb & Hz & _). eauto. Qed.

Lemma coherent_size w :
  coherent w ->
  exists b spool,
    w_blob w = Some b /\
    d_files (w_disk w) !! f_name (File b) = Some spool /\
    (len spool < 2 ^ 63 -> Size_of b = len spool).
Proof.
  intros (b & c & Hb & Hf & Hc). exists b, c. split; [exact Hb|].
  split; [exact Hf|]. intros Hs. unfold Size_of.
  apply int64_of_small; [split; [apply len_nonneg|exact Hs]|].
  rewrite Hc. apply uint64_idem.
Qed.

(** X2.  However the packing of the directory and the closing of the
    blob end (errors and panics included), the blob is still there, its
    spool file is still on disk, and [Size] is the length of that file
    (as long as it is below 2^63). *)
Theorem size_is_spool_length src w0 w1 :
  NewLocalBlob w0 = (Ret None, w1) ->
  let w2 := snd (Close (snd (TarDir src (snd (update (set_IsDir true) w1))))) in
  exists b spool,
    w_blob w2 = Some b /\
    d_files (w_disk w2) !! f_name (File b) = Some spool /\
    (len spool < 2 ^ 63 -> Size_of b = len spool).
Proof.
  intros H w2. apply coherent_size. subst w2.
  apply Close_coherent, TarDir_coherent.
  refine (coherent_update (set_IsDir true) _ w1 (NewLocalBlob_coherent _ _ H)).
  intros [? ? ? ? ? ? ? ?]; split; reflexivity.
Qed.

(** X12.  On an open blob [TarDir] does not panic, and what it
    returns is what the walk returned: what the deferred [tw.Close()]
    answers, an error writing the trailer included, is dropped. *)
Theorem tar_dir_answers_the_walk src n w :
  open_blob w ->
  w_tree w !! src = Some n -> (forall e, n <> Broken e) ->
  exists r c,
    fst (walk src src n (snd (tar_NewWriter w))) = Ret r /\
    fst (tw_Close (snd (walk src src n (snd (tar_NewWriter w))))) = Ret c /\
    fst (TarDir src w) = Ret r.
Proof.
  intros Ho Hn Hb. rewrite TarDir_root, Hn.
  assert (Ho1 : open_blob (snd (tar_NewWriter w))).
  { destruct (safe_modify (fun w => with_tw {| tw_nb := 0; tw_pad := 0; tw_err := None |} w)
                (fun _ => eq_refl) w Ho) as (_ & _ & H). exact H. }
  destruct (walk_safe src n src _ Ho1) as (r & Er & Ho2).
  destruct (tw_Close_safe _ Ho2) as (c & Ec & _).
  exists r, c. split; [exact Er|]. split; [exact Ec|].
  assert (E : (tar_NewWriter ≫= λ _, defer tw_Close (walk src src n)) w =
              defer tw_Close (walk src src n) (snd (tar_NewWriter w)))
    by reflexivity.
  destruct n as [fi data dirErr children|e]; [|exfalso; exact (Hb e eq_refl)].
  rewrite E, defer_run.
  destruct (tw_Close _) as [rc wc]. simpl in Ec. subst rc. exact Er.
Qed.

End Packed.

(** ** [UploadDir] when a step fails *)

Section Failing.
Context {compressor : Compressor} {minio : Minio} {tarfmt : TarFormat}.

#[global] Instance stayed_local_preorder : PreOrder stayed_local.
Proof.
  split.
  - intros w. split; reflexivity.
  - intros a b c [F1 E1] [F2 E2]. split; etransitivity; eauto.
Qed.

Lemma stayed_local_both {A} (m : M A) :
  preserves local_frame m -> preserves (extends is_local) m ->
  preserves stayed_local m.
Proof. intros F E w. split; [apply F|apply E]. Qed.

Lemma stayed_local_quiet w w' :
  stayed_local w w' ->
  w_remote w' = w_remote w /\ w_s3 w' = w_s3 w /\
  List.filter is_remote (new_events w w') = [].
Proof.
  intros [(Hs & Hr & _) (evs & Ht & Hl)]. split; [exact Hr|]. split; [exact Hs|].
  rewrite (new_events_app _ _ _ Ht). clear Ht.
  induction evs as [|ev evs IH]; [reflexivity|].
  simpl in Hl. apply andb_prop in Hl as [Hl1 Hl2]. simpl.
  unfold is_local in Hl1. apply negb_true_iff in Hl1. rewrite Hl1. auto.
Qed.

Lemma UploadDir_run src w0 w1 :
  NewLocalBlob w0 = (Ret None, w1) ->
  exists name,
    UploadDir src w0 =
      defer (os_Remove name) (defer Close (UploadDir_body src))
        (snd (update (set_IsDir true) w1)).
Proof.
  intros H.
  destruct (NewLocalBlob_ok _ _ H) as (name & b & _ & _ & Hb & _).
  exists (f_name (File b)).
  unfold UploadDir. rewrite run_bind, H.
  rewrite run_bind, (update_some _ _ _ Hb).
  erewrite run_bind, File_Name_some by reflexivity. reflexivity.
Qed.

Lemma defers_run {A} name (body : M A) w r w' :
  body w = (r, w') -> open_blob w' ->
  fst (defer (os_Remove name) (defer Close body) w) = r /\
  snd (defer (os_Remove name) (defer Close body) w) =
    snd (os_Remove name (snd (Close w'))).
Proof.
  intros Hbody Ho.
  destruct (open_wired _ Ho) as (b & z & Hb & Hz).
  destruct (Close_returns _ _ _ Hb Hz) as (c & w3 & Hc).
  destruct (os_Remove_run name w3) as (x & Hx).
  rewrite !defer_run, Hbody. simpl. rewrite Hc. simpl.
  destruct (os_Remove name w3) as [rx wx]. simpl in Hx. subst rx.
  split; reflexivity.
Qed.

Lemma prepared_local w0 w1 :
  NewLocalBlob w0 = (Ret None, w1) ->
  stayed_local w0 (snd (update (set_IsDir true) w1)).
Proof.
  intros H. etransitivity.
  - pose proof (stayed_local_both _ NewLocalBlob_frame NewLocalBlob_local w0) as K.
    rewrite H in K. exact K.
  - apply (stayed_local_both _ (local_frame_update _) (extends_update _ _)).
Qed.

Lemma tidy_local name w :
  stayed_local w (snd (os_Remove name (snd (Close w)))).
Proof.
  etransitivity.
  - apply (stayed_local_both _ Close_frame Close_local).
  - apply (stayed_local_both _ (os_Remove_frame name) (os_Remove_local name)).
Qed.

(** X8.  When [TarDir] fails with [e], [UploadDir] returns no digest
    and [e] wrapped in ["Failed to tar dir"]; it has made no call to
    the store, built no client, and left the store as it was. *)
Theorem upload_dir_pack_failure src w0 w1 e w2 :
  NewLocalBlob w0 = (Ret None, w1) ->
  TarDir src (snd (update (set_IsDir true) w1)) = (Ret (Some e), w2) ->
  fst (UploadDir src w0) = Ret (None, Some (Wrap e "Failed to tar dir")) /\
  w_remote (snd (UploadDir src w0)) = w_remote w0 /\
  w_s3 (snd (UploadDir src w0)) = w_s3 w0 /\
  List.filter is_remote (new_events w0 (snd (UploadDir src w0))) = [].
Proof.
  intros Hnew Htar.
  destruct (UploadDir_run src _ _ Hnew) as (name & ->).
  set (wA := snd (update (set_IsDir true) w1)) in *.
  assert (HoA : open_blob wA) by (apply open_IsDir, (NewLocalBlob_open _ _ Hnew)).
  assert (Ho2 : open_blob w2).
  { destruct (TarDir_safe src wA HoA) as (_ & _ & H). rewrite Htar in H. exact H. }
  assert (Hbody : UploadDir_body src wA =
                  (Ret (None, Some (Wrap e "Failed to tar dir")), w2)).
  { unfold UploadDir_body. rewrite run_bind, Htar. reflexivity. }
  destruct (defers_run name _ _ _ _ Hbody Ho2) as [-> ->].
  split; [reflexivity|]. apply stayed_local_quiet.
  etransitivity; [exact (prepared_local _ _ Hnew)|]. fold wA.
  etransitivity; [|apply tidy_local].
  pose proof (stayed_local_both _ (TarDir_frame src) (TarDir_local src) wA) as K.
  rewrite Htar in K. exact K.
Qed.

Lemma reached_local src w0 w3 :
  reaches_check src w0 w3 -> stayed_local w0 w3.
Proof.
  intros (w1 & w2 & Hnew & Htar & Hclose).
  etransitivity; [exact (prepared_local _ _ Hnew)|].
  etransitivity.
  - pose proof (stayed_local_both _ (TarDir_frame src) (TarDir_local src)
                  (snd (update (set_IsDir true) w1))) as K.
    rewrite Htar in K. exact K.
  - pose proof (stayed_local_both _ Close_frame Close_local w2) as K.
    rewrite Hclose in K. exact K.
Qed.

(** X9.  When no client can be made, [UploadDir] does not return an
    error: it packs the directory, closes the blob and then panics with
    the error of [minio.New] at the duplicate check, without a call to
    the store. *)
Theorem upload_dir_panics_without_client src w0 w3 :
  reaches_check src w0 w3 ->
  client_of (w_s3 w0) = None ->
  exists e,
    minio_New (Endpoint (config (w_s3 w0))) (Key (config (w_s3 w0)))
              (Secret (config (w_s3 w0))) (SSL (config (w_s3 w0))) = inl e /\
    fst (UploadDir src w0) = Panic (Error e) /\
    w_remote (snd (UploadDir src w0)) = w_remote w0 /\
    List.filter is_remote (new_events w0 (snd (UploadDir src w0))) = [].
Proof.
  intros Hreach Hnone.
  pose proof (reached_local _ _ _ Hreach) as Hloc.
  destruct Hreach as (w1 & w2 & Hnew & Htar & Hclose).
  destruct (stayed_local_quiet _ _ Hloc) as (_ & Hs3 & _).
  destruct (Close_wired _ _ _ Hclose) as (b & z & Hb & Hz).
  rewrite <- Hs3 in Hnone.
  destruct (CheckDuplicate_no_client _ _ Hb Hnone) as (e & Hmk & _ & Hdup).
  rewrite Hs3 in Hmk. exists e. split; [exact Hmk|].
  destruct (UploadDir_run src _ _ Hnew) as (name & ->).
  set (wA := snd (update (set_IsDir true) w1)) in *.
  assert (Hbody : UploadDir_body src wA = (Panic (Error e), w3)).
  { unfold UploadDir_body. rewrite run_bind, Htar. simpl.
    rewrite run_bind, Hclose. simpl. rewrite run_bind, Hdup. reflexivity. }
  pose proof (shut_Close _ (Close_shuts _ _ _ Hclose)) as Hagain.
  destruct (os_Remove_run name w3) as (x & Hx).
  rewrite !defer_run, Hbody. simpl. rewrite Hagain. simpl.
  destruct (os_Remove name w3) as [rx wx] eqn:Hrm. simpl in Hx. subst rx.
  simpl. split; [reflexivity|].
  assert (Hend : stayed_local w0 wx).
  { etransitivity; [exact Hloc|].
    pose proof (stayed_local_both _ (os_Remove_frame name) (os_Remove_local name) w3) as K.
    rewrite Hrm in K. exact K. }
  destruct (stayed_local_quiet _ _ Hend) as (Hr & _ & Hq). auto.
Qed.

(** X7.  When [NewLocalBlob] fails, [UploadDir] returns no digest and
    that error wrapped in ["Failed to prepare dir blob"] (the error
    itself wraps the cause in ["Blob: could not create temporary
    file"]), and the world is as it was. *)
Theorem upload_dir_without_temp_file src w e w1 :
  NewLocalBlob w = (Ret (Some e), w1) ->
  UploadDir src w =
    (Ret (None, Some (Wrap e "Failed to prepare dir blob")), w) /\
  exists c, e = Wrap c "Blob: could not create temporary file".
Proof.
  intros H. destruct (NewLocalBlob_fails _ _ _ H) as [-> Hc].
  split; [|exact Hc]. unfold UploadDir. rewrite run_bind, H. reflexivity.
Qed.

End Failing.

Ltac wiring_leaf :=
  idtac;
  match goal with
  | |- preserves _ (modify _) => apply keeps_still; reflexivity
  | |- preserves _ (log _) => apply keeps_log
  | |- preserves _ (set_tw _) => apply keeps_still; reflexivity
  | |- preserves _ (update _) =>
      apply keeps_update; intros [? ? ? ? [?|] ? ? ?]; reflexivity
  | |- preserves _ (set_gz _) =>
      apply keeps_update; intros [? ? ? ? [?|] ? ? ?]; reflexivity
  | _ => solve [ eauto with kept ]
  end.

(** ** [ReaderToBlob] *)

Section Reading.
Context {compressor : Compressor} {minio : Minio} {tarfmt : TarFormat}.

#[global] Instance stays_preorder P : PreOrder (stays P).
Proof. split; unfold stays; [intros w; auto | intros a b c; auto]. Qed.

Hint Resolve ccw_Write_wiring gw_Close_wiring Close_wiring : kept.

Lemma gw_Write_wiring p : preserves (keeps wiring) (gw_Write p).
Proof. unfold gw_Write, gw_compress. pres wiring_leaf. Qed.
Hint Resolve gw_Write_wiring : kept.

Lemma Write_wiring p : preserves (keeps wiring) (Write p).
Proof.
  unfold Write, mw, MultiWriter, ucw_Write, hw_Write, pw_Write.
  pres wiring_leaf.
Qed.
Hint Resolve Write_wiring : kept.

Lemma Copy_wiring fr : forall written,
  preserves (keeps wiring) (Copy fr written).
Proof.
  induction fr as [|[p er] fr IH]; intros written; simpl; pres wiring_leaf.
Qed.

(** ** The spool file, once removed, stays away *)

Lemma absent_modify name (f : World -> World) :
  (forall w, w_disk (f w) = w_disk w) ->
  preserves (stays (absent name)) (modify f).
Proof. intros Hf w H. unfold absent in *. simpl. rewrite Hf. exact H. Qed.

Lemma absent_update name f : preserves (stays (absent name)) (update f).
Proof.
  unfold update. pres (idtac; match goal with
                       | |- preserves _ (modify _) =>
                           apply absent_modify; reflexivity
                       end).
Qed.

Lemma File_Write_absent name p : preserves (stays (absent name)) (File_Write p).
Proof.
  unfold File_Write.
  pres (idtac; match goal with
        | |- preserves _ (log _) => apply absent_modify; reflexivity
        | |- preserves _ (modify _) =>
            apply preserves_modify; intros w H; unfold absent in *; simpl;
            rewrite lookup_alter_None; exact H
        end).
Qed.

Ltac absent_leaf :=
  idtac;
  match goal with
  | |- preserves _ (log _) => apply absent_modify; reflexivity
  | |- preserves _ (update _) => apply absent_update
  | |- preserves _ (set_gz _) => apply absent_update
  | |- preserves _ (File_Write _) => apply File_Write_absent
  end.

Lemma Close_absent name : preserves (stays (absent name)) Close.
Proof.
  unfold Close, pw_Finish, gw_Close, ccw_Write, File_Close.
  pres absent_leaf.
Qed.

(** ** A copy that succeeds *)

Lemma Copy_success fr : forall written w n w' b,
  w_blob w = Some b ->
  Copy fr written w = (Ret (n, None), w') ->
  exists b', w_blob w' = Some b' /\
    hw b' = hw b ++ consumed fr /\
    uint64 (ucw b') = uint64 (ucw b + len (consumed fr)).
Proof.
  induction fr as [|[p er] fr IH]; intros written w n w' b Hb H.
  - inversion H; subst. exists b. rewrite app_nil_r.
    split; [exact Hb|]. split; [reflexivity|].
    unfold len. simpl. rewrite Z.add_0_r. reflexivity.
  - simpl in H.
    apply bind_inv in H as [([wr stop] & w1 & H1 & H)|(? & _ & ?)];
      [|discriminate].
    assert (Hstep : stop = None /\
              exists b1, w_blob w1 = Some b1 /\ hw b1 = hw b ++ p /\
                uint64 (ucw b1) = uint64 (ucw b + len p)).
    { destruct stop as [e|]; [inversion H|]. split; [reflexivity|].
      destruct (0 <? len p) eqn:Hp.
      - apply bind_inv in H1 as [([nw ew] & w2 & H2 & H1)|(? & _ & ?)];
          [|discriminate].
        destruct ew as [e|]; [inversion H1|].
        destruct (Write_success _ _ _ _ _ Hb H2) as (Hn & b1 & Hb1 & Hp1).
        subst nw. rewrite Z.eqb_refl in H1. inversion H1; subst.
        injection Hp1 as Hh Hu. exists b1. split; [exact Hb1|].
        split; [exact Hh|]. rewrite Hu. apply uint64_idem.
      - inversion H1; subst. exists b. split; [exact Hb|].
        assert (p = []) as ->.
        { destruct p; [reflexivity|]. unfold len in Hp. simpl in Hp.
          apply Z.ltb_ge in Hp. lia. }
        rewrite app_nil_r. split; [reflexivity|].
        unfold len. simpl. rewrite Z.add_0_r. reflexivity. }
    destruct Hstep as (-> & b1 & Hb1 & Hh1 & Hu1).
    destruct er as [e|].
    + exists b1. simpl. inversion H; subst. auto.
    + destruct (IH _ _ _ _ _ Hb1 H) as (b' & Hb' & Hh' & Hu').
      exists b'. split; [exact Hb'|]. simpl. split.
      * rewrite Hh', Hh1, app_assoc. reflexivity.
      * rewrite Hu', len_app, Z.add_assoc.
        rewrite <- (uint64_add_l (ucw b1)), Hu1, uint64_add_l. reflexivity.
Qed.

(** X3.  When the temporary file cannot be created, [ReaderToBlob]
    calls [Close] on the nil blob [NewLocalBlob] returned: it panics
    with a nil dereference and never returns the error
    ["Could not create blob"]. *)
Theorem reader_to_blob_nil_blob fr w e w1 :
  NewLocalBlob w = (Ret (Some e), w1) ->
  ReaderToBlob fr w = (Panic nil_deref, with_blob None w).
Proof.
  intros H. destruct (NewLocalBlob_fails _ _ _ H) as [-> _].
  unfold ReaderToBlob. rewrite run_bind, H. reflexivity.
Qed.

(** X4.  When [ReaderToBlob] returns a blob and no error, that blob is
    closed, its digest is the SHA-256 of the bytes the reader delivered,
    its uncompressed size is their number, and its spool file is on
    disk with [Size] bytes in it. *)
Theorem reader_to_blob_seals fr w w' :
  ReaderToBlob fr w = (Ret (true, None), w') ->
  exists b spool,
    w_blob w' = Some b /\
    f_closed (File b) = true /\
    Hash_of b = sha256.Sum256 (consumed fr) /\
    (len (consumed fr) < 2 ^ 63 ->
       UncompressedSize_of b = len (consumed fr)) /\
    d_files (w_disk w') !! f_name (File b) = Some spool /\
    (len spool < 2 ^ 63 -> Size_of b = len spool).
Proof.
  unfold ReaderToBlob. intros H.
  apply bind_inv in H as [(err & w1 & Hnew & H)|(? & _ & ?)]; [|discriminate].
  destruct err as [e|].
  { destruct (NewLocalBlob_fails _ _ _ Hnew) as [-> _]. discriminate. }
  destruct (NewLocalBlob_ok _ _ Hnew)
    as (name & b1 & _ & _ & Hb1 & Hp1 & _).
  injection Hp1 as Hh1 Hu1.
  rewrite defer_run in H.
  destruct (Close _) as [[c|msg] wz] eqn:Hclose2; [|discriminate].
  injection H as Hfst ->.
  rewrite run_bind in Hfst, Hclose2.
  destruct (Copy fr 0 w1) as [[[n [e|]]|msg] wc] eqn:Hcopy.
  - (* the copy failed *)
    exfalso. revert Hfst. rewrite run_bind.
    destruct (File_Name wc) as [[nm|?] ?]; [|discriminate].
    rewrite run_bind. destruct (os_Remove nm _) as [[?|?] ?]; discriminate.
  - rewrite run_bind in Hfst, Hclose2.
    destruct (Close wc) as [[c1|msg] wd] eqn:Hclose1; [|discriminate].
    simpl in Hclose2.
    rewrite (shut_Close _ (Close_shuts _ _ _ Hclose1)) in Hclose2.
    injection Hclose2 as _ <-.
    destruct (Copy_success _ _ _ _ _ _ Hb1 Hcopy) as (bc & Hbc & Hhc & Huc).
    rewrite Hh1 in Hhc. rewrite Hu1 in Huc. simpl in Hhc, Huc.
    pose proof (Close_payload wc) as Kp. rewrite Hclose1 in Kp. simpl in Kp.
    destruct (keeps_some _ _ _ _ Kp Hbc) as (bd & Hbd & Hpd).
    injection Hpd as Hhd Hud.
    assert (Hcoh : coherent wd).
    { pose proof (Close_coherent wc) as K. rewrite Hclose1 in K. apply K.
      pose proof (Copy_coherent fr 0 w1) as K1. rewrite Hcopy in K1. apply K1.
      exact (NewLocalBlob_coherent _ _ Hnew). }
    destruct (coherent_size _ Hcoh) as (b & spool & Hb & Hf & Hs).
    rewrite Hbd in Hb. injection Hb as <-.
    destruct (Close_shuts _ _ _ Hclose1) as (b' & z & Hb' & _ & _ & Hfc & _).
    rewrite Hbd in Hb'. injection Hb' as <-.
    exists bd, spool. split; [exact Hbd|]. split; [exact Hfc|].
    split; [unfold Hash_of; rewrite Hhd, Hhc; reflexivity|].
    split; [|split; [exact Hf|exact Hs]].
    intros Hlen. unfold UncompressedSize_of.
    apply int64_of_small; [split; [apply len_nonneg|exact Hlen]|].
    rewrite Hud. exact Huc.
  - discriminate.
Qed.

(** X5.  When the copy from the reader fails with [e], [ReaderToBlob]
    returns no blob and the error [e] wrapped in
    ["Error while processing"]; the spool file has been removed and the
    blob has been closed. *)
Theorem reader_to_blob_cleans_up fr w w1 n e w2 :
  NewLocalBlob w = (Ret None, w1) ->
  Copy fr 0 w1 = (Ret (n, Some e), w2) ->
  fst (ReaderToBlob fr w) =
    Ret (false, Some (Wrap e "Error while processing")) /\
  exists b,
    w_blob w1 = Some b /\
    d_files (w_disk (snd (ReaderToBlob fr w))) !! f_name (File b) = None /\
    shut (snd (ReaderToBlob fr w)).
Proof.
  intros Hnew Hcopy.
  destruct (NewLocalBlob_ok _ _ Hnew) as (name & b1 & _ & _ & Hb1 & _).
  pose proof (Copy_wiring fr 0 w1) as Kw. rewrite Hcopy in Kw. simpl in Kw.
  destruct (keeps_some _ _ _ _ Kw Hb1) as (b2 & Hb2 & Hw2).
  injection Hw2 as Hn2 _.
  assert (Ho2 : open_blob w2).
  { destruct (Copy_safe fr 0 w1 (NewLocalBlob_open _ _ Hnew)) as (_ & _ & H).
    rewrite Hcopy in H. exact H. }
  destruct (os_Remove_run (f_name (File b2)) w2) as (x & Hx).
  destruct (os_Remove (f_name (File b2)) w2) as [rx w3] eqn:Hrm.
  simpl in Hx. subst rx.
  assert (Hbody :
    (Copy fr 0 ≫= λ '(_, err),
       match err with
       | Some e => File_Name ≫= λ name, os_Remove name ≫= λ _,
                     ret (false, Some (Wrap e "Error while processing"))
       | None => Close ≫= λ _, ret (true, None)
       end) w1 = (Ret (false, Some (Wrap e "Error while processing")), w3)).
  { rewrite run_bind, Hcopy. simpl.
    rewrite run_bind, (File_Name_some _ _ Hb2). simpl.
    rewrite run_bind, Hrm. reflexivity. }
  assert (Hgone : absent (f_name (File b2)) w3).
  { pose proof (os_Remove_gone (f_name (File b2)) w2) as G.
    rewrite Hrm in G. exact G. }
  assert (Hb3 : exists b3 z3, w_blob w3 = Some b3 /\ gw b3 = Some z3).
  { assert (K : w_blob w3 = w_blob w2).
    { revert Hrm. unfold os_Remove. rewrite run_bind. simpl.
      destruct (d_files (w_disk w2) !! f_name (File b2)); simpl;
        intros H; inversion H; reflexivity. }
    destruct (open_wired _ Ho2) as (b & z & Hb & Hz).
    exists b, z. rewrite K. auto. }
  destruct Hb3 as (b3 & z3 & Hb3 & Hz3).
  destruct (Close_returns _ _ _ Hb3 Hz3) as (c & w4 & Hclose).
  unfold ReaderToBlob. rewrite run_bind, Hnew. simpl.
  rewrite defer_run, Hbody. simpl. rewrite Hclose. simpl.
  split; [reflexivity|]. exists b1. split; [exact Hb1|]. split.
  - rewrite <- Hn2. pose proof (Close_absent (f_name (File b2)) w3) as K.
    rewrite Hclose in K. exact (K Hgone).
  - exact (Close_shuts _ _ _ Hclose).
Qed.

Lemma ReaderToBlob_frame fr : preserves local_frame (ReaderToBlob fr).
Proof.
  unfold ReaderToBlob, File_Name.
  pres (first [ apply NewLocalBlob_frame | apply Copy_frame | apply Close_frame
              | apply os_Remove_frame | lframe_leaf ]).
Qed.

Lemma ReaderToBlob_local fr : preserves (extends is_local) (ReaderToBlob fr).
Proof.
  unfold ReaderToBlob, File_Name.
  pres (first [ apply NewLocalBlob_local | apply Copy_local | apply Close_local
              | apply os_Remove_local
              | idtac; match goal with
                | |- preserves _ (modify _) => apply extends_quiet; reflexivity
                end ]).
Qed.

End Reading.

(** ** [TarZip] *)

Section Zip.
Context {compressor : Compressor} {minio : Minio} {tarfmt : TarFormat}.

(** A round on an entry that is not a regular file never lets the loop
    go on. *)
Lemma TarZip_round_ends d w :
  IsRegular (zf_FileInfo d) = false ->
  forall w', TarZip_round d w <> (Ret None, w').
Proof.
  intros Hd w'. unfold TarZip_round.
  destruct (TarZip_header d) as [[h|] [e|]]; try discriminate.
  rewrite run_bind.
  destruct (tw_WriteHeader h w) as [[[e|]|msg] w1]; try discriminate.
  rewrite Hd. discriminate.
Qed.

Lemma TarZip_range_cut before d after w :
  IsRegular (zf_FileInfo d) = false ->
  TarZip_range (before ++ d :: after) w = TarZip_range (before ++ [d]) w.
Proof.
  intros Hd. revert w. induction before as [|f before IH]; intros w; simpl.
  - rewrite !run_bind.
    pose proof (TarZip_round_ends d w Hd) as N.
    destruct (TarZip_round d w) as [[[r|]|msg] w1]; try reflexivity.
    exfalso. exact (N w1 eq_refl).
  - rewrite !run_bind.
    destruct (TarZip_round f w) as [[[r|]|msg] w1]; try reflexivity.
    apply IH.
Qed.

(** X16.  [TarZip] stops at the first entry that is not a regular
    file: whatever follows it in the archive makes no difference, to
    the result or to the bytes written. *)
Theorem tar_zip_stops_at_first_non_regular before d after w :
  IsRegular (zf_FileInfo d) = false ->
  TarZip (inr (before ++ d :: after)) w = TarZip (inr (before ++ [d])) w.
Proof.
  intros Hd. unfold TarZip. rewrite !run_bind.
  destruct (tar_NewWriter w) as [[[]|msg] w1]; [|reflexivity].
  rewrite !defer_run, !run_bind, (TarZip_range_cut _ _ _ _ Hd). reflexivity.
Qed.

(** A second [tw.Close] changes nothing. *)
Lemma tw_Close_again w c w' :
  tw_Close w = (Ret c, w') -> exists c', tw_Close w' = (Ret c', w').
Proof.
  unfold tw_Close. rewrite run_bind. simpl.
  destruct (tw_err (w_tw w)) as [e|] eqn:He.
  - intros H.
    assert (w' = w) as ->
      by (destruct (error_eqb e ErrWriteAfterClose); inversion H; reflexivity).
    rewrite run_bind. simpl. rewrite He.
    destruct (error_eqb e ErrWriteAfterClose); eauto.
  - intros H.
    apply bind_inv in H as [(e1 & w1 & _ & H)|(? & _ & ?)]; [|discriminate].
    apply bind_inv in H as [(e2 & w2 & _ & H)|(? & _ & ?)]; [|discriminate].
    apply bind_inv in H as [([] & w3 & H3 & H)|(? & _ & ?)]; [|discriminate].
    inversion H3; subst w3. inversion H; subst. clear H H3.
    rewrite run_bind. simpl. eauto.
Qed.

(** X17.  When every entry went in, [TarZip] returns what closing the
    archive returns (unlike [TarDir] it reports a trailer that could not
    be written); the deferred second [tw.Close()] changes nothing. *)
Theorem tar_zip_reports_trailer files w w1 c w2 :
  TarZip_range files (snd (tar_NewWriter w)) = (Ret None, w1) ->
  tw_Close w1 = (Ret c, w2) ->
  TarZip (inr files) w = (Ret c, w2).
Proof.
  intros Hrange Hclose.
  destruct (tw_Close_again _ _ _ Hclose) as (c' & Hagain).
  unfold TarZip. rewrite run_bind. simpl in *.
  rewrite defer_run, run_bind, Hrange. simpl. rewrite Hclose. simpl.
  rewrite Hagain. reflexivity.
Qed.

(** ** Names *)

Lemma last_element_slashless s : slashless (last_element s) = true.
Proof.
  unfold slashless. induction s as [|c s IH]; [reflexivity|]. simpl.
  destruct (existsb is_slash (list_ascii_of_string s)) eqn:E; [exact IH|].
  assert (Hs : forallb (fun c => negb (is_slash c)) (list_ascii_of_string s) = true).
  { clear IH. induction (list_ascii_of_string s) as [|a l IHl]; [reflexivity|].
    simpl in *. apply orb_false_iff in E as [-> E]. simpl. exact (IHl E). }
  destruct (is_slash c) eqn:Ec; [exact Hs|].
  simpl. rewrite Ec. exact Hs.
Qed.

Lemma TrimPrefix_slashless s :
  slashless s = true -> TrimPrefix s Separator = s.
Proof.
  unfold TrimPrefix, slashless. destruct s as [|c s]; [reflexivity|].
  intros H. simpl in H. apply andb_prop in H as [H _].
  unfold is_slash in H. apply negb_true_iff in H.
  change (HasPrefix (String c s) Separator)
    with (Ascii.eqb "/" c && HasPrefix s "").
  rewrite Ascii.eqb_sym, H. reflexivity.
Qed.

Lemma path_Base_cases p :
  path_Base p = "/" \/ slashless (path_Base p) = true.
Proof.
  unfold path_Base. destruct p as [|c p]; [right; reflexivity|].
  pose proof (last_element_slashless (trim_slashes (String c p))) as H.
  destruct (last_element (trim_slashes (String c p))); [left; reflexivity|].
  right. exact H.
Qed.

(** X18.  The name [TarZip] gives an entry is the last element of its
    path in the zip archive: it has no slash in it, so the directory
    part is lost; the modification time is zero. *)
Theorem tar_zip_flattens f h :
  TarZip_header f = (Some h, None) ->
  slashless (h_Name h) = true /\
  h_Name h = TrimPrefix (path_Base (zf_Name f)) Separator /\
  h_ModTime h = zeroTime.
Proof.
  unfold TarZip_header.
  destruct (FileInfoHeader _ _) as [[h0|] [e|]]; try discriminate.
  intros H. inversion H; subst; clear H. simpl.
  split; [|split; reflexivity].
  destruct (path_Base_cases (zf_Name f)) as [-> | Hs]; [reflexivity|].
  rewrite (TrimPrefix_slashless _ Hs). exact Hs.
Qed.

Lemma TarZip_frame zr : preserves local_frame (TarZip zr).
Proof.
  assert (R : forall f, preserves local_frame (TarZip_round f)).
  { intros f. unfold TarZip_round, CopyBuffer.
    pres (first [ apply tw_WriteHeader_frame | apply copyLoop_frame
                | lframe_leaf ]). }
  assert (L : forall fs, preserves local_frame (TarZip_range fs)).
  { induction fs as [|f fs IH]; simpl; pres (first [ apply R | exact IH | lframe_leaf ]). }
  unfold TarZip, tar_NewWriter.
  pres (first [ apply L | apply tw_Close_frame | lframe_leaf ]).
Qed.

Lemma TarZip_local zr : preserves (extends is_local) (TarZip zr).
Proof.
  assert (R : forall f, preserves (extends is_local) (TarZip_round f)).
  { intros f. unfold TarZip_round, CopyBuffer.
    pres (first [ apply tw_WriteHeader_local | apply copyLoop_local ]). }
  assert (L : forall fs, preserves (extends is_local) (TarZip_range fs)).
  { induction fs as [|f fs IH]; simpl; pres (first [ apply R | exact IH ]). }
  unfold TarZip, tar_NewWriter, set_tw.
  pres (first [ apply L | apply tw_Close_local
              | idtac; match goal with
                | |- preserves _ (modify _) => apply extends_quiet; reflexivity
                end ]).
Qed.

(** X15.  [TarDir], [TarZip] and [ReaderToBlob] stay on this side:
    whatever their outcome, the store, the receiver and the source tree
    are as before and no call to the store is in the trace. *)
Theorem packing_is_local :
  (forall src, preserves stayed_local (TarDir src)) /\
  (forall zr, preserves stayed_local (TarZip zr)) /\
  (forall fr, preserves stayed_local (ReaderToBlob fr)).
Proof.
  split; [|split]; intros; apply stayed_local_both;
    auto using TarDir_frame, TarDir_local, TarZip_frame, TarZip_local,
               ReaderToBlob_frame, ReaderToBlob_local.
Qed.

End Zip.

(** ** [Untargz] *)

Section Untarring.
Context {filesystem : FileSystem}.

#[local] Opaque copyBufferSize.


(** ** The calls *)

Lemma copyOut_calls fuel f name : forall content rerr x,
  exists cs,
    x_calls (snd (copyOut fuel f name content rerr x)) = x_calls x ++ cs /\
    Forall (fun c => exists p, c = CallWrite name p) cs.
Proof.
  induction fuel as [|fuel IH]; intros content rerr x; simpl.
  - exists []. rewrite app_nil_r. split; [reflexivity|constructor].
  - destruct content as [|c content].
    { exists []. rewrite app_nil_r. split; [reflexivity|constructor]. }
    destruct (f_Write _ f _) as [s [nw [e|]]]; simpl.
    + eexists [_]. split; [reflexivity|]. repeat constructor. eauto.
    + destruct (nw =? _).
      * match goal with
        | |- context [copyOut fuel f name ?d rerr ?y] =>
            destruct (IH d rerr y) as (cs & E & F)
        end.
        eexists (_ :: cs). rewrite E. simpl. rewrite <- app_assoc.
        split; [reflexivity|]. constructor; eauto.
      * eexists [_]. split; [reflexivity|]. repeat constructor. eauto.
Qed.

Lemma extract_calls dst h content rerr x :
  exists cs,
    x_calls (snd (extract dst h content rerr x)) = x_calls x ++ cs /\
    Forall (asked_for dst [NextEntry h content rerr]) cs.
Proof.
  assert (Hin : forall flag, h_Typeflag h = flag ->
                  entry_of [NextEntry h content rerr] flag h).
  { intros flag Hf. split; [exact Hf|]. exists content, rerr. left. reflexivity. }
  unfold extract. destruct (h_Typeflag h) eqn:Hf.
  - (* regular file *)
    destruct (os_OpenFile _ _ _ _) as [s [e|f]] eqn:Hopen; simpl.
    + eexists [_]. split; [reflexivity|]. repeat constructor. simpl. eauto 10.
    + match goal with
      | |- context [copyOut ?n ?f ?t ?c ?r ?y] =>
          destruct (copyOut_calls n f t c r y) as (cs & E & F);
          destruct (copyOut n f t c r y) as [[e|] x1]
      end; simpl in *.
      * eexists (_ :: cs). rewrite E, <- app_assoc. split; [reflexivity|].
        constructor; [simpl; eauto 10|].
        eapply Forall_impl; [exact F|]. intros c (p & ->). simpl. eauto.
      * eexists (_ :: cs ++ [_]). rewrite E, <- !app_assoc.
        split; [reflexivity|].
        constructor; [simpl; eauto 10|]. apply Forall_app. split.
        -- eapply Forall_impl; [exact F|]. intros c (p & ->). simpl. eauto.
        -- repeat constructor. simpl. eauto.
  - (* directory *)
    simpl. destruct (os_Stat _ _).
    + destruct (os_MkdirAll _ _ _) as [s err]. simpl.
      eexists [_; _]. rewrite <- app_assoc. split; [reflexivity|].
      repeat constructor; simpl; eauto.
    + eexists [_]. split; [reflexivity|]. repeat constructor. simpl. eauto.
  - (* symbolic link *)
    destruct (os_Symlink _ _ _) as [s err]. simpl.
    eexists [_]. split; [reflexivity|]. repeat constructor. simpl. eauto.
  - eexists [_]. split; [reflexivity|]. repeat constructor.
  - eexists [_]. split; [reflexivity|]. repeat constructor.
  - eexists [_]. split; [reflexivity|]. repeat constructor.
Qed.

Lemma asked_for_more dst items items' c :
  (forall it, In it items -> In it items') ->
  asked_for dst items c -> asked_for dst items' c.
Proof.
  intros Hsub.
  assert (E : forall flag h, entry_of items flag h -> entry_of items' flag h).
  { intros flag h (Hf & content & rerr & Hin). split; [exact Hf|]. eauto. }
  destruct c; simpl; try tauto.
  - intros (h & H & ?). eauto.
  - intros (? & h & H & ?). eauto.
  - intros (? & h & H & ?). eauto.
  - intros (h & H & ?). eauto.
  - intros (h & H & ?). eauto.
  - intros (h & H & ?). eauto.
Qed.

Lemma Untargz_loop_calls dst items : forall x,
  exists cs,
    x_calls (snd (Untargz_loop dst items x)) = x_calls x ++ cs /\
    Forall (asked_for dst items) cs.
Proof.
  induction items as [|[e| |h content rerr] items IH]; intros x; simpl.
  - exists []. rewrite app_nil_r. split; [reflexivity|constructor].
  - exists []. rewrite app_nil_r. split; [reflexivity|constructor].
  - destruct (IH x) as (cs & E & F). exists cs. split; [exact E|].
    eapply Forall_impl; [exact F|]. intros c. apply asked_for_more.
    intros it Hin. right. exact Hin.
  - destruct (extract_calls dst h content rerr x) as (cs1 & E1 & F1).
    assert (F1' : Forall (asked_for dst (NextEntry h content rerr :: items)) cs1).
    { eapply Forall_impl; [exact F1|]. intros c. apply asked_for_more.
      intros it [<-|[]]. left. reflexivity. }
    destruct (extract dst h content rerr x) as [[e|] x1]; simpl in *.
    + exists cs1. auto.
    + destruct (IH x1) as (cs2 & E2 & F2). exists (cs1 ++ cs2).
      rewrite E2, E1, app_assoc. split; [reflexivity|].
      apply Forall_app. split; [exact F1'|].
      eapply Forall_impl; [exact F2|]. intros c. apply asked_for_more.
      intros it Hin. right. exact Hin.
Qed.

(** X21.  What [Untargz] asks of the file system: every path is
    [filepath.Join(dst, header.Name)] for an entry of the archive, used
    as it comes; directories are looked up and made with mode 0755;
    regular files are opened with [O_CREATE|O_RDWR] (which has no
    [O_TRUNC]) and the mode of the header, written and closed; links
    are made from [header.Linkname]. *)
Theorem untargz_calls dst items x :
  Forall (asked_for dst items)
         (new_calls x (snd (Untargz dst (inr items) x))) /\
  Z.land (Z.lor O_CREATE O_RDWR) O_TRUNC = 0.
Proof.
  split; [|reflexivity].
  destruct (Untargz_loop_calls dst items x) as (cs & E & F).
  unfold Untargz, new_calls.
  destruct (Untargz_loop dst items x) as [[r|] x1]; simpl in *;
    rewrite E, drop_app_length; exact F.
Qed.

(** ** Entries of other types *)

Lemma same_fs_called c x y :
  same_fs x y -> same_fs (called c x) (called c y).
Proof.
  intros [Hs Hc]. split; [exact Hs|]. unfold fs_calls, called in *. simpl.
  rewrite !List.filter_app, Hc. reflexivity.
Qed.

Lemma same_fs_moved s x y :
  same_fs x y -> same_fs (moved s x) (moved s y).
Proof. intros [Hs Hc]. split; [reflexivity|exact Hc]. Qed.

Lemma same_fs_print msg x y :
  same_fs x y -> same_fs (called (CallLogPrint msg) x) y.
Proof.
  intros [Hs Hc]. split; [exact Hs|]. unfold fs_calls, called in *. simpl.
  rewrite List.filter_app. simpl. rewrite app_nil_r. exact Hc.
Qed.

Lemma copyOut_same fuel f name : forall content rerr x y,
  same_fs x y ->
  fst (copyOut fuel f name content rerr x) =
    fst (copyOut fuel f name content rerr y) /\
  same_fs (snd (copyOut fuel f name content rerr x))
          (snd (copyOut fuel f name content rerr y)).
Proof.
  induction fuel as [|fuel IH]; intros content rerr x y Hxy; simpl.
  - auto.
  - destruct content as [|c content]; [auto|].
    pose proof Hxy as [Hs _]. simpl. rewrite Hs.
    destruct (f_Write _ f _) as [s [nw [e|]]]; simpl.
    + split; [reflexivity|]. apply same_fs_moved, same_fs_called, Hxy.
    + destruct (nw =? _).
      * apply IH. apply same_fs_moved, same_fs_called, Hxy.
      * split; [reflexivity|]. apply same_fs_moved, same_fs_called, Hxy.
Qed.

Lemma extract_same dst h content rerr x y :
  same_fs x y ->
  fst (extract dst h content rerr x) = fst (extract dst h content rerr y) /\
  same_fs (snd (extract dst h content rerr x))
          (snd (extract dst h content rerr y)).
Proof.
  intros Hxy. pose proof Hxy as [Hs _]. unfold extract.
  destruct (h_Typeflag h); simpl; rewrite ?Hs.
  - destruct (os_OpenFile _ _ _ _) as [s [e|f]]; simpl.
    + split; [reflexivity|]. apply same_fs_moved, same_fs_called, Hxy.
    + match goal with
      | |- context [copyOut ?n ?f ?t ?c ?r (moved ?s (called ?k x))] =>
          destruct (copyOut_same n f t c r
                      (moved s (called k x)) (moved s (called k y))
                      (same_fs_moved _ _ _ (same_fs_called k _ _ Hxy)))
            as [E1 E2];
          destruct (copyOut n f t c r (moved s (called k x))) as [[e|] x1];
          destruct (copyOut n f t c r (moved s (called k y))) as [[e'|] y1]
      end; simpl in *; try discriminate.
      * split; [exact E1|exact E2].
      * pose proof E2 as [Hs2 _]. rewrite Hs2. split; [reflexivity|].
        apply same_fs_moved, same_fs_called, E2.
  - destruct (os_Stat _ _).
    + destruct (os_MkdirAll _ _ _) as [s err]. simpl. split; [reflexivity|].
      apply same_fs_moved, same_fs_called, same_fs_called, Hxy.
    + split; [reflexivity|]. apply same_fs_called, Hxy.
  - destruct (os_Symlink _ _ _) as [s err]. simpl. split; [reflexivity|].
    apply same_fs_moved, same_fs_called, Hxy.
  - split; [reflexivity|]. apply same_fs_called, Hxy.
  - split; [reflexivity|]. apply same_fs_called, Hxy.
  - split; [reflexivity|]. apply same_fs_called, Hxy.
Qed.

Lemma Untargz_loop_skips dst items : forall x y,
  same_fs x y ->
  fst (Untargz_loop dst items x) =
    fst (Untargz_loop dst (List.filter extractable items) y) /\
  same_fs (snd (Untargz_loop dst items x))
          (snd (Untargz_loop dst (List.filter extractable items) y)).
Proof.
  induction items as [|[e| |h content rerr] items IH]; intros x y Hxy; simpl.
  - auto.
  - auto.
  - apply IH, Hxy.
  - destruct (h_Typeflag h) eqn:Hf; simpl.
    1-3: destruct (extract_same dst h content rerr x y Hxy) as [E1 E2];
         destruct (extract dst h content rerr x) as [[e|] x1];
         destruct (extract dst h content rerr y) as [[e'|] y1];
         simpl in *; try discriminate;
         [ split; [congruence|exact E2] | apply IH, E2 ].
    all: unfold extract; rewrite Hf; apply IH, same_fs_print, Hxy.
Qed.

(** X20.  Entries that are neither a directory, a regular file nor a
    symbolic link, and nil headers, leave no mark: with or without
    them, [Untargz] returns the same, leaves the same file system and
    makes the same calls to it (only a log line differs). *)
Theorem untargz_skips_other_types dst items x :
  let r1 := Untargz dst (inr items) x in
  let r2 := Untargz dst (inr (List.filter extractable items)) x in
  fst r1 = fst r2 /\
  x_fs (snd r1) = x_fs (snd r2) /\
  fs_calls (snd r1) = fs_calls (snd r2).
Proof.
  assert (Hxx : same_fs x x) by (split; reflexivity).
  destruct (Untargz_loop_skips dst items x x Hxx) as [E1 [E2 E3]].
  unfold Untargz.
  destruct (Untargz_loop dst items x) as [[r|] x1];
    destruct (Untargz_loop dst (List.filter extractable items) x) as [[r'|] x2];
    simpl in *; try discriminate; repeat split; congruence.
Qed.

End Untarring.

(** ** Keys and digests *)

Section Keys.
Context {compressor : Compressor} {minio : Minio} {tarfmt : TarFormat}.

Lemma byte_of_hex b :
  byte_of_Z (16 * hex_value (hexdigit (Z.shiftr (byte_to_Z b) 4))
             + hex_value (hexdigit (Z.land (byte_to_Z b) 15))) = b.
Proof. destruct b; reflexivity. Qed.

Lemma string_app_cons c (s t : string) : (String c s ++ t = String c (s ++ t))%string.
Proof. reflexivity. Qed.

Lemma parse_hex_fmt_x p : forall t, parse_hex (fmt_x p ++ t) = p ++ parse_hex t.
Proof.
  induction p as [|b p IH]; intros t; [reflexivity|].
  cbn [fmt_x]. rewrite !string_app_cons. cbn [parse_hex].
  rewrite byte_of_hex, IH. reflexivity.
Qed.

(** X10.  A key names one digest: two digests with the same object
    key are equal. *)
Theorem object_key_injective h1 h2 :
  Sprintf_blob_x_gz h1 = Sprintf_blob_x_gz h2 -> h1 = h2.
Proof.
  unfold Sprintf_blob_x_gz. intros H.
  apply (f_equal (drop_string 5)) in H.
  change (fmt_x h1 ++ ".gz" = fmt_x h2 ++ ".gz")%string in H.
  apply (f_equal parse_hex) in H. rewrite !parse_hex_fmt_x in H.
  exact (app_inv_tail _ _ _ H).
Qed.

Lemma string_length_app (a b : string) :
  String.length (a ++ b) = (String.length a + String.length b)%nat.
Proof. induction a as [|c a IH]; simpl; [reflexivity|]. rewrite IH. reflexivity. Qed.

Lemma fmt_x_length p : String.length (fmt_x p) = (2 * length p)%nat.
Proof. induction p as [|b p IH]; simpl; [reflexivity|]. rewrite IH. lia. Qed.

Lemma be_bytes_length n z : length (sha256.be_bytes n z) = n.
Proof. unfold sha256.be_bytes. rewrite length_map, length_rev, length_seq. reflexivity. Qed.

Lemma block1_length h p : length (sha256.block1 h p) = 8%nat.
Proof.
  unfold sha256.block1.
  destruct (fold_left _ _ _). reflexivity.
Qed.

Lemma block_length fuel : forall h p,
  length h = 8%nat -> length (sha256.block fuel h p) = 8%nat.
Proof.
  induction fuel as [|fuel IH]; intros h p Hh; simpl; [exact Hh|].
  destruct p; [exact Hh|]. apply IH, block1_length.
Qed.

Lemma flat_map_length_const {A B} (f : A -> list B) k l :
  (forall a, length (f a) = k) -> length (flat_map f l) = (k * length l)%nat.
Proof.
  intros Hf. induction l as [|a l IH]; simpl; [lia|].
  rewrite length_app, Hf, IH. lia.
Qed.

(** X11.  A digest has [sha256.Size] = 32 bytes, and the object key
    made of it has 72 characters. *)
Theorem object_key_length data :
  length (sha256.Sum256 data) = sha256.Size /\
  String.length (Sprintf_blob_x_gz (sha256.Sum256 data)) = 72%nat.
Proof.
  assert (L : length (sha256.Sum256 data) = 32%nat).
  { unfold sha256.Sum256. rewrite length_map.
    rewrite (flat_map_length_const _ 4); [|intros; apply be_bytes_length].
    rewrite block_length; reflexivity. }
  split; [exact L|].
  unfold Sprintf_blob_x_gz.
  rewrite !string_length_app, fmt_x_length, L. reflexivity.
Qed.

End Keys.

(** ** Paths of plain elements *)

Section Paths.

Lemma string_app_assoc (a b c : string) :
  ((a ++ b) ++ c = a ++ (b ++ c))%string.
Proof.
  induction a as [|x a IH]; [reflexivity|].
  rewrite !string_app_cons, IH. reflexivity.
Qed.

Lemma string_app_nil_r (a : string) : (a ++ "" = a)%string.
Proof.
  induction a as [|x a IH]; [reflexivity|].
  rewrite string_app_cons, IH. reflexivity.
Qed.

Lemma elements_slashless a : slashless a = true -> elements a = [a].
Proof.
  unfold slashless. induction a as [|c a IH]; [reflexivity|].
  simpl. intros H. apply andb_prop in H as [Hc Ha].
  apply negb_true_iff in Hc. rewrite Hc, (IH Ha). reflexivity.
Qed.

Lemma elements_app a b :
  slashless a = true -> elements (a ++ "/" ++ b) = a :: elements b.
Proof.
  unfold slashless. induction a as [|c a IH]; [reflexivity|].
  intros H. simpl in H. apply andb_prop in H as [Hc Ha].
  apply negb_true_iff in Hc. rewrite string_app_cons. cbn [elements].
  rewrite Hc, (IH Ha). reflexivity.
Qed.

Lemma plain_inv s :
  plain s = true ->
  String.eqb s "" = false /\ slashless s = true /\
  String.eqb s "." = false /\ String.eqb s ".." = false.
Proof.
  unfold plain. intros H.
  apply andb_prop in H as [H H4]. apply andb_prop in H as [H H3].
  apply andb_prop in H as [H1 H2].
  apply negb_true_iff in H1, H3, H4. auto.
Qed.

Lemma clean_step_plain rooted kept e :
  plain e = true -> clean_step rooted kept e = e :: kept.
Proof.
  intros H. destruct (plain_inv _ H) as (H1 & _ & H3 & H4).
  unfold clean_step. rewrite H1, H3, H4. reflexivity.
Qed.

Lemma clean_step_up rooted top rest :
  String.eqb top ".." = false ->
  clean_step rooted (top :: rest) ".." = rest.
Proof. intros H. unfold clean_step. simpl. rewrite H. reflexivity. Qed.

Lemma join_step es : forall a b,
  fold_left (fun acc x => acc ++ "/" ++ x)%string es (a ++ "/" ++ b)%string =
  (a ++ "/" ++ fold_left (fun acc x => acc ++ "/" ++ x)%string es b)%string.
Proof.
  induction es as [|e es IH]; intros a b; [reflexivity|].
  cbn [fold_left]. rewrite string_app_assoc.
  change ((("/" ++ b) ++ "/" ++ e)%string) with ("/" ++ (b ++ "/" ++ e))%string.
  apply IH.
Qed.

Lemma join_elements_cons e e' es :
  join_elements (e :: e' :: es) = (e ++ "/" ++ join_elements (e' :: es))%string.
Proof. unfold join_elements. cbn [fold_left]. apply join_step. Qed.

Lemma join_elements_snoc es x :
  es <> [] ->
  join_elements (es ++ [x]) = (join_elements es ++ "/" ++ x)%string.
Proof.
  destruct es as [|e es]; [congruence|]. intros _.
  unfold join_elements. cbn [app]. rewrite fold_left_app. reflexivity.
Qed.

Lemma path_of_snoc rooted es x :
  es <> [] ->
  path_of rooted (es ++ [x]) = (path_of rooted es ++ "/" ++ x)%string.
Proof.
  intros H. unfold path_of. rewrite (join_elements_snoc _ _ H).
  rewrite string_app_assoc. reflexivity.
Qed.

Lemma plain_slashless e : plain e = true -> slashless e = true.
Proof. intros H. destruct (plain_inv _ H) as (_ & H2 & _). exact H2. Qed.

Lemma elements_join e es :
  forallb plain (e :: es) = true ->
  elements (join_elements (e :: es)) = e :: es.
Proof.
  revert e. induction es as [|e' es IH]; intros e H.
  - simpl in H. apply andb_prop in H as [H _].
    exact (elements_slashless _ (plain_slashless _ H)).
  - cbn [forallb] in H. apply andb_prop in H as [He H].
    rewrite join_elements_cons, (elements_app _ _ (plain_slashless _ He)).
    rewrite (IH e' H). reflexivity.
Qed.

Lemma fold_clean_plain rooted es : forall kept,
  forallb plain es = true ->
  fold_left (clean_step rooted) es kept = rev es ++ kept.
Proof.
  induction es as [|e es IH]; intros kept H; [reflexivity|].
  cbn [forallb] in H. apply andb_prop in H as [He H].
  cbn [fold_left rev]. rewrite (clean_step_plain _ _ _ He), (IH _ H).
  rewrite <- app_assoc. reflexivity.
Qed.

Lemma join_elements_head e es :
  exists t, join_elements (e :: es) = (e ++ t)%string.
Proof.
  destruct es as [|e' es].
  - exists "". simpl. rewrite string_app_nil_r. reflexivity.
  - eexists. apply join_elements_cons.
Qed.

Lemma plain_head e :
  plain e = true -> exists c e', e = String c e' /\ is_slash c = false.
Proof.
  intros H. destruct (plain_inv _ H) as (H1 & H2 & _).
  destruct e as [|c e']; [discriminate|].
  exists c, e'. split; [reflexivity|].
  unfold slashless in H2. simpl in H2. apply andb_prop in H2 as [Hc _].
  apply negb_true_iff in Hc. exact Hc.
Qed.

Lemma join_elements_unrooted e es :
  plain e = true -> HasPrefix (join_elements (e :: es)) "/" = false.
Proof.
  intros H. destruct (join_elements_head e es) as (t & ->).
  destruct (plain_head _ H) as (c & e' & -> & Hc).
  rewrite string_app_cons. cbn [HasPrefix].
  unfold is_slash in Hc. rewrite Ascii.eqb_sym, Hc. reflexivity.
Qed.

(** A path of plain elements is clean. *)
Lemma Clean_path_of rooted es :
  es <> [] -> forallb plain es = true ->
  Clean (path_of rooted es) = path_of rooted es.
Proof.
  intros Hne Hp. destruct es as [|e es]; [congruence|].
  pose proof Hp as Hp'. cbn [forallb] in Hp'. apply andb_prop in Hp' as [He _].
  unfold Clean, path_of. destruct rooted.
  - change ("/" ++ join_elements (e :: es))%string
      with (String "/" (join_elements (e :: es))).
    cbn [HasPrefix elements]. rewrite Ascii.eqb_refl.
    assert (Hs : is_slash "/" = true) by reflexivity. rewrite Hs.
    assert (Hh : forall s, HasPrefix s "" = true) by (intros []; reflexivity).
    rewrite Hh. cbn [andb].
    rewrite (elements_join _ _ Hp).
    change (fold_left (clean_step true) ("" :: e :: es) [])
      with (fold_left (clean_step true) (e :: es) []).
    rewrite (fold_clean_plain _ _ _ Hp), app_nil_r, rev_involutive.
    reflexivity.
  - change ("" ++ join_elements (e :: es))%string with (join_elements (e :: es)).
    rewrite (join_elements_unrooted _ es He), (elements_join _ _ Hp).
    rewrite (fold_clean_plain _ _ _ Hp), app_nil_r, rev_involutive.
    reflexivity.
Qed.

Lemma path_of_nonempty rooted e es :
  plain e = true -> path_of rooted (e :: es) <> "".
Proof.
  intros He. unfold path_of. destruct rooted; [discriminate|].
  destruct (join_elements_head e es) as (t & ->).
  destruct (plain_head _ He) as (c & e' & -> & _). discriminate.
Qed.

(** Joining a tidy path and a plain name adds a separator and the
    name, and the result is tidy. *)
Lemma Join_tidy q name :
  tidy q -> plain name = true ->
  Join q name = (q ++ "/" ++ name)%string /\ tidy (q ++ "/" ++ name).
Proof.
  intros (rooted & es & Hne & Hp & ->) Hn.
  assert (Hp' : forallb plain (es ++ [name]) = true).
  { rewrite forallb_app, Hp. simpl. rewrite Hn. reflexivity. }
  assert (Hne' : es ++ [name] <> []) by (destruct es; discriminate).
  split.
  - unfold Join, filepath_Join.
    destruct es as [|e es]; [congruence|].
    pose proof Hp as He. cbn [forallb] in He. apply andb_prop in He as [He _].
    pose proof (path_of_nonempty rooted e es He) as Hq.
    destruct (path_of rooted (e :: es)) as [|c q] eqn:E; [congruence|].
    rewrite <- E, <- (path_of_snoc rooted (e :: es) name) by discriminate.
    apply (Clean_path_of rooted ((e :: es) ++ [name])); assumption.
  - exists rooted, (es ++ [name]). split; [exact Hne'|]. split; [exact Hp'|].
    symmetry. apply path_of_snoc, Hne.
Qed.

Lemma tidy_nonempty q : tidy q -> q <> "".
Proof.
  intros (rooted & es & Hne & Hp & ->).
  destruct es as [|e es]; [congruence|].
  cbn [forallb] in Hp. apply andb_prop in Hp as [He _].
  exact (path_of_nonempty _ _ _ He).
Qed.

End Paths.

(** ** Entry names *)

Section Relocation.
Context {compressor : Compressor} {minio : Minio} {tarfmt : TarFormat}.

Lemma HasPrefix_app (old s : string) : HasPrefix (old ++ s) old = true.
Proof.
  induction old as [|c old IH]; [destruct s; reflexivity|].
  rewrite string_app_cons. simpl. rewrite Ascii.eqb_refl. exact IH.
Qed.

Lemma cut_all_skip old (t s : string) :
  cut_all old (String.length t) (t ++ s) = cut_all old O s.
Proof.
  induction t as [|c t IH]; [reflexivity|].
  rewrite string_app_cons. simpl. exact IH.
Qed.

(** Cutting [old] out of [old ++ s] starts by cutting that [old]. *)
Lemma Replace_root old s :
  old <> "" ->
  Replace_with_empty (old ++ s) old = Replace_with_empty s old.
Proof.
  intros Hne. unfold Replace_with_empty.
  destruct old as [|c old]; [congruence|].
  pose proof (HasPrefix_app (String c old) s) as Hp.
  rewrite string_app_cons in *. cbn [cut_all]. rewrite Hp.
  cbn [String.length]. apply cut_all_skip.
Qed.

Lemma entry_name_root src : src <> "" -> entry_name src src = "".
Proof.
  intros Hne. unfold entry_name.
  rewrite <- (string_app_nil_r src) at 1. rewrite (Replace_root _ _ Hne).
  reflexivity.
Qed.

Lemma entry_name_below src p :
  src <> "" -> Replace_with_empty p src = p ->
  entry_name src (src ++ p) = TrimPrefix p Separator.
Proof.
  intros Hne Hp. unfold entry_name. rewrite (Replace_root _ _ Hne), Hp.
  reflexivity.
Qed.

Lemma walkFn_entry_name src1 file1 src2 file2 fi opened err :
  entry_name src1 file1 = entry_name src2 file2 ->
  walkFn src1 file1 fi opened err = walkFn src2 file2 fi opened err.
Proof. unfold entry_name, walkFn. intros ->. reflexivity. Qed.

#[local] Arguments walkFn : simpl never.

#[local] Arguments Join : simpl never.

Lemma walk_relocate src1 src2 n :
  src1 <> "" -> src2 <> "" ->
  forall p w,
    tidy (src1 ++ p) -> tidy (src2 ++ p) ->
    entry_name src1 (src1 ++ p) = entry_name src2 (src2 ++ p) ->
    names_clear src1 p n = true -> names_clear src2 p n = true ->
    walk src1 (src1 ++ p) n w = walk src2 (src2 ++ p) n w.
Proof.
  intros H1 H2.
  induction n using Node_mut with
    (P0 := fun cs => forall p w,
       tidy (src1 ++ p) -> tidy (src2 ++ p) ->
       kids_clear src1 p cs = true -> kids_clear src2 p cs = true ->
       walk_children src1 (src1 ++ p) cs w =
       walk_children src2 (src2 ++ p) cs w);
    intros p w T1 T2.
  - intros Hn C1 C2. simpl in *.
    rewrite (walkFn_entry_name _ _ _ _ (Some fi) data None Hn).
    rewrite (walkFn_entry_name _ _ _ _ (Some fi) data dirErr Hn).
    destruct (negb (IsDir_fi fi)); [reflexivity|].
    rewrite !run_bind.
    destruct (walkFn src2 (src2 ++ p) (Some fi) data dirErr w)
      as [[err1|msg] w1]; [|reflexivity].
    destruct dirErr, err1; try reflexivity. apply IHn; assumption.
  - intros Hn _ _. simpl.
    rewrite (walkFn_entry_name _ _ _ _ None (inl err) (Some err) Hn).
    reflexivity.
  - reflexivity.
  - intros C1 C2. cbn [kids_clear] in C1, C2.
    apply andb_prop in C1 as [C1 C1r]. apply andb_prop in C1 as [C1 C1n].
    apply andb_prop in C1 as [Cp C1e].
    apply andb_prop in C2 as [C2 C2r]. apply andb_prop in C2 as [C2 C2n].
    apply andb_prop in C2 as [_ C2e].
    apply String.eqb_eq in C1e, C2e.
    unfold Separator in C1e, C2e, C1n, C2n.
    destruct (Join_tidy _ name T1 Cp) as [J1 T1'].
    destruct (Join_tidy _ name T2 Cp) as [J2 T2'].
    simpl. rewrite J1, J2.
    rewrite !string_app_assoc in *. rewrite !run_bind.
    rewrite (IHn (p ++ "/" ++ name)%string w); try assumption.
    + destruct (walk src2 _ n w) as [[[e|]|msg] w1]; try reflexivity.
      apply IHn0; assumption.
    + rewrite (entry_name_below _ _ H1 C1e), (entry_name_below _ _ H2 C2e).
      reflexivity.
Qed.

(** X13.  The archive does not depend on where the directory lives:
    the same tree packed from two roots gives the same result and the
    same writes, provided both roots are paths of plain elements (so
    that [filepath.Join] leaves the paths of the walk as they are), the
    names in the tree are plain, and neither root occurs as a substring
    in a path below it. *)
Theorem packing_ignores_location src1 src2 n t1 t2 w :
  tidy src1 -> tidy src2 ->
  t1 !! src1 = Some n -> t2 !! src2 = Some n ->
  names_clear src1 "" n = true -> names_clear src2 "" n = true ->
  let r1 := TarDir src1 (with_tree t1 w) in
  let r2 := TarDir src2 (with_tree t2 w) in
  fst r1 = fst r2 /\ snd r2 = with_tree t2 (snd r1).
Proof.
  intros T1 T2 Hn1 Hn2 C1 C2 r1 r2. subst r1 r2.
  pose proof (tidy_nonempty _ T1) as H1.
  pose proof (tidy_nonempty _ T2) as H2.
  rewrite !TarDir_root. simpl. rewrite Hn1, Hn2.
  destruct n as [fi data dirErr children|e]; [|split; reflexivity].
  rewrite !pack_blind.
  assert (E : forall v,
    (tar_NewWriter ≫= λ _, defer tw_Close
       (walk src1 src1 (Entry fi data dirErr children))) v =
    (tar_NewWriter ≫= λ _, defer tw_Close
       (walk src2 src2 (Entry fi data dirErr children))) v).
  { intros v. rewrite !run_bind. simpl. rewrite !defer_run.
    pose proof (walk_relocate src1 src2 (Entry fi data dirErr children) H1 H2 "") as R.
    rewrite !string_app_nil_r in R.
    rewrite R; [reflexivity|exact T1|exact T2| |exact C1|exact C2].
    rewrite !entry_name_root by assumption. reflexivity. }
  rewrite E. simpl. split; reflexivity.
Qed.

End Relocation.

(** ** Entry names that collide *)

Section Collide.
Context {compressor : Compressor} {minio : Minio} {tarfmt : TarFormat}.

(** X14.  The root entry has an empty name, and a path that repeats
    the root right after it loses the repetition: the entry for
    [src ++ src ++ q] is written exactly as the entry for [src ++ q]
    would be (all occurrences of [src] are cut from the path, not only
    the leading one). *)
Theorem entry_names_collide src q fi opened err :
  src <> "" ->
  entry_name src src = "" /\
  walkFn src (src ++ src ++ q) fi opened err =
    walkFn src (src ++ q) fi opened err.
Proof.
  intros Hne. split; [exact (entry_name_root _ Hne)|].
  apply walkFn_entry_name. unfold entry_name.
  rewrite !(Replace_root _ _ Hne). reflexivity.
Qed.

End Collide.

(** ** [Untargz] and the destination *)

Section Escaping.
Context {filesystem : FileSystem}.

#[local] Opaque copyBufferSize.

(** Joining a plain directory and a name that starts with [".."] leads
    out of the directory. *)
Lemma Join_dotdot dst n :
  plain dst = true -> plain n = true ->
  filepath_Join dst ("../" ++ n) = n.
Proof.
  intros Hd Hn.
  destruct (plain_inv _ Hd) as (Hd1 & Hd2 & Hd3 & Hd4).
  destruct (plain_inv _ Hn) as (Hn1 & Hn2 & Hn3 & Hn4).
  unfold filepath_Join.
  destruct dst as [|c dst]; [discriminate|].
  unfold Clean.
  assert (Hr : HasPrefix (String c dst ++ "/" ++ "../" ++ n) "/" = false).
  { rewrite string_app_cons. cbn [HasPrefix].
    unfold slashless in Hd2. simpl in Hd2. apply andb_prop in Hd2 as [Hc _].
    unfold is_slash in Hc. apply negb_true_iff in Hc.
    rewrite Ascii.eqb_sym, Hc. reflexivity. }
  rewrite Hr.
  change ("../" ++ n)%string with (".." ++ "/" ++ n)%string.
  rewrite (elements_app _ _ Hd2), (elements_app ".." n eq_refl),
          (elements_slashless _ Hn2).
  cbn [fold_left].
  rewrite (clean_step_plain _ _ _ Hd), (clean_step_up _ _ _ Hd4),
          (clean_step_plain _ _ _ Hn).
  reflexivity.
Qed.

Lemma extract_regular dst h content rerr x :
  h_Typeflag h = TypeReg ->
  let target := filepath_Join dst (h_Name h) in
  let flag := Z.lor O_CREATE O_RDWR in
  let mode := FileMode (h_Mode h) in
  exists writes,
    Forall (fun c => is_write c = true) writes /\
    match snd (os_OpenFile (x_fs x) target flag mode),
          fst (extract dst h content rerr x) with
    | inl _, _ =>
        x_calls (snd (extract dst h content rerr x)) =
          x_calls x ++ [CallOpenFile target flag mode]
    | inr _, Some _ =>
        x_calls (snd (extract dst h content rerr x)) =
          x_calls x ++ CallOpenFile target flag mode :: writes
    | inr _, None =>
        x_calls (snd (extract dst h content rerr x)) =
          x_calls x ++ CallOpenFile target flag mode :: writes
                   ++ [CallClose target]
    end.
Proof.
  intros Hf target flag mode. unfold extract. rewrite Hf.
  fold target flag mode.
  destruct (os_OpenFile _ _ _ _) as [s [e|f]]; simpl.
  - exists []. split; [constructor|reflexivity].
  - match goal with
    | |- context [copyOut ?n ?f ?t ?c ?r ?y] =>
        destruct (copyOut_calls n f t c r y) as (cs & E & F);
        destruct (copyOut n f t c r y) as [[e|] x1]
    end; simpl in *; exists cs;
      (split; [eapply Forall_impl; [exact F|]; intros c (p & ->); reflexivity|]);
      rewrite E, <- ?app_assoc; reflexivity.
Qed.

(** X22.  When the extraction of a regular file fails, no [Close] is
    called: besides writes, the one call made is the [OpenFile].  A file
    that was opened and whose copy failed is left open. *)
Theorem untargz_leaves_file_open dst h content rerr x e :
  h_Typeflag h = TypeReg ->
  fst (extract dst h content rerr x) = Some e ->
  List.filter (fun c => negb (is_write c))
    (new_calls x (snd (extract dst h content rerr x))) =
  [CallOpenFile (filepath_Join dst (h_Name h)) (Z.lor O_CREATE O_RDWR)
                (FileMode (h_Mode h))].
Proof.
  intros Hf He.
  destruct (extract_regular dst h content rerr x Hf) as (writes & Hw & Hc).
  simpl in Hc. rewrite He in Hc. unfold new_calls.
  assert (Hnone : List.filter (fun c => negb (is_write c)) writes = []).
  { clear Hc. induction Hw as [|c l Hc _ IH]; [reflexivity|].
    simpl. rewrite Hc. exact IH. }
  destruct (snd (os_OpenFile _ _ _ _)); rewrite Hc, drop_app_length; simpl.
  - reflexivity.
  - rewrite Hnone. reflexivity.
Qed.

(** X23.  Nothing keeps an entry under the destination: for a plain
    directory [dst], the regular file named [../n] in the archive is
    opened (created) as [n], beside [dst]. *)
Theorem untargz_escapes_destination dst n h content rerr items x :
  plain dst = true -> plain n = true ->
  h_Typeflag h = TypeReg -> h_Name h = ("../" ++ n)%string ->
  filepath_Join dst (h_Name h) = n /\
  exists cs,
    new_calls x (snd (Untargz dst (inr (NextEntry h content rerr :: items)) x)) =
      CallOpenFile n (Z.lor O_CREATE O_RDWR) (FileMode (h_Mode h)) :: cs.
Proof.
  intros Hd Hn Hf Hname.
  assert (Hj : filepath_Join dst (h_Name h) = n)
    by (rewrite Hname; exact (Join_dotdot _ _ Hd Hn)).
  split; [exact Hj|].
  destruct (extract_regular dst h content rerr x Hf) as (writes & _ & Hc).
  simpl in Hc. rewrite Hj in Hc.
  assert (Hx : exists cs1,
    x_calls (snd (extract dst h content rerr x)) =
      x_calls x ++ CallOpenFile n (Z.lor O_CREATE O_RDWR) (FileMode (h_Mode h)) :: cs1).
  { destruct (snd (os_OpenFile _ _ _ _)), (fst (extract dst h content rerr x));
      rewrite Hc; eauto. }
  destruct Hx as (cs1 & E1).
  unfold Untargz, new_calls. simpl.
  destruct (extract dst h content rerr x) as [[e|] x1]; simpl in *.
  - exists cs1. rewrite E1, drop_app_length. reflexivity.
  - destruct (Untargz_loop_calls dst items x1) as (cs2 & E2 & _).
    exists (cs1 ++ cs2).
    destruct (Untargz_loop dst items x1) as [[r|] x2]; simpl in *;
      rewrite E2, E1, <- app_assoc, drop_app_length; reflexivity.
Qed.

End Escaping.

(* ===================================================================== *)
(** * The theorems at work on the sample runs                             *)
(* ===================================================================== *)

Import Sample.

Lemma run_eq {A B} (p : A * B) (r : A) : fst p = r -> p = (r, snd p).
Proof. intros <-. destruct p. reflexivity. Qed.

(** Equations between closed terms are settled by evaluation; the
    outcome of a run is evaluated, the world it leaves is named. *)
Ltac by_vm :=
  match goal with
  | |- ?x = ?y => exact (@eq_refl _ x <: x = y)
  end.

Ltac by_run :=
  match goal with
  | |- ?m = (?r, _) => exact (run_eq m r (@eq_refl _ (fst m) <: fst m = r))
  end.


Lemma check_duplicate_iff_witness :
  let w := sealed holding in
  exists dup,
    fst (CheckDuplicate w) = Ret dup /\
    (dup = true <->
     reported_size "s3.example.org" (w_remote w) (Bucket (config (w_s3 w)))
       (RemoteObjectKey (Hash_of sealed_blob)) = Some (Size_of sealed_blob)) /\
    (reported_size "s3.example.org" (w_remote w) (Bucket (config (w_s3 w)))
       (RemoteObjectKey (Hash_of sealed_blob)) = None -> dup = false).
Proof.
  apply (check_duplicate_iff (sealed holding) sealed_blob "s3.example.org").
  - reflexivity.
  - by_vm.
Defined.

Lemma object_key_format_witness :
  let w := sealed store0 in
  let b := sealed_blob in
  let bucket := Bucket (config (w_s3 w)) in
  let key := RemoteObjectKey (Hash_of b) in
  let path := f_name (File b) in
  let opts := upload_options b in
  Sprintf_blob_x_gz (Hash_of b) = key /\
  new_events w (snd (CheckDuplicate w)) =
    EvGet bucket key ::
      match snd (mc_GetObject "s3.example.org" (w_remote w) bucket key) with
      | Some _ => []
      | None => [EvStat bucket key]
      end /\
  new_events w (snd (UploadBlob w)) =
    EvPut bucket key path opts ::
      match snd (snd (mc_FPutObject "s3.example.org" (w_remote w) bucket key
                        (d_files (w_disk w) !! path) opts)) with
      | Some _ => [EvDel bucket key]
      | None => []
      end /\
  (forall w' b' c',
     w_blob w' = Some b' -> client_of (w_s3 w') = Some c' ->
     Hash_of b' = Hash_of b ->
     exists rest rest',
       new_events w' (snd (CheckDuplicate w')) =
         EvGet (Bucket (config (w_s3 w'))) key :: rest /\
       new_events w' (snd (UploadBlob w')) =
         EvPut (Bucket (config (w_s3 w'))) key (f_name (File b'))
               (upload_options b') :: rest').
Proof.
  apply (object_key_format (sealed store0) sealed_blob "s3.example.org").
  - reflexivity.
  - by_vm.
Defined.

Lemma upload_dir_after_check_witness :
  let w0 := world 5000 1 2 uploaded in
  exists b,
    w_blob (packed w0) = Some b /\
    (true = true ->
       fst (UploadDir "d" w0) = Ret (Some (Hash_of b), None) /\
       List.filter is_put (new_events w0 (snd (UploadDir "d" w0))) = []) /\
    (true = false ->
       forall e w5,
         UploadBlob (snd (CheckDuplicate (packed w0))) = (Ret (Some e), w5) ->
         fst (UploadDir "d" w0) =
           Ret (Some (Hash_of b), Some (Wrap e "Failed to upload dir"))).
Proof.
  apply (upload_dir_after_check "d" (world 5000 1 2 uploaded)
           (packed (world 5000 1 2 uploaded)) true
           (snd (CheckDuplicate (packed (world 5000 1 2 uploaded))))).
  - exists (snd (NewLocalBlob (world 5000 1 2 uploaded))),
           (before_Close (world 5000 1 2 uploaded)).
    split; [by_run|]. split; [unfold before_Close; by_run|].
    unfold packed. by_run.
  - by_run.
Defined.

Lemma spool_file_removed_witness :
  exists name b,
    w_blob fresh = Some b /\ f_name (File b) = name /\
    d_files (w_disk fresh) !! name = Some [] /\
    d_files (w_disk (snd (UploadDir "d" (world 100 0 0 store0)))) !! name = None.
Proof.
  apply (spool_file_removed "d" (world 100 0 0 store0) fresh).
  unfold fresh. by_run.
Defined.

Lemma write_effects_in_order_witness :
  exists spool,
    forallb is_spool spool = true /\
    w_trace (snd (Write hello fresh)) =
      w_trace fresh ++ EvGzip hello :: spool ++ EvUcw 5 ::
        [EvHash hello; EvProgress (len hello)].
Proof.
  apply (write_effects_in_order hello fresh 5 None (snd (Write hello fresh))).
  by_run.
Defined.

Lemma upload_blob_cleanup_witness :
  let w := sealed flaky in
  let b := sealed_blob in
  let bucket := Bucket (config (w_s3 w)) in
  let key := RemoteObjectKey (Hash_of b) in
  let path := f_name (File b) in
  let opts := upload_options b in
  let put := mc_FPutObject "s3.example.org" (w_remote w) bucket key
               (d_files (w_disk w) !! path) opts in
  match snd (snd put) with
  | Some e =>
      fst (UploadBlob w) = Ret (Some (Wrap e "Error while uploading blob")) /\
      new_events w (snd (UploadBlob w)) =
        [EvPut bucket key path opts; EvDel bucket key] /\
      w_remote (snd (UploadBlob w)) =
        fst (mc_RemoveObject "s3.example.org" (fst put) bucket key)
  | None =>
      fst (UploadBlob w) = Ret None /\
      new_events w (snd (UploadBlob w)) = [EvPut bucket key path opts] /\
      w_remote (snd (UploadBlob w)) = fst put
  end.
Proof.
  apply (upload_blob_cleanup (sealed flaky) sealed_blob "s3.example.org").
  - reflexivity.
  - by_vm.
Defined.

Lemma packing_deterministic_witness :
  let w := snd (update (set_IsDir true) fresh) in
  let r1 := TarDir "d" (with_tree {[ "d" := tree_d 7 9 ]} w) in
  let r2 := TarDir "d" (with_tree {[ "d" := tree_d 1000000007 2000000009 ]} w) in
  fst r1 = fst r2 /\
  snd r2 = with_tree {[ "d" := tree_d 1000000007 2000000009 ]} (snd r1) /\
  written (w_trace (snd r1)) = written (w_trace (snd r2)) /\
  Hash_of <$> w_blob (snd r1) = Hash_of <$> w_blob (snd r2).
Proof.
  apply (packing_deterministic "d" {[ "d" := tree_d 7 9 ]}
           {[ "d" := tree_d 1000000007 2000000009 ]}
           (snd (update (set_IsDir true) fresh))).
  unfold same_up_to_times. rewrite !map_fmap_singleton. reflexivity.
Defined.

Lemma check_duplicate_read_only_witness :
  let w1 := sealed holding in
  let w2 := cached (minio := memstore) "s3.example.org" (sealed holding) in
  remote_frame w1 (snd (CheckDuplicate w1)) /\
  (exists evs, w_trace (snd (CheckDuplicate w1)) = w_trace w1 ++ evs /\
               forallb is_lookup evs = true /\
               List.filter is_put evs = [] /\ List.filter is_del evs = []) /\
  fst (CheckDuplicate w1) = fst (CheckDuplicate w2).
Proof.
  apply (check_duplicate_read_only (sealed holding)
           (cached (minio := memstore) "s3.example.org" (sealed holding))).
  - reflexivity.
  - reflexivity.
  - by_vm.
  - reflexivity.
Defined.

(** The sealed blob is what writing ["hello"] and closing leaves. *)
Example sealed_blob_is_sealed :
  w_blob (snd (Close (snd (Write hello fresh)))) = Some sealed_blob /\
  d_files (w_disk (snd (Close (snd (Write hello fresh)))))
    !! "/tmp/blob042" = Some sealed_spool /\
  fst (CheckDuplicate (sealed holding)) = Ret true.
Proof. split; [by_vm|]. split; by_vm. Qed.


(** C6, as the specification words it, fails on the code.  One write of
    ["hello"] to a fresh blob: the chunk reaches the compressor (which
    spools seven bytes) before the uncompressed counter moves and before
    the hash absorbs it, so the order counter, hash, compressor is not
    the order of the effects. *)
Lemma write_order_counterexample :
  fst (Write hello fresh) = Ret (5, None) /\
  new_events fresh (snd (Write hello fresh)) =
    [ EvGzip hello;
      EvSpool "/tmp/blob042" (frame_magic ++ hello);
      EvCcw 7;
      EvUcw 5;
      EvHash hello;
      EvProgress 5 ] /\
  counter_hash_compressor (new_events fresh (snd (Write hello fresh))) = false.
Proof. split; [by_vm|]. split; by_vm. Qed.


Example sha256_empty :
  fmt_x (sha256.Sum256 []) =
  "e3b0c44298fc1c149afbf4c8996fb92427ae41e4649b934ca495991b7852b855".
Proof. by_vm. Qed.

Example sha256_abc :
  fmt_x (sha256.Sum256 [Byte.x61; Byte.x62; Byte.x63]) =
  "ba7816bf8f01cfea414140de5dae2223b00361a396177a9cb410ff61f20015ad".
Proof. by_vm. Qed.

(** ** The further properties at work *)

Lemma close_twice_witness :
  Close (snd (Close (opened 100))) =
    (Ret (Some ErrClosed), snd (Close (opened 100))).
Proof. apply (close_twice (opened 100) None). by_run. Defined.

Lemma size_is_spool_length_witness :
  let w2 :=
    snd (Close (snd (TarDir "d" (snd (update (set_IsDir true) fresh))))) in
  exists b spool,
    w_blob w2 = Some b /\
    d_files (w_disk w2) !! f_name (File b) = Some spool /\
    (len spool < 2 ^ 63 -> Size_of b = len spool).
Proof.
  apply (size_is_spool_length "d" (world 100 0 0 store0) fresh).
  unfold fresh. by_run.
Defined.

Lemma reader_to_blob_nil_blob_witness :
  ReaderToBlob two_reads no_temp = (Panic nil_deref, with_blob None no_temp).
Proof.
  apply (reader_to_blob_nil_blob two_reads no_temp
           (Wrap (ErrNew "cannot create temporary file")
                 "Blob: could not create temporary file")
           (snd (NewLocalBlob no_temp))).
  by_run.
Defined.

Lemma reader_to_blob_seals_witness :
  let w' := snd (ReaderToBlob two_reads (world 100 0 0 store0)) in
  exists b spool,
    w_blob w' = Some b /\
    f_closed (File b) = true /\
    Hash_of b = sha256.Sum256 (consumed two_reads) /\
    (len (consumed two_reads) < 2 ^ 63 ->
       UncompressedSize_of b = len (consumed two_reads)) /\
    d_files (w_disk w') !! f_name (File b) = Some spool /\
    (len spool < 2 ^ 63 -> Size_of b = len spool).
Proof.
  apply (reader_to_blob_seals two_reads (world 100 0 0 store0)
           (snd (ReaderToBlob two_reads (world 100 0 0 store0)))).
  by_run.
Defined.

Lemma reader_to_blob_cleans_up_witness :
  let w := world 100 0 0 store0 in
  fst (ReaderToBlob broken_read w) =
    Ret (false, Some (Wrap (ErrNew "unexpected EOF") "Error while processing")) /\
  exists b,
    w_blob fresh = Some b /\
    d_files (w_disk (snd (ReaderToBlob broken_read w))) !! f_name (File b) = None /\
    shut (snd (ReaderToBlob broken_read w)).
Proof.
  apply (reader_to_blob_cleans_up broken_read (world 100 0 0 store0) fresh 5
           (ErrNew "unexpected EOF") (snd (Copy broken_read 0 fresh))).
  - unfold fresh. by_run.
  - by_run.
Defined.

Lemma upload_dir_without_temp_file_witness :
  let e := Wrap (ErrNew "cannot create temporary file")
                "Blob: could not create temporary file" in
  UploadDir "d" no_temp =
    (Ret (None, Some (Wrap e "Failed to prepare dir blob")), no_temp) /\
  exists c, e = Wrap c "Blob: could not create temporary file".
Proof.
  apply (upload_dir_without_temp_file "d" no_temp
           (Wrap (ErrNew "cannot create temporary file")
                 "Blob: could not create temporary file")
           (snd (NewLocalBlob no_temp))).
  by_run.
Defined.

Lemma upload_dir_pack_failure_witness :
  let w0 := world 100 0 0 store0 in
  let e := ErrNew "Unable to tar files - no such file or directory" in
  fst (UploadDir "nowhere" w0) = Ret (None, Some (Wrap e "Failed to tar dir")) /\
  w_remote (snd (UploadDir "nowhere" w0)) = w_remote w0 /\
  w_s3 (snd (UploadDir "nowhere" w0)) = w_s3 w0 /\
  List.filter is_remote (new_events w0 (snd (UploadDir "nowhere" w0))) = [].
Proof.
  apply (upload_dir_pack_failure "nowhere" (world 100 0 0 store0) fresh
           (ErrNew "Unable to tar files - no such file or directory")
           (snd (TarDir "nowhere" (snd (update (set_IsDir true) fresh))))).
  - unfold fresh. by_run.
  - by_run.
Defined.

Lemma upload_dir_panics_without_client_witness :
  exists e,
    minio_New (Endpoint (config (w_s3 offline))) (Key (config (w_s3 offline)))
              (Secret (config (w_s3 offline))) (SSL (config (w_s3 offline)))
      = inl e /\
    fst (UploadDir "d" offline) = Panic (Error e) /\
    w_remote (snd (UploadDir "d" offline)) = w_remote offline /\
    List.filter is_remote (new_events offline (snd (UploadDir "d" offline))) = [].
Proof.
  apply (upload_dir_panics_without_client "d" offline (packed offline)).
  - exists (snd (NewLocalBlob offline)), (before_Close offline).
    split; [by_run|]. split; [unfold before_Close; by_run|].
    unfold packed. by_run.
  - reflexivity.
Defined.

Lemma object_key_injective_witness :
  [Byte.x00; Byte.xff] = [Byte.x00; Byte.xff].
Proof.
  apply (object_key_injective [Byte.x00; Byte.xff] [Byte.x00; Byte.xff]).
  reflexivity.
Defined.

Lemma tar_dir_answers_the_walk_witness :
  let w := opened 2000 in
  exists r c,
    fst (walk "d" "d" (tree_d 0 0) (snd (tar_NewWriter w))) = Ret r /\
    fst (tw_Close (snd (walk "d" "d" (tree_d 0 0) (snd (tar_NewWriter w)))))
      = Ret c /\
    fst (TarDir "d" w) = Ret r.
Proof.
  apply (tar_dir_answers_the_walk "d" (tree_d 0 0) (opened 2000)).
  - eexists _, _. split; [reflexivity|]. split; reflexivity.
  - by_vm.
  - intros e H. discriminate H.
Defined.

Lemma packing_ignores_location_witness :
  let n := tree_d 0 0 in
  let r1 := TarDir "d" (with_tree {[ "d" := n ]} (opened 5000)) in
  let r2 := TarDir "/srv/e" (with_tree {[ "/srv/e" := n ]} (opened 5000)) in
  fst r1 = fst r2 /\ snd r2 = with_tree {[ "/srv/e" := n ]} (snd r1).
Proof.
  apply (packing_ignores_location "d" "/srv/e" (tree_d 0 0)
           {[ "d" := tree_d 0 0 ]} {[ "/srv/e" := tree_d 0 0 ]} (opened 5000)).
  - exists false, ["d"]. split; [discriminate|]. split; reflexivity.
  - exists true, ["srv"; "e"]. split; [discriminate|]. split; reflexivity.
  - by_vm.
  - by_vm.
  - reflexivity.
  - reflexivity.
Defined.

Lemma entry_names_collide_witness :
  entry_name "/data" "/data" = "" /\
  walkFn "/data" ("/data" ++ "/data" ++ "/x")
         (Some (info "x" Regular 5 0 0)) (inr hello) None =
  walkFn "/data" ("/data" ++ "/x")
         (Some (info "x" Regular 5 0 0)) (inr hello) None.
Proof.
  apply (entry_names_collide "/data" "/x" (Some (info "x" Regular 5 0 0))
           (inr hello) None).
  intros H. discriminate H.
Defined.

Lemma tar_zip_stops_at_first_non_regular_witness :
  TarZip (inr ([zip_readme] ++ zip_docs :: [zip_guide])) (opened 5000) =
  TarZip (inr ([zip_readme] ++ [zip_docs])) (opened 5000).
Proof.
  apply (tar_zip_stops_at_first_non_regular [zip_readme] zip_docs [zip_guide]
           (opened 5000)).
  reflexivity.
Defined.

Lemma tar_zip_reports_trailer_witness :
  TarZip (inr [zip_readme]) (opened 600) =
    (Ret (Some ENOSPC),
     snd (tw_Close (snd (TarZip_range [zip_readme]
                           (snd (tar_NewWriter (opened 600))))))).
Proof.
  apply (tar_zip_reports_trailer [zip_readme] (opened 600)
           (snd (TarZip_range [zip_readme] (snd (tar_NewWriter (opened 600)))))).
  - by_run.
  - by_run.
Defined.

Lemma tar_zip_flattens_witness :
  slashless (h_Name guide_header) = true /\
  h_Name guide_header = TrimPrefix (path_Base (zf_Name zip_guide)) Separator /\
  h_ModTime guide_header = zeroTime.
Proof.
  apply (tar_zip_flattens zip_guide guide_header). reflexivity.
Defined.

Lemma untargz_leaves_file_open_witness :
  List.filter (fun c => negb (is_write c))
    (new_calls out0
       (snd (extract "out" (header TypeReg "a.txt") (list_byte_of_string "HI")
                     (Some (ErrNew "unexpected EOF")) out0))) =
  [CallOpenFile (filepath_Join "out" (h_Name (header TypeReg "a.txt")))
                (Z.lor O_CREATE O_RDWR)
                (FileMode (h_Mode (header TypeReg "a.txt")))].
Proof.
  apply (untargz_leaves_file_open "out" (header TypeReg "a.txt")
           (list_byte_of_string "HI") (Some (ErrNew "unexpected EOF")) out0
           (ErrNew "unexpected EOF")).
  - reflexivity.
  - by_vm.
Defined.

Lemma untargz_escapes_destination_witness :
  let h := header TypeReg "../up.txt" in
  filepath_Join "out" (h_Name h) = "up.txt" /\
  exists cs,
    new_calls out0 (snd (Untargz "out" (inr [NextEntry h gopher None]) out0)) =
      CallOpenFile "up.txt" (Z.lor O_CREATE O_RDWR) (FileMode (h_Mode h)) :: cs.
Proof.
  apply (untargz_escapes_destination "out" "up.txt" (header TypeReg "../up.txt")
           gopher None [] out0); reflexivity.
Defined.

(** The trailer that does not fit: with room for 2000 bytes the walk
    over [d/] succeeds, closing the archive fails, and [TarDir] returns
    nil. *)
Example trailer_failure_is_dropped :
  fst (walk "d" "d" (tree_d 0 0) (snd (tar_NewWriter (opened 2000))))
    = Ret None /\
  fst (tw_Close (snd (walk "d" "d" (tree_d 0 0)
                        (snd (tar_NewWriter (opened 2000))))))
    = Ret (Some ENOSPC) /\
  fst (TarDir "d" (opened 2000)) = Ret None.
Proof. split; [by_vm|]. split; by_vm. Qed.

(** A root that is not clean: [filepath.Walk] joins and cleans, so the
    root no longer occurs in the path of the entry and the entry keeps
    the directory in its name. *)
Example unclean_root_names :
  Join "./d" "a.txt" = "d/a.txt" /\
  entry_name "./d" (Join "./d" "a.txt") = "d/a.txt" /\
  entry_name "d" (Join "d" "a.txt") = "a.txt".
Proof. split; [by_vm|]. split; by_vm. Qed.

(** [filepath.Clean] on the cases of its documentation. *)
Example clean_table :
  map Clean [ "abc//def//ghi"; "abc/./../def"; "abc/def/../../..";
              "/abc/def/../../.."; "/../abc"; ""; "/";
              "abc/def/../../../ghi/jkl/../../../mno"; "abc/" ] =
  [ "abc/def/ghi"; "def"; ".."; "/"; "/abc"; "."; "/"; "../../mno"; "abc" ].
Proof. by_vm. Qed.

(** [path.Base] on the cases of its documentation. *)
Example base_table :
  map path_Base [ ""; "/"; "///"; "a"; "a/b"; "a/b/"; "docs/"; "/a/b.txt" ] =
  [ "."; "/"; "/"; "a"; "b"; "b"; "docs"; "b.txt" ].
Proof. by_vm. Qed.

(** [Untargz] on the sample archive: the directory is made, the shorter
    [a.txt] goes over the older one and leaves its tail, the device is
    skipped, and the last entry lands beside [out/]. *)
Example untargz_sample :
  fst (Untargz "out" (inr archive) out0) = None /\
  map_to_list (mf_files (x_fs (snd (Untargz "out" (inr archive) out0)))) =
    map_to_list ({[ "out/a.txt" := list_byte_of_string "HIllo";
                    "up.txt" := gopher ]} : gmap string bytes) /\
  mf_dirs (x_fs (snd (Untargz "out" (inr archive) out0))) = ["out/docs"; "out"] /\
  x_calls (snd (Untargz "out" (inr archive) out0)) =
    [ CallStat "out/docs"; CallMkdirAll "out/docs" rwxr_xr_x;
      CallOpenFile "out/a.txt" 66 420;
      CallWrite "out/a.txt" (list_byte_of_string "HI");
      CallClose "out/a.txt";
      CallLogPrint "Tar: ignoring unknown tar header";
      CallOpenFile "up.txt" 66 420;
      CallWrite "up.txt" gopher;
      CallClose "up.txt" ].
Proof. split; [by_vm|]. split; [by_vm|]. split; by_vm. Qed.
